(** * PersistentContextManager: a shallow embedding of [src/context-manager.ts]

    The development follows the class member by member:

    - [Format]    : [formatBytes] (lines 190-196);
    - [Fs]        : the part of the file system the class reaches through
                    [fs.rm], [fs.access], [fs.mkdir], [fs.readdir],
                    [fs.copyFile] and [fs.stat], as a tree of files,
                    directories and dangling links;
    - [Manager]   : [ensureDirectory], [copyDirectory], [copyContext],
                    [getDirectorySize], [getContextSize] (lines 80-188), as
                    state-passing methods that return, throw, or exhaust the
                    recursion bound of the embedding;
    - [Lifecycle] : [this.browser] and the methods [initialize], [cleanup],
                    [createBaseContext], [useExistingContext] (lines 14-131)
                    against a driver that records what it keeps open;
    - [Tree], [Samples] : predicates on trees and paths used in the
                    statements, and a few concrete file systems.

    Paths are taken after [resolve], as lists of components. The calls into
    the browser driver that launch or close something are taken to succeed;
    the calls on a page may reject. *)

From Stdlib Require Import ZArith String Ascii List Lia Bool DecimalString.
From Stdlib Require Import DecimalPos DecimalN.
Import ListNotations.

Open Scope Z_scope.

Set Warnings "-register-all".

(* ================================================================== *)
(** ** formatBytes *)
(* ================================================================== *)

Module Format.

Open Scope string_scope.
Open Scope Z_scope.

(** A JavaScript Number, as far as [formatBytes] meets one on an integral
    byte count: NaN, or the exact quotient [num / den] with [den > 0].
    Byte counts are sums of [stats.size], hence integers; dividing an
    integer below 2^53 by a power of 1024 is exact in binary64, so the
    quotient is carried as a fraction. *)
Inductive number :=
| NaN
| Frac (num den : Z).

(** [const k = 1024] and [const sizes = ['Bytes', 'KB', 'MB', 'GB']]. *)
Definition k : Z := 1024.
Definition sizes : list string := ["Bytes"; "KB"; "MB"; "GB"].

(** The exact floor of the logarithm in base 1024 of an integer
    [bytes >= 1], which is [floor(log2 bytes / 10)]. For [bytes] below
    [1024^4] this is what [Math.floor(Math.log(bytes) / Math.log(k))]
    computes in binary64. For larger counts it need not be: the rounding of
    [Math.log] can carry the quotient onto the next integer (at [2^50 - 1]
    the code computes 5 where the exact floor is 4), so statements about
    such counts take the computed index as a parameter, see
    [formatBytes_with]. *)
Definition floor_log_k (bytes : Z) : Z := Z.log2 bytes / 10.

(** An index function that agrees with [floor_log_k] except on the three
    counts just below [1024^5], where it is already 5, as the binary64
    computation is. *)
Definition index_rounding_up_below_pow5 (bytes : Z) : Z :=
  if (2 ^ 50 - 3 <=? bytes) && (bytes <? 2 ^ 50) then 5 else floor_log_k bytes.

(** Decimal numeral of a non-negative integer. *)
Definition digits (n : Z) : string := NilZero.string_of_uint (N.to_uint (Z.to_N n)).

(** Two-digit rendering of [0 <= n < 100]. *)
Definition two_digits (n : Z) : string :=
  if n <? 10 then "0" ++ digits n else digits n.

(** [Number.prototype.toFixed(2)]: the integer [n] for which [n / 100] is
    closest to the number, the larger one on a tie, printed with exactly two
    fraction digits. *)
Definition toFixed2 (x : number) : string :=
  match x with
  | NaN => "NaN"
  | Frac num den =>
      let n := (200 * num + den) / (2 * den) in
      digits (n / 100) ++ "." ++ two_digits (n mod 100)
  end.

Definition is_digit (c : ascii) : bool :=
  let n := Z.of_nat (nat_of_ascii c) in (48 <=? n) && (n <=? 57).

Definition digit_val (c : ascii) : Z := Z.of_nat (nat_of_ascii c) - 48.

(** Reads a run of decimal digits: accumulated value, number of digits read,
    and the rest of the input. *)
Fixpoint read_digits (s : string) (acc : Z) (cnt : nat) : Z * nat * string :=
  match s with
  | String c s' =>
      if is_digit c then read_digits s' (10 * acc + digit_val c) (S cnt)
      else (acc, cnt, s)
  | EmptyString => (acc, cnt, s)
  end.

(** [parseFloat] on unsigned decimal literals [ddd] or [ddd.ddd]; anything
    that does not start with a digit is NaN. The value is the exact decimal
    [m / 10^e]. *)
Definition parseFloat (s : string) : number :=
  match read_digits s 0 0%nat with
  | (_, O, _) => NaN
  | (whole, _, String "." rest) =>
      let '(m, e, _) := read_digits rest whole 0%nat in
      Frac m (10 ^ Z.of_nat e)
  | (whole, _, _) => Frac whole 1
  end.

(** Drops trailing zeros of a decimal fraction [m / 10^e]. *)
Fixpoint strip_zeros (m : Z) (e : nat) : Z * nat :=
  match e with
  | O => (m, O)
  | S e' => if m mod 10 =? 0 then strip_zeros (m / 10) e' else (m, e)
  end.

(** Pads [s] on the left with zeros up to [len] characters. *)
Fixpoint pad_left (len : nat) (s : string) : string :=
  if (String.length s <? len)%nat then
    match len with
    | O => s
    | S len' => "0" ++ pad_left len' s
    end
  else s.

(** Largest [e] with [den = 10^e], for the denominators [parseFloat]
    produces. *)
Fixpoint log10_nat (fuel : nat) (den : Z) : nat :=
  match fuel with
  | O => O
  | S f => if den <=? 1 then O else S (log10_nat f (den / 10))
  end.

(** [Number::toString] as triggered by [number + ' ']: a decimal value is
    printed with its shortest digit string, that is without trailing zeros in
    the fraction and without a decimal point when the fraction is empty. *)
Definition number_to_string (x : number) : string :=
  match x with
  | NaN => "NaN"
  | Frac m den =>
      let '(m', e') := strip_zeros m (log10_nat 64 den) in
      match e' with
      | O => digits m'
      | _ => let p := 10 ^ Z.of_nat e' in
             digits (m' / p) ++ "." ++ pad_left e' (digits (m' mod p))
      end
  end.

(** [sizes[i]] coerced to a string: an index outside the array reads
    [undefined], which concatenates as the text "undefined". *)
Definition sizes_at (i : Z) : string :=
  if i <? 0 then "undefined"
  else match nth_error sizes (Z.to_nat i) with
       | Some u => u
       | None => "undefined"
       end.

(** [formatBytes(bytes)], lines 190-196, with [index bytes] standing for
    the value of [Math.floor(Math.log(bytes) / Math.log(k))] on a positive
    count. A negative count makes [Math.log] return NaN, which propagates
    through [Math.floor], [Math.pow], [toFixed] and [parseFloat], and
    indexes [sizes] with NaN. *)
Definition formatBytes_with (index : Z -> Z) (bytes : Z) : string :=
  if bytes =? 0 then "0 Bytes"
  else if bytes <? 0 then number_to_string (parseFloat (toFixed2 NaN)) ++ " " ++ "undefined"
  else
    let i := index bytes in
    number_to_string (parseFloat (toFixed2 (Frac bytes (k ^ i)))) ++ " " ++ sizes_at i.

(** [formatBytes] with the exact index, which is the computed one for
    every count below [1024^4]. *)
Definition formatBytes (bytes : Z) : string := formatBytes_with floor_log_k bytes.

End Format.

(* ================================================================== *)
(** ** The file system seen through [fs.promises] *)
(* ================================================================== *)

Module Fs.

Open Scope string_scope.
Open Scope list_scope.

(** A path after [resolve]: the list of its components below the root;
    [join(p, name)] is [p ++ [name]]. *)
Definition path := list string.

Definition join (p : path) (name : string) : path := p ++ [name].

(** What a directory entry can be: a regular file with its bytes, a
    directory (listable by [readdir] only when [readable]) with its entries
    in [readdir] order, or a symbolic link whose target is missing. A
    directory that cannot be listed lacks the read permission only: paths
    through it resolve, and entries can be added to it. *)
Inductive node :=
| File (content : list Byte.byte)
| Dir (readable : bool) (entries : list (string * node))
| Dangling.

(** The state of the file system is its root directory. *)
Definition fs := node.

Inductive errno := ENOENT | ENOTDIR | EACCES | EISDIR | EEXIST | EBUSY.

Inductive res (A : Type) :=
| Ok (a : A)
| Err (e : errno).
Arguments Ok {A} a.
Arguments Err {A} e.

(** [Dirent]: [entry.name] and [entry.isDirectory()]. *)
Record dirent := { name : string; isDirectory : bool }.

Fixpoint assoc (x : string) (es : list (string * node)) : option node :=
  match es with
  | [] => None
  | (y, n) :: es' => if String.eqb x y then Some n else assoc x es'
  end.

(** Replaces the entry called [x], or appends it when there is none. *)
Fixpoint set_child (x : string) (v : node) (es : list (string * node)) :=
  match es with
  | [] => [(x, v)]
  | (y, n) :: es' =>
      if String.eqb x y then (y, v) :: es' else (y, n) :: set_child x v es'
  end.

Definition remove_child (x : string) (es : list (string * node)) :=
  filter (fun e => negb (String.eqb x (fst e))) es.

(** Path resolution without following the last component. *)
Fixpoint walk (n : node) (p : path) : res node :=
  match p with
  | [] => Ok n
  | x :: p' =>
      match n with
      | Dir _ es =>
          match assoc x es with
          | Some c => walk c p'
          | None => Err ENOENT
          end
      | File _ => Err ENOTDIR
      | Dangling => Err ENOENT
      end
  end.

(** [fs.access(p)]: follows links, so a dangling link is reported missing. *)
Definition access (s : fs) (p : path) : res unit :=
  match walk s p with
  | Ok Dangling => Err ENOENT
  | Ok _ => Ok tt
  | Err e => Err e
  end.

Definition to_dirent (e : string * node) : dirent :=
  {| name := fst e;
     isDirectory := match snd e with Dir _ _ => true | _ => false end |}.

(** [fs.readdir(p, { withFileTypes: true })]. *)
Definition readdir (s : fs) (p : path) : res (list dirent) :=
  match walk s p with
  | Ok (Dir true es) => Ok (map to_dirent es)
  | Ok (Dir false _) => Err EACCES
  | Ok (File _) => Err ENOTDIR
  | Ok Dangling => Err ENOENT
  | Err e => Err e
  end.

(** [fs.stat(p)], reduced to [stats.size]. A directory reports the size of
    its own inode block. *)
Definition stat_size (s : fs) (p : path) : res Z :=
  match walk s p with
  | Ok (File c) => Ok (Z.of_nat (length c))
  | Ok (Dir _ _) => Ok 4096%Z
  | Ok Dangling => Err ENOENT
  | Err e => Err e
  end.

(** Stores [v] at [p]; the parent of [p] has to be an existing directory. *)
Fixpoint put (n : node) (p : path) (v : node) : res node :=
  match p with
  | [] => Ok v
  | x :: p' =>
      match n with
      | Dir r es =>
          match assoc x es with
          | Some c =>
              match put c p' v with
              | Ok c' => Ok (Dir r (set_child x c' es))
              | Err e => Err e
              end
          | None =>
              match p' with
              | [] => Ok (Dir r (set_child x v es))
              | _ => Err ENOENT
              end
          end
      | File _ => Err ENOTDIR
      | Dangling => Err ENOENT
      end
  end.

(** [fs.copyFile(src, dst)]: reads the bytes of the regular file [src] and
    writes them to [dst], replacing a file that is there. *)
Definition copyFile (s : fs) (src dst : path) : res fs :=
  match walk s src with
  | Ok (File c) =>
      match walk s dst with
      | Ok (Dir _ _) => Err EISDIR
      | Err ENOTDIR => Err ENOTDIR
      | _ => put s dst (File c)
      end
  | Ok (Dir _ _) => Err EISDIR
  | Ok Dangling => Err ENOENT
  | Err e => Err e
  end.

(** A fresh chain of directories [x1/x2/.../xn]. *)
Fixpoint fresh_dirs (p : path) : node :=
  match p with
  | [] => Dir true []
  | x :: p' => Dir true [(x, fresh_dirs p')]
  end.

(** [fs.mkdir(p, { recursive: true })]: existing directories on the way are
    kept, missing ones are created, anything else on the way is an error: a
    regular file at [p] is [EEXIST], a link without target at [p] is
    [ENOENT], and either of them above [p] is [ENOTDIR]. *)
Fixpoint mkdir_p (n : node) (p : path) : res node :=
  match n with
  | Dir r es =>
      match p with
      | [] => Ok n
      | x :: p' =>
          match assoc x es with
          | Some c =>
              match mkdir_p c p' with
              | Ok c' => Ok (Dir r (set_child x c' es))
              | Err e => Err e
              end
          | None => Ok (Dir r (set_child x (fresh_dirs p') es))
          end
      end
  | File _ => match p with [] => Err EEXIST | _ => Err ENOTDIR end
  | Dangling => match p with [] => Err ENOENT | _ => Err ENOTDIR end
  end.

(** What a recursive removal leaves of a node, [None] when the node is
    gone. Files and links are unlinked; a directory is removed by [rmdir]
    once it is empty, and emptying it needs [readdir]: a directory that
    cannot be listed goes only if it is empty already, otherwise it stays
    with all it holds, and so does every directory above it, with the
    entries that stayed. *)
Fixpoint prune (n : node) : option node :=
  match n with
  | Dir true es =>
      match (fix go (l : list (string * node)) : list (string * node) :=
               match l with
               | [] => []
               | e :: l' =>
                   match prune (snd e) with
                   | Some c => (fst e, c) :: go l'
                   | None => go l'
                   end
               end) es with
      | [] => None
      | kept => Some (Dir true kept)
      end
  | Dir false [] => None
  | Dir false es => Some (Dir false es)
  | _ => None
  end.

(** The entries of a listable directory that a recursive removal leaves. *)
Fixpoint prune_entries (es : list (string * node)) : list (string * node) :=
  match es with
  | [] => []
  | e :: l' =>
      match prune (snd e) with
      | Some c => (fst e, c) :: prune_entries l'
      | None => prune_entries l'
      end
  end.

(** [fs.rm(p, { recursive: true, force: true })]: a missing path is not an
    error; a path through a regular file is; the root itself cannot be
    removed ([rmdir] reports it busy). What is at [p] is removed as far as
    [prune] goes: when something stays, the call fails with the [EACCES] of
    the [readdir] that was refused. The result carries the state left
    behind. *)
Fixpoint rm_rf (n : node) (p : path) : res unit * node :=
  match p with
  | [] => (Err EBUSY, n)
  | x :: p' =>
      match n with
      | Dir r es =>
          match assoc x es with
          | Some c =>
              match p' with
              | [] =>
                  match prune c with
                  | None => (Ok tt, Dir r (remove_child x es))
                  | Some c' => (Err EACCES, Dir r (set_child x c' es))
                  end
              | _ => let '(o, c') := rm_rf c p' in (o, Dir r (set_child x c' es))
              end
          | None => (Ok tt, n)
          end
      | File _ => (Err ENOTDIR, n)
      | Dangling => (Ok tt, n)
      end
  end.

End Fs.

(* ================================================================== *)
(** ** The file-system methods of [PersistentContextManager] *)
(* ================================================================== *)

Module Manager.
Import Fs.

Open Scope list_scope.

(** How an [async] method ends: it returns, it throws, or the bound on the
    recursion depth that the embedding adds was too small. *)
Inductive outcome (A : Type) :=
| Return (a : A)
| Throw (e : errno)
| Fuel.
Arguments Return {A} a.
Arguments Throw {A} e.
Arguments Fuel {A}.

(** A method that may change the file system: the state it leaves is
    returned in every case, since nothing is rolled back on an error. *)
Definition M (A : Type) := fs -> outcome A * fs.

Definition ret {A} (a : A) : M A := fun s => (Return a, s).

Definition bind {A B} (m : M A) (f : A -> M B) : M B :=
  fun s =>
    match m s with
    | (Return a, s') => f a s'
    | (Throw e, s') => (Throw e, s')
    | (Fuel, s') => (Fuel, s')
    end.

(** [try { m } catch (error) { h }]. *)
Definition try_catch {A} (m : M A) (h : errno -> M A) : M A :=
  fun s =>
    match m s with
    | (Throw e, s') => h e s'
    | r => r
    end.

Notation "x <- m ;; f" := (bind m (fun x => f))
  (at level 61, m at next level, right associativity).
Notation "m ;; f" := (bind m (fun _ => f))
  (at level 61, right associativity).

(** The [fs.promises] calls as methods. A failed call leaves the state as
    it was, except [fs.rm], which may have removed part of the tree before
    it failed and reports what it left. *)
Definition fs_access (p : path) : M unit :=
  fun s => match access s p with Ok _ => (Return tt, s) | Err e => (Throw e, s) end.

Definition fs_mkdir (p : path) : M unit :=
  fun s => match mkdir_p s p with Ok s' => (Return tt, s') | Err e => (Throw e, s) end.

Definition fs_rm (p : path) : M unit :=
  fun s => match rm_rf s p with (Ok _, s') => (Return tt, s') | (Err e, s') => (Throw e, s') end.

Definition fs_readdir (p : path) : M (list dirent) :=
  fun s => match readdir s p with Ok es => (Return es, s) | Err e => (Throw e, s) end.

Definition fs_copyFile (src dst : path) : M unit :=
  fun s => match copyFile s src dst with Ok s' => (Return tt, s') | Err e => (Throw e, s) end.

(** [for (const entry of entries) { body }]. *)
Fixpoint for_of {A} (xs : list A) (body : A -> M unit) : M unit :=
  match xs with
  | [] => ret tt
  | x :: xs' => body x ;; for_of xs' body
  end.

(** [ensureDirectory], lines 133-140. *)
Definition ensureDirectory (p : path) : M unit :=
  try_catch (fs_access p) (fun _ => fs_mkdir p).

(** [copyDirectory], lines 142-159. *)
Fixpoint copyDirectory (fuel : nat) (source target : path) : M unit :=
  match fuel with
  | O => fun s => (Fuel, s)
  | S fuel' =>
      entries <- fs_readdir source ;;
      for_of entries (fun entry =>
        let sourcePath := join source (name entry) in
        let targetPath := join target (name entry) in
        if isDirectory entry then
          ensureDirectory targetPath ;;
          copyDirectory fuel' sourcePath targetPath
        else
          fs_copyFile sourcePath targetPath)
  end.

(** [copyContext], lines 80-97. *)
Definition copyContext (fuel : nat) (sourceContextPath targetContextPath : path) : M unit :=
  try_catch (fs_rm targetContextPath) (fun _ => ret tt) ;;
  ensureDirectory targetContextPath ;;
  copyDirectory fuel sourceContextPath targetContextPath.

(** The loop of [getDirectorySize], lines 174-182, run inside the [try]:
    [size] is the local accumulator, and what is returned is its value when
    the loop ends or when a call in it throws (line 183 swallows the error
    and line 187 returns [size]). [sub] measures a subdirectory. *)
Fixpoint size_loop (sub : path -> outcome Z) (s : fs) (p : path)
    (entries : list dirent) (size : Z) : outcome Z :=
  match entries with
  | [] => Return size
  | entry :: rest =>
      let fullPath := join p (name entry) in
      if isDirectory entry then
        match sub fullPath with
        | Return v => size_loop sub s p rest (size + v)
        | Throw _ => Return size
        | Fuel => Fuel
        end
      else
        match stat_size s fullPath with
        | Ok v => size_loop sub s p rest (size + v)
        | Err _ => Return size
        end
  end.

(** [getDirectorySize], lines 169-188. It only reads the file system. *)
Fixpoint getDirectorySize (fuel : nat) (s : fs) (p : path) : outcome Z :=
  match fuel with
  | O => Fuel
  | S fuel' =>
      match readdir s p with
      | Ok entries => size_loop (getDirectorySize fuel' s) s p entries 0
      | Err _ => Return 0
      end
  end.

(** [getContextSize], lines 161-167. *)
Definition getContextSize (fuel : nat) (s : fs) (contextPath : path) : outcome Z :=
  match getDirectorySize fuel s contextPath with
  | Throw _ => Return 0
  | r => r
  end.

End Manager.

(* ================================================================== *)
(** ** The browser side of [PersistentContextManager] *)
(* ================================================================== *)

Module Lifecycle.
Import Fs Manager.

Open Scope list_scope.

(** Browsers and persistent contexts are known by the handle the driver
    gave them at launch. *)
Definition handle := nat.

(** Calls that reach the driver, in the order they are made. *)
Inductive event :=
| Launch (b : handle)
| CloseBrowser (b : handle)
| LaunchPersistent (c : handle) (p : path)
| NewPage (c : handle)
| Goto (c : handle) (url : string)
| WaitForTimeout (c : handle)
| WaitForResponse (c : handle)
| CloseContext (c : handle).

(** What the driver keeps alive: the browsers and persistent contexts that
    were launched and not closed since. *)
Record driver := {
  open_browsers : list handle;
  open_contexts : list handle;
  next : handle;
  trace : list event
}.

(** The manager object: its only field is [this.browser] (line 14). *)
Record manager := { browser : option handle }.

Record world := { this : manager; drv : driver; disk : fs }.

Inductive failure :=
| Io (e : errno)
| PageError.

Inductive ended :=
| Returned
| Threw (f : failure).

(** How the calls on the page turn out in one run: each may resolve or
    reject (a navigation timeout, a closed page, no matching response). *)
Record page_run := {
  newPage_ok : bool;
  goto_ok : bool;
  waitForTimeout_ok : bool;
  waitForResponse_ok : bool
}.

Definition remove_handle (h : handle) (l : list handle) : list handle :=
  filter (fun x => negb (Nat.eqb x h)) l.

Definition log (e : event) (d : driver) : driver :=
  {| open_browsers := open_browsers d; open_contexts := open_contexts d;
     next := next d; trace := trace d ++ [e] |}.

(** [chromium.launch(...)]: a new browser under a fresh handle. *)
Definition chromium_launch (d : driver) : handle * driver :=
  let b := next d in
  (b, {| open_browsers := b :: open_browsers d; open_contexts := open_contexts d;
         next := S b; trace := trace d ++ [Launch b] |}).

(** [browser.close()]. *)
Definition browser_close (b : handle) (d : driver) : driver :=
  {| open_browsers := remove_handle b (open_browsers d);
     open_contexts := open_contexts d;
     next := next d; trace := trace d ++ [CloseBrowser b] |}.

(** [chromium.launchPersistentContext(path, ...)]. *)
Definition chromium_launchPersistentContext (p : path) (d : driver) : handle * driver :=
  let c := next d in
  (c, {| open_browsers := open_browsers d; open_contexts := c :: open_contexts d;
         next := S c; trace := trace d ++ [LaunchPersistent c p] |}).

(** [context.close()]. *)
Definition context_close (c : handle) (d : driver) : driver :=
  {| open_browsers := open_browsers d;
     open_contexts := remove_handle c (open_contexts d);
     next := next d; trace := trace d ++ [CloseContext c] |}.

(** [initialize], lines 16-20. *)
Definition initialize (w : world) : world :=
  let '(b, d) := chromium_launch (drv w) in
  {| this := {| browser := Some b |}; drv := d; disk := disk w |}.

(** [cleanup], lines 22-27. *)
Definition cleanup (w : world) : world :=
  match browser (this w) with
  | Some b =>
      {| this := {| browser := None |}; drv := browser_close b (drv w); disk := disk w |}
  | None => w
  end.

(** The body of the [try] of [createBaseContext], lines 44-69: the calls on
    the page in order, stopping at the first that rejects, except that a
    rejected [waitForResponse] is caught at line 65. *)
Definition warm_cache (run : page_run) (c : handle) (url : string) (d : driver)
  : ended * driver :=
  let d := log (NewPage c) d in
  if negb (newPage_ok run) then (Threw PageError, d) else
  let d := log (Goto c url) d in
  if negb (goto_ok run) then (Threw PageError, d) else
  let d := log (WaitForTimeout c) d in
  if negb (waitForTimeout_ok run) then (Threw PageError, d) else
  let d := log (WaitForResponse c) d in
  if negb (waitForResponse_ok run) then (* catch, line 65 *) (Returned, d) else
  (Returned, d).

(** [createBaseContext], lines 29-78. *)
Definition createBaseContext (run : page_run) (contextPath : path) (url : string)
    (w : world) : ended * world :=
  match ensureDirectory contextPath (disk w) with
  | (Throw e, s) => (Threw (Io e), {| this := this w; drv := drv w; disk := s |})
  | (_, s) => (* the directory exists *)
      let d := match browser (this w) with
               | Some b => browser_close b (drv w)
               | None => drv w
               end in
      let '(context, d) := chromium_launchPersistentContext contextPath d in
      let '(result, d) := warm_cache run context url d in
      (* finally *)
      let d := context_close context d in
      let '(b, d) := chromium_launch d in
      (result, {| this := {| browser := Some b |}; drv := d; disk := s |})
  end.

(** [useExistingContext], lines 99-131, returning the context handle. The
    optional [url] is [None] for [undefined]; a page is opened only for a
    url that is given and not empty. *)
Definition useExistingContext (run : page_run) (contextPath : path) (url : option string)
    (w : world) : (ended * option handle) * world :=
  let d := match browser (this w) with
           | Some b => browser_close b (drv w)
           | None => drv w
           end in
  let '(context, d) := chromium_launchPersistentContext contextPath d in
  let navigated :=
    (* [if (url)]: neither [undefined] nor the empty string *)
    match url with
    | Some u =>
        if String.eqb u EmptyString then (Returned, d) else
        let d1 := log (NewPage context) d in
        if negb (newPage_ok run) then (Threw PageError, d1) else
        let d2 := log (Goto context u) d1 in
        if negb (goto_ok run) then (Threw PageError, d2) else (Returned, d2)
    | None => (Returned, d)
    end in
  match navigated with
  | (Threw f, d) => ((Threw f, None), {| this := this w; drv := d; disk := disk w |})
  | (Returned, d) =>
      let '(b, d) := chromium_launch d in
      ((Returned, Some context),
       {| this := {| browser := Some b |}; drv := d; disk := disk w |})
  end.

(** A new manager ([browser = null]) before any driver call. *)
Definition start (s : fs) : world :=
  {| this := {| browser := None |};
     drv := {| open_browsers := []; open_contexts := []; next := O; trace := [] |};
     disk := s |}.

(** A browser that is running while the manager holds no reference to it:
    nothing can close it any more. *)
Definition leaked (w : world) (b : handle) : Prop :=
  In b (open_browsers (drv w)) /\ browser (this w) <> Some b.

End Lifecycle.

(* ================================================================== *)
(** ** Vocabulary for statements about trees and paths *)
(* ================================================================== *)

Module Tree.
Import Fs.

Open Scope list_scope.

(** Nesting depth of directories: a file counts 0, a directory one more
    than its deepest entry. *)
Fixpoint depth (n : node) : nat :=
  match n with
  | Dir _ es =>
      S ((fix go (l : list (string * node)) : nat :=
            match l with
            | [] => O
            | e :: l' => Nat.max (depth (snd e)) (go l')
            end) es)
  | _ => O
  end.

Definition depth_entries (es : list (string * node)) : nat :=
  fold_right (fun e d => Nat.max (depth (snd e)) d) O es.

Fixpoint fresh_in (x : string) (es : list (string * node)) : bool :=
  match es with
  | [] => true
  | e :: es' => negb (String.eqb x (fst e)) && fresh_in x es'
  end.

Fixpoint distinct_names (es : list (string * node)) : bool :=
  match es with
  | [] => true
  | e :: es' => fresh_in (fst e) es' && distinct_names es'
  end.

(** A tree of regular files and listable subdirectories, in which no
    directory has two entries of the same name. *)
Fixpoint regular (n : node) : bool :=
  match n with
  | File _ => true
  | Dir r es =>
      r && distinct_names es &&
      (fix go (l : list (string * node)) : bool :=
         match l with
         | [] => true
         | e :: l' => regular (snd e) && go l'
         end) es
  | Dangling => false
  end.

Definition regular_entries (es : list (string * node)) : bool :=
  forallb (fun e => regular (snd e)) es.

(** No directory of the tree lists a name twice. *)
Fixpoint wf (n : node) : bool :=
  match n with
  | Dir _ es =>
      distinct_names es &&
      (fix go (l : list (string * node)) : bool :=
         match l with
         | [] => true
         | e :: l' => wf (snd e) && go l'
         end) es
  | _ => true
  end.

Definition wf_entries (es : list (string * node)) : bool :=
  forallb (fun e => wf (snd e)) es.

(** The two paths part ways at some component: neither is a prefix of the
    other, so neither names a place inside the other. *)
Fixpoint diverges (p q : path) : bool :=
  match p, q with
  | a :: p', b :: q' => if String.eqb a b then diverges p' q' else true
  | _, _ => false
  end.

(** [is_prefix p q]: [q] is [p] or lies below it. *)
Fixpoint is_prefix (p q : path) : bool :=
  match p, q with
  | [], _ => true
  | a :: p', b :: q' => String.eqb a b && is_prefix p' q'
  | _ :: _, [] => false
  end.

(** A directory can be made at [p] unless something else is there: [p]
    is not the root, and every ancestor of [p] that exists is a
    directory. *)
Fixpoint creatable (n : node) (p : path) : bool :=
  match n, p with
  | Dir _ es, [_] => true
  | Dir _ es, x :: p' =>
      match assoc x es with
      | Some c => creatable c p'
      | None => true
      end
  | _, _ => false
  end.

(** Every directory of the tree can be listed. *)
Fixpoint all_listable (n : node) : bool :=
  match n with
  | Dir r es =>
      r &&
      (fix go (l : list (string * node)) : bool :=
         match l with
         | [] => true
         | e :: l' => all_listable (snd e) && go l'
         end) es
  | _ => true
  end.

Definition all_listable_entries (es : list (string * node)) : bool :=
  forallb (fun e => all_listable (snd e)) es.

(** [fs.rm] removes the node entirely. *)
Definition removable (n : node) : bool :=
  match prune n with
  | None => true
  | Some _ => false
  end.

(** The path [p] can be cleared: a directory can be made at [p], and what
    is there now, if anything, is removed entirely by [fs.rm]. *)
Fixpoint clearable (n : node) (p : path) : bool :=
  match n, p with
  | Dir _ es, [x] =>
      match assoc x es with
      | Some c => removable c
      | None => true
      end
  | Dir _ es, x :: p' =>
      match assoc x es with
      | Some c => clearable c p'
      | None => true
      end
  | _, _ => false
  end.

(** [v] is what a node [n] can become when something is written below
    it: a directory keeps its flag and changes its entries, anything else
    stays as it is. *)
Definition same_kind (n v : node) : Prop :=
  match n with
  | Dir r _ => exists es, v = Dir r es
  | _ => v = n
  end.

(** [s1] differs from [s] at most in the entries of what [tgt] names,
    which exists; and if every directory there could be listed, this is
    still so. *)
Definition changed_below (tgt : path) (s s1 : fs) : Prop :=
  exists n v, walk s tgt = Ok n /\ put s tgt v = Ok s1 /\ same_kind n v /\
              (all_listable n = true -> all_listable v = true).

(** What [getDirectorySize] reports for a node, by recursion on the tree
    instead of on paths: 0 unless the node is a listable directory; for one,
    the running sum over its entries in order, where a file adds its length,
    a subdirectory its own measure (0 when it cannot be listed), and a
    dangling link ends the count with the sum so far. *)
Fixpoint measure (n : node) : Z :=
  match n with
  | Dir true es =>
      (fix go (l : list (string * node)) (size : Z) : Z :=
         match l with
         | [] => size
         | e :: l' =>
             match snd e with
             | File c => go l' (size + Z.of_nat (length c))
             | Dir _ _ => go l' (size + measure (snd e))
             | Dangling => size
             end
         end) es 0%Z
  | _ => 0%Z
  end.

(** The same running sum over a list of entries, started from [size]. *)
Fixpoint measure_entries (es : list (string * node)) (size : Z) : Z :=
  match es with
  | [] => size
  | e :: l' =>
      match snd e with
      | File c => measure_entries l' (size + Z.of_nat (length c))
      | Dir _ _ => measure_entries l' (size + measure (snd e))
      | Dangling => size
      end
  end.

(** Sum of the lengths of all regular files in a tree. *)
Fixpoint total_bytes (n : node) : Z :=
  match n with
  | File c => Z.of_nat (length c)
  | Dir _ es =>
      (fix go (l : list (string * node)) : Z :=
         match l with
         | [] => 0%Z
         | e :: l' => (total_bytes (snd e) + go l')%Z
         end) es
  | Dangling => 0%Z
  end.

End Tree.

(** * copyDirectory on trees

    What [copyDirectory] makes of the node at its target, as a function of
    the node at its source: the rounds of the loop of lines 146-158 on
    entries instead of paths. That the method computes it is
    [GraftRefine.copyDirectory_graft]. *)

Module Graft.
Import Fs Manager.
Open Scope list_scope.

(** One round of the loop of lines 146-158 on the entries of the target:
    [c] is the source entry and [oc] the target entry of the same name, if
    any. The result is the outcome of the round and the new target entry,
    or [None] when the round writes nothing. [sub] copies a directory into
    a directory. *)
Definition graft_entry (sub : node -> node -> outcome unit * node) (c : node)
    (oc : option node) : outcome unit * option node :=
  match c with
  | Dir _ _ =>
      match oc with
      | Some Dangling => (Throw ENOENT, None)
      | Some tc => let '(o, tc') := sub c tc in (o, Some tc')
      | None => let '(o, tc') := sub c (Dir true []) in (o, Some tc')
      end
  | File content =>
      match oc with
      | Some (Dir _ _) => (Throw EISDIR, None)
      | _ => (Return tt, Some (File content))
      end
  | Dangling => (Throw ENOENT, None)
  end.

(** The entries after a round that made [r] of the entry called [x]. *)
Definition upd (x : string) (r : option node) (ents : list (string * node)) :=
  match r with
  | Some v => set_child x v ents
  | None => ents
  end.

(** The loop over the source entries [l], threading the target entries. *)
Fixpoint graft_loop (sub : node -> node -> outcome unit * node)
    (l ents : list (string * node)) : outcome unit * list (string * node) :=
  match l with
  | [] => (Return tt, ents)
  | e :: l' =>
      match graft_entry sub (snd e) (assoc (fst e) ents) with
      | (Return _, r) => graft_loop sub l' (upd (fst e) r ents)
      | (o, r) => (o, upd (fst e) r ents)
      end
  end.

(** The error of the first round when the target is not a directory:
    [fs.mkdir] or [fs.copyFile] below a file or a dangling link. *)
Definition graft_blocked (c t : node) : errno :=
  match c, t with
  | Dir _ _, _ => ENOTDIR
  | File _, File _ => ENOTDIR
  | File _, _ => ENOENT
  | Dangling, _ => ENOENT
  end.

(** [graft fuel m t]: the outcome of [copyDirectory] and what it makes of
    the target node [t] when the source node is [m]. *)
Fixpoint graft (fuel : nat) (m t : node) : outcome unit * node :=
  match fuel with
  | O => (Fuel, t)
  | S f =>
      match m with
      | Dir true es =>
          match t with
          | Dir rt ents =>
              let '(o, ents') := graft_loop (graft f) es ents in (o, Dir rt ents')
          | _ =>
              match es with
              | [] => (Return tt, t)
              | e :: _ => (Throw (graft_blocked (snd e) t), t)
              end
          end
      | Dir false _ => (Throw EACCES, t)
      | File _ => (Throw ENOTDIR, t)
      | Dangling => (Throw ENOENT, t)
      end
  end.

End Graft.

(* ================================================================== *)
(** ** Sample file systems *)
(* ================================================================== *)

Module Samples.
Import Fs.

Open Scope string_scope.
Open Scope list_scope.

Definition bytes (n : nat) : list Byte.byte := repeat Byte.x00 n.

(** A directory holding a 10-byte file, a subdirectory that cannot be
    listed (with 5 bytes inside), and a 7-byte file. *)
Definition partly_unreadable : fs :=
  Dir true [("a.bin", File (bytes 10));
            ("locked", Dir false [("x.bin", File (bytes 5))]);
            ("b.bin", File (bytes 7))].

(** A directory holding a 10-byte file, a dangling link, and a 7-byte
    file. *)
Definition with_dangling_link : fs :=
  Dir true [("a.bin", File (bytes 10)); ("gone", Dangling); ("b.bin", File (bytes 7))].

(** The scenario of the specification: [P/a.txt] of 10 bytes and
    [P/sub/b.txt] of 20 bytes, next to a stale [Q]. *)
Definition base_entries : list (string * node) :=
  [("a.txt", File (bytes 10)); ("sub", Dir true [("b.txt", File (bytes 20))])].

Definition base_and_stale : fs :=
  Dir true [("P", Dir true base_entries);
            ("Q", Dir true [("stale", File (bytes 3))])].

(** The same base [P] next to a [Q] whose stale content sits in a
    directory that cannot be listed. *)
Definition base_and_locked_stale : fs :=
  Dir true [("P", Dir true base_entries);
            ("Q", Dir true [("cache", Dir false [("stale", File (bytes 3))])])].

(** A [Q] whose only entry [locked] cannot be listed, with a tree
    [Q/locked/in] inside that itself has a branch [locked/in]. *)
Definition source_inside_locked_target : fs :=
  Dir true
    [("Q", Dir true
       [("locked", Dir false
          [("in", Dir true
             [("locked", Dir true
                [("in", Dir true [("f", File (bytes 1))])])])])])].

(** [P/locked/y] of 5 bytes in a listable directory, and a [Q] that has an
    unlistable directory of the same name [locked] holding a file [x]. *)
Definition both_have_locked : fs :=
  Dir true [("P", Dir true [("locked", Dir true [("y", File (bytes 5))])]);
            ("Q", Dir true [("locked", Dir false [("x", File (bytes 1))])])].

End Samples.

(* ================================================================== *)
(** ** The two entry scripts, [init] and [copy-and-run] *)
(* ================================================================== *)

Module Scripts.
Import Fs Manager Lifecycle.

Open Scope string_scope.
Open Scope list_scope.

(** How a script ends: the process exits with a code, or the recursion
    bound of the embedding was too small. The world is the one at the moment
    of exit. The [disk] component of a world records the file operations of
    the manager only; what a running browser writes into its profile
    directory is not part of it. *)
Inductive ending :=
| Exited (code : Z) (w : world)
| Bound.

(** [resolve('./contexts/base-context')] and
    [resolve(`./contexts/session-${SESSION_ID}`)] under the working
    directory [cwd]. *)
Definition BASE_CONTEXT_PATH (cwd : path) : path := cwd ++ ["contexts"; "base-context"].

Definition TARGET_CONTEXT_PATH (cwd : path) (SESSION_ID : string) : path :=
  cwd ++ ["contexts"; String.append "session-" SESSION_ID].

Definition TARGET_URL : string := "https://sql.js.org/examples/GUI/".

(** [args.includes('--help') || args.includes('-h')]. *)
Definition wants_help (args : list string) : bool :=
  existsb (String.eqb "--help") args || existsb (String.eqb "-h") args.

(** [main] of the [init] script. [process.exit(1)] in the [catch] ends the
    process at once, so the [finally] with [cleanup] runs only when the
    [try] block completes. *)
Definition init_main (run : page_run) (fuel : nat) (cwd : path) (s : fs) : ending :=
  let w := start s in
  (* try *)
  let w := initialize w in
  match createBaseContext run (BASE_CONTEXT_PATH cwd) TARGET_URL w with
  | (Threw _, w) => (* catch *) Exited 1 w
  | (Returned, w) =>
      match getContextSize fuel (disk w) (BASE_CONTEXT_PATH cwd) with
      | Return _ => (* finally *) Exited 0 (cleanup w)
      | Throw _ => (* catch *) Exited 1 w
      | Fuel => Bound
      end
  end.

(** The [init] script with its handling of the arguments. *)
Definition init_script (args : list string) (run : page_run) (fuel : nat) (cwd : path)
    (s : fs) : ending :=
  if wants_help args then Exited 0 (start s) else init_main run fuel cwd s.

(** How the calls on the page made by [copy-and-run] itself turn out:
    the two [waitForTimeout] calls. The block of [title], [evaluate] and
    [screenshot] between them sits in a [try] whose [catch] only logs, so
    it does not bear on how the script goes on. *)
Record session_run := {
  first_wait_ok : bool;
  second_wait_ok : bool
}.

(** [main] of the [copy-and-run] script. *)
Definition copy_and_run_main (run : page_run) (srun : session_run) (fuel : nat)
    (cwd : path) (SESSION_ID : string) (s : fs) : ending :=
  let base := BASE_CONTEXT_PATH cwd in
  let target := TARGET_CONTEXT_PATH cwd SESSION_ID in
  let w := start s in
  (* try *)
  let w := initialize w in
  match getContextSize fuel (disk w) base with
  | Fuel => Bound
  | Throw _ => Exited 1 w
  | Return baseContextSize =>
      if Z.eqb baseContextSize 0 then Exited 1 w
      else
        match copyContext fuel base target (disk w) with
        | (Fuel, _) => Bound
        | (Throw _, s') => Exited 1 {| this := this w; drv := drv w; disk := s' |}
        | (Return _, s') =>
            let w := {| this := this w; drv := drv w; disk := s' |} in
            match getContextSize fuel (disk w) target with
            | Fuel => Bound
            | Throw _ => Exited 1 w
            | Return _ =>
                match useExistingContext run target (Some TARGET_URL) w with
                | ((Threw _, _), w) => Exited 1 w
                | ((Returned, None), w) => Exited 1 w
                | ((Returned, Some context), w) =>
                    let w := {| this := this w;
                                drv := log (WaitForTimeout context) (drv w);
                                disk := disk w |} in
                    if negb (first_wait_ok srun) then Exited 1 w else
                    (* try { title; evaluate; screenshot } catch { log } *)
                    let w := {| this := this w;
                                drv := log (WaitForTimeout context) (drv w);
                                disk := disk w |} in
                    if negb (second_wait_ok srun) then Exited 1 w else
                    let w := {| this := this w;
                                drv := context_close context (drv w);
                                disk := disk w |} in
                    (* finally *)
                    Exited 0 (cleanup w)
                end
            end
        end
  end.

Definition copy_and_run_script (args : list string) (run : page_run) (srun : session_run)
    (fuel : nat) (cwd : path) (SESSION_ID : string) (s : fs) : ending :=
  if wants_help args then Exited 0 (start s)
  else copy_and_run_main run srun fuel cwd SESSION_ID s.

(** The browsers the manager can still close: the one in [this.browser]. *)
Definition owned (w : world) : list handle :=
  match browser (this w) with
  | Some b => [b]
  | None => []
  end.

(** Nothing runs that the manager lost track of: the open browsers are
    exactly the one it refers to, and the handles of what is open were all
    given out already. *)
Definition tidy (w : world) : Prop :=
  open_browsers (drv w) = owned w /\
  Forall (fun b => (b < next (drv w))%nat) (open_browsers (drv w)) /\
  Forall (fun c => (c < next (drv w))%nat) (open_contexts (drv w)).

End Scripts.

(* ================================================================== *)
(** ** Vocabulary for statements about the text [formatBytes] prints *)
(* ================================================================== *)

Module Rendering.
Import Format.

Open Scope string_scope.
Open Scope Z_scope.

(** The number [num / den] in hundredths, rounded to the nearest, halves
    upwards. *)
Definition rounded_hundredths (num den : Z) : Z := (200 * num + den) / (2 * den).

(** The fraction digits of [f] hundredths, [0 <= f < 100], with trailing
    zeros left out and nothing at all for a whole number. *)
Definition fraction_text (f : Z) : string :=
  if f =? 0 then ""
  else if f mod 10 =? 0 then "." ++ digits (f / 10)
  else "." ++ two_digits f.

(** [n] hundredths as the shortest decimal numeral. *)
Definition shortest_hundredths (n : Z) : string :=
  digits (n / 100) ++ fraction_text (n mod 100).

(** The text does not go on with a decimal digit. *)
Definition no_digit_ahead (s : string) : Prop :=
  match s with
  | EmptyString => True
  | String c _ => is_digit c = false
  end.

End Rendering.

(* ================================================================== *)
(** * Properties *)
(* ================================================================== *)

(** ** formatBytes *)

Module FormatFacts.
Import Format.
Open Scope string_scope.
Open Scope Z_scope.

(** [floor_log_k] is the floor of the base-1024 logarithm. *)
Lemma floor_log_k_spec (bytes : Z) :
  0 < bytes -> k ^ floor_log_k bytes <= bytes < k ^ (floor_log_k bytes + 1).
Proof.
  intros Hpos. unfold floor_log_k, k.
  pose proof (Z.log2_nonneg bytes) as Hl.
  destruct (Z.log2_spec bytes Hpos) as [Hlo Hhi].
  set (l := Z.log2 bytes) in *.
  pose proof (Z.div_mod l 10 ltac:(lia)) as Hdm.
  pose proof (Z.mod_pos_bound l 10 ltac:(lia)) as Hm.
  assert (Hq : 0 <= l / 10) by (apply Z.div_pos; lia).
  replace 1024 with (2 ^ 10) by reflexivity.
  rewrite <- !Z.pow_mul_r by lia.
  split.
  - eapply Z.le_trans; [| exact Hlo].
    apply Z.pow_le_mono_r; lia.
  - eapply Z.lt_le_trans; [exact Hhi |].
    apply Z.pow_le_mono_r; lia.
Qed.

Lemma floor_log_k_nonneg (bytes : Z) : 0 <= floor_log_k bytes.
Proof.
  unfold floor_log_k. apply Z.div_pos; [apply Z.log2_nonneg | lia].
Qed.

(** The unit index stays inside [sizes] exactly below [1024^4]. *)
Lemma floor_log_k_lt_4 (bytes : Z) :
  0 < bytes -> (floor_log_k bytes < 4 <-> bytes < k ^ 4).
Proof.
  intros Hpos. unfold floor_log_k, k.
  replace (1024 ^ 4) with (2 ^ 40) by reflexivity.
  pose proof (Z.log2_lt_pow2 bytes 40 Hpos) as H1.
  pose proof (Z.div_mod (Z.log2 bytes) 10 ltac:(lia)) as Hdm.
  pose proof (Z.mod_pos_bound (Z.log2 bytes) 10 ltac:(lia)) as Hm.
  split; intros H.
  - apply H1. lia.
  - apply H1 in H. lia.
Qed.

Lemma sizes_at_in_range (i : Z) :
  0 <= i < 4 -> exists u, nth_error sizes (Z.to_nat i) = Some u /\ sizes_at i = u.
Proof.
  intros Hi. unfold sizes_at.
  destruct (i <? 0) eqn:E; [apply Z.ltb_lt in E; lia |].
  assert (Hc : i = 0 \/ i = 1 \/ i = 2 \/ i = 3) by lia.
  destruct Hc as [-> | [-> | [-> | ->]]]; simpl; eauto.
Qed.

Lemma sizes_at_out_of_range (i : Z) :
  4 <= i -> nth_error sizes (Z.to_nat i) = None /\ sizes_at i = "undefined".
Proof.
  intros Hi. unfold sizes_at.
  destruct (i <? 0) eqn:E; [apply Z.ltb_lt in E; lia |].
  assert (Hn : nth_error sizes (Z.to_nat i) = None).
  { apply nth_error_None. simpl. lia. }
  rewrite Hn. auto.
Qed.

Lemma formatBytes_with_pos (index : Z -> Z) (bytes : Z) :
  0 < bytes ->
  formatBytes_with index bytes =
    number_to_string (parseFloat (toFixed2 (Frac bytes (k ^ index bytes))))
      ++ " " ++ sizes_at (index bytes).
Proof.
  intros Hpos. unfold formatBytes_with.
  destruct (bytes =? 0) eqn:E0; [apply Z.eqb_eq in E0; lia |].
  destruct (bytes <? 0) eqn:E1; [apply Z.ltb_lt in E1; lia |].
  reflexivity.
Qed.

Lemma formatBytes_pos (bytes : Z) :
  0 < bytes ->
  formatBytes bytes =
    number_to_string (parseFloat (toFixed2 (Frac bytes (k ^ floor_log_k bytes))))
      ++ " " ++ sizes_at (floor_log_k bytes).
Proof. apply formatBytes_with_pos. Qed.

Lemma floor_log_k_mono (a b : Z) : 0 < a <= b -> floor_log_k a <= floor_log_k b.
Proof.
  intros H. unfold floor_log_k.
  apply Z.div_le_mono; [lia |]. apply Z.log2_le_mono. lia.
Qed.

(** [index_rounding_up_below_pow5] grows with the count, is 4 at [1024^4]
    and is exact below it. *)
Lemma index_rounding_up_below_pow5_mono (a b : Z) :
  0 < a <= b -> index_rounding_up_below_pow5 a <= index_rounding_up_below_pow5 b.
Proof.
  intros H. unfold index_rounding_up_below_pow5.
  assert (H4 : floor_log_k (2 ^ 50 - 4) = 4) by reflexivity.
  assert (H5 : floor_log_k (2 ^ 50) = 5) by reflexivity.
  destruct ((2 ^ 50 - 3 <=? a) && (a <? 2 ^ 50)) eqn:Ea;
    destruct ((2 ^ 50 - 3 <=? b) && (b <? 2 ^ 50)) eqn:Eb.
  - lia.
  - apply andb_true_iff in Ea as [Ea1 Ea2].
    apply Z.leb_le in Ea1. apply Z.ltb_lt in Ea2.
    apply andb_false_iff in Eb as [Eb | Eb];
      [apply Z.leb_gt in Eb; lia | apply Z.ltb_ge in Eb].
    rewrite <- H5. apply floor_log_k_mono. lia.
  - apply andb_true_iff in Eb as [Eb1 Eb2].
    apply Z.leb_le in Eb1. apply Z.ltb_lt in Eb2.
    apply andb_false_iff in Ea as [Ea | Ea];
      [apply Z.leb_gt in Ea | apply Z.ltb_ge in Ea; lia].
    apply Z.le_trans with (m := floor_log_k (2 ^ 50 - 4)); [| lia].
    apply floor_log_k_mono. lia.
  - apply floor_log_k_mono. exact H.
Qed.

Lemma index_rounding_up_below_pow5_exact (b : Z) :
  0 < b < k ^ 4 -> index_rounding_up_below_pow5 b = floor_log_k b.
Proof.
  intros [_ H]. unfold index_rounding_up_below_pow5.
  replace (k ^ 4) with (2 ^ 40) in H by reflexivity.
  assert (Hlt : 2 ^ 40 < 2 ^ 50 - 3) by reflexivity.
  destruct (2 ^ 50 - 3 <=? b) eqn:E; [apply Z.leb_le in E; lia | reflexivity].
Qed.

(** C4, as stated, fails: the claim renders the scaled value with two decimal
    places ("1.00 KB"), whereas line 195 passes the [toFixed(2)] text through
    [parseFloat], so the number is printed without trailing zeros. *)
Lemma formatBytes_two_decimals_refuted :
  formatBytes 1024 <> "1.00 KB" /\
  formatBytes 1536 <> "1.50 KB" /\
  formatBytes 1073741824 <> "1.00 GB".
Proof.
  repeat split; vm_compute; discriminate.
Qed.

(** C4, amended: [formatBytes 0] is "0 Bytes"; for a positive count below
    [1024^4] the unit is [sizes[i]] for the unique [i] with
    [1024^i <= bytes < 1024^(i+1)] (the largest unit whose scaled value is at
    least 1), and the number is the scaled value rounded to two decimals and
    then printed without trailing zeros; so 1024, 1536 and 2^30 give "1 KB",
    "1.5 KB" and "1 GB". *)
Theorem formatBytes_unit_and_value (bytes : Z) :
  0 < bytes < k ^ 4 ->
  (exists i u,
      0 <= i /\ k ^ i <= bytes < k ^ (i + 1) /\
      nth_error sizes (Z.to_nat i) = Some u /\
      formatBytes bytes =
        number_to_string (parseFloat (toFixed2 (Frac bytes (k ^ i)))) ++ " " ++ u) /\
  formatBytes 0 = "0 Bytes" /\
  formatBytes 1024 = "1 KB" /\
  formatBytes 1536 = "1.5 KB" /\
  formatBytes 1073741824 = "1 GB".
Proof.
  intros [Hpos Hlt]. split; [| repeat split; reflexivity].
  pose proof (floor_log_k_nonneg bytes) as Hnn.
  assert (Hi : floor_log_k bytes < 4) by (apply floor_log_k_lt_4; assumption).
  destruct (sizes_at_in_range (floor_log_k bytes) ltac:(lia)) as [u [Hu Hs]].
  exists (floor_log_k bytes), u.
  split; [assumption |]. split; [apply floor_log_k_spec; assumption |].
  split; [assumption |].
  rewrite formatBytes_pos by assumption. rewrite Hs. reflexivity.
Qed.

Lemma formatBytes_unit_and_value_witness :
  0 < 1536 < k ^ 4 /\
  exists i u,
    0 <= i /\ k ^ i <= 1536 < k ^ (i + 1) /\
    nth_error sizes (Z.to_nat i) = Some u /\
    formatBytes 1536 =
      number_to_string (parseFloat (toFixed2 (Frac 1536 (k ^ i)))) ++ " " ++ u.
Proof.
  assert (H : 0 < 1536 < k ^ 4) by (vm_compute; split; reflexivity).
  split; [exact H |].
  exact (proj1 (formatBytes_unit_and_value 1536 H)).
Defined.



End FormatFacts.

(** ** Trees and paths *)

Module TreeFacts.
Import Fs Tree.
Open Scope list_scope.
Open Scope nat_scope.

Lemma depth_Dir r es : depth (Dir r es) = S (depth_entries es).
Proof. reflexivity. Qed.

Lemma regular_Dir r es :
  regular (Dir r es) = r && distinct_names es && regular_entries es.
Proof. reflexivity. Qed.

Lemma wf_Dir r es : wf (Dir r es) = distinct_names es && wf_entries es.
Proof. reflexivity. Qed.

Lemma measure_Dir es : measure (Dir true es) = measure_entries es 0%Z.
Proof. reflexivity. Qed.

Lemma depth_entries_in e es : In e es -> depth (snd e) <= depth_entries es.
Proof.
  induction es as [| e' es IH]; simpl; [tauto |].
  intros [-> | H]; [lia | specialize (IH H); lia].
Qed.

Lemma regular_wf n : regular n = true -> wf n = true.
Proof.
  revert n.
  fix IH 1. intros [c | r es |]; [reflexivity | | discriminate].
  rewrite regular_Dir, wf_Dir.
  intros H. apply andb_true_iff in H as [H Hr]. apply andb_true_iff in H as [_ Hd].
  rewrite Hd. simpl. clear Hd.
  induction es as [| e es IHes]; [reflexivity |].
  simpl in *. apply andb_true_iff in Hr as [H1 H2].
  rewrite (IH _ H1). simpl. apply IHes. exact H2.
Qed.

Lemma fresh_in_assoc x es : fresh_in x es = true -> assoc x es = None.
Proof.
  induction es as [| [y n] es IH]; simpl; [reflexivity |].
  intros H. apply andb_true_iff in H as [H1 H2].
  destruct (String.eqb x y); [discriminate |]. auto.
Qed.

Lemma assoc_in_distinct e es :
  distinct_names es = true -> In e es -> assoc (fst e) es = Some (snd e).
Proof.
  induction es as [| [y n] es IH]; simpl; [tauto |].
  intros H. apply andb_true_iff in H as [H1 H2].
  intros [<- | Hin].
  - simpl. rewrite String.eqb_refl. reflexivity.
  - destruct (String.eqb (fst e) y) eqn:E.
    + apply String.eqb_eq in E. subst y.
      apply fresh_in_assoc in H1. rewrite (IH H2 Hin) in H1. discriminate.
    + auto.
Qed.

Lemma walk_app s p q :
  walk s (p ++ q) = match walk s p with Ok n => walk n q | Err e => Err e end.
Proof.
  revert s. induction p as [| x p IH]; intros s; simpl; [reflexivity |].
  destruct s as [c | r es |]; try reflexivity.
  destruct (assoc x es); [apply IH | reflexivity].
Qed.

Lemma walk_join s p x r es :
  walk s p = Ok (Dir r es) ->
  walk s (join p x) = match assoc x es with Some c => Ok c | None => Err ENOENT end.
Proof.
  intros H. unfold join. rewrite walk_app, H. simpl.
  destruct (assoc x es); reflexivity.
Qed.

Lemma assoc_some_in x c es : assoc x es = Some c -> In (x, c) es.
Proof.
  induction es as [| [y n] es IH]; simpl; [discriminate |].
  destruct (String.eqb x y) eqn:E.
  - apply String.eqb_eq in E. subst y. intros [= ->]. left. reflexivity.
  - intros H. right. auto.
Qed.

Lemma assoc_of_in e es : In e es -> exists c, assoc (fst e) es = Some c.
Proof.
  induction es as [| [y n] es IH]; simpl; [tauto |].
  intros [<- | Hin].
  - simpl. rewrite String.eqb_refl. eauto.
  - destruct (String.eqb (fst e) y); eauto.
Qed.

Lemma depth_assoc x c r es : assoc x es = Some c -> depth c < depth (Dir r es).
Proof.
  intros H. apply assoc_some_in in H. apply depth_entries_in in H.
  rewrite depth_Dir. simpl in H. lia.
Qed.

Lemma depth_walk : forall p s n, walk s p = Ok n -> depth n <= depth s.
Proof.
  induction p as [| x p IH]; intros s n; simpl.
  - intros [= ->]. lia.
  - destruct s as [c | r es |]; try discriminate.
    destruct (assoc x es) as [c |] eqn:E; [| discriminate].
    intros H. apply IH in H. pose proof (depth_assoc _ _ r _ E). lia.
Qed.

Lemma wf_assoc x c r es : wf (Dir r es) = true -> assoc x es = Some c -> wf c = true.
Proof.
  rewrite wf_Dir. intros H Ha. apply andb_true_iff in H as [_ H].
  unfold wf_entries in H. rewrite forallb_forall in H.
  apply (H (x, c)). apply assoc_some_in. exact Ha.
Qed.

Lemma wf_walk : forall p s n, wf s = true -> walk s p = Ok n -> wf n = true.
Proof.
  induction p as [| x p IH]; intros s n Hwf; simpl.
  - intros [= <-]. exact Hwf.
  - destruct s as [c | r es |]; try discriminate.
    destruct (assoc x es) as [c |] eqn:E; [| discriminate].
    apply IH. eapply wf_assoc; eassumption.
Qed.

Lemma all_listable_Dir r es :
  all_listable (Dir r es) = r && all_listable_entries es.
Proof. reflexivity. Qed.

Lemma prune_Dir es :
  prune (Dir true es) =
    match prune_entries es with
    | [] => None
    | kept => Some (Dir true kept)
    end.
Proof. reflexivity. Qed.

(** A tree in which every directory can be listed is removed entirely. *)
Lemma all_listable_removable n : all_listable n = true -> removable n = true.
Proof.
  unfold removable. revert n.
  fix IH 1. intros [c | r es |]; [reflexivity | | reflexivity].
  rewrite all_listable_Dir. intros H. apply andb_true_iff in H as [-> Hes].
  rewrite prune_Dir.
  assert (Hnone : prune_entries es = []).
  { induction es as [| e es IHes]; [reflexivity |].
    simpl in *. apply andb_true_iff in Hes as [H1 H2].
    specialize (IH _ H1). destruct (prune (snd e)); [discriminate |].
    apply IHes. exact H2. }
  rewrite Hnone. reflexivity.
Qed.

Lemma regular_all_listable n : regular n = true -> all_listable n = true.
Proof.
  revert n.
  fix IH 1. intros [c | r es |]; [reflexivity | | discriminate].
  rewrite regular_Dir, all_listable_Dir.
  intros H. apply andb_true_iff in H as [H Hr]. apply andb_true_iff in H as [-> _].
  simpl. induction es as [| e es IHes]; [reflexivity |].
  simpl in *. apply andb_true_iff in Hr as [H1 H2].
  rewrite (IH _ H1). simpl. apply IHes. exact H2.
Qed.

Lemma all_listable_assoc x c r es :
  all_listable (Dir r es) = true -> assoc x es = Some c -> all_listable c = true.
Proof.
  rewrite all_listable_Dir. intros H Ha. apply andb_true_iff in H as [_ H].
  unfold all_listable_entries in H. rewrite forallb_forall in H.
  apply (H (x, c)). apply assoc_some_in. exact Ha.
Qed.

Lemma all_listable_walk : forall p s n,
  all_listable s = true -> walk s p = Ok n -> all_listable n = true.
Proof.
  induction p as [| x p IH]; intros s n Hl; simpl.
  - intros [= <-]. exact Hl.
  - destruct s as [c | r es |]; try discriminate.
    destruct (assoc x es) as [c |] eqn:E; [| discriminate].
    apply IH. eapply all_listable_assoc; eassumption.
Qed.

Lemma fresh_in_in x e l : fresh_in x l = true -> In e l -> String.eqb x (fst e) = false.
Proof.
  induction l as [| d l IH]; simpl; [tauto |].
  intros H. apply andb_true_iff in H as [H1 H2].
  intros [<- | Hin]; [| auto].
  destruct (String.eqb x (fst d)); [discriminate | reflexivity].
Qed.

End TreeFacts.

(** ** getDirectorySize and getContextSize *)

Module SizeFacts.
Import Fs Tree Manager TreeFacts.
Open Scope list_scope.
Open Scope Z_scope.

Lemma readdir_Dir s p es :
  walk s p = Ok (Dir true es) -> readdir s p = Ok (map to_dirent es).
Proof. intros H. unfold readdir. rewrite H. reflexivity. Qed.

Lemma measure_entries_nonneg es :
  forall size, (0 <= size)%Z ->
  (forall e, In e es -> (0 <= measure (snd e))%Z) ->
  (0 <= measure_entries es size)%Z.
Proof.
  induction es as [| e es IH]; intros size Hs Hm; simpl; [exact Hs |].
  destruct (snd e) eqn:E.
  - apply IH; [lia | intros; apply Hm; right; assumption].
  - apply IH; [| intros; apply Hm; right; assumption].
    specialize (Hm e (or_introl eq_refl)). rewrite E in Hm. lia.
  - exact Hs.
Qed.

Lemma measure_nonneg n : (0 <= measure n)%Z.
Proof.
  revert n. fix IH 1. intros [c | [|] es |]; simpl; try lia.
  change (0 <= measure (Dir true es))%Z. rewrite measure_Dir.
  apply measure_entries_nonneg; [lia |].
  induction es as [| e es IHes]; simpl; [tauto |].
  intros e' [<- | Hin]; [apply IH | apply IHes; exact Hin].
Qed.

(** The loop of [getDirectorySize] over entries that resolve to the nodes
    listed, once subdirectories are known to be measured correctly. *)
Lemma size_loop_measure (sub : path -> outcome Z) s p :
  forall l size,
    (forall e, In e l -> walk s (join p (fst e)) = Ok (snd e)) ->
    (forall e, In e l -> sub (join p (fst e)) = Return (measure (snd e))) ->
    size_loop sub s p (map to_dirent l) size = Return (measure_entries l size).
Proof.
  induction l as [| e l IH]; intros size Hw Hs; simpl; [reflexivity |].
  pose proof (Hw e (or_introl eq_refl)) as Hwe.
  pose proof (Hs e (or_introl eq_refl)) as Hse.
  assert (Hw' : forall e', In e' l -> walk s (join p (fst e')) = Ok (snd e'))
    by (intros; apply Hw; right; assumption).
  assert (Hs' : forall e', In e' l -> sub (join p (fst e')) = Return (measure (snd e')))
    by (intros; apply Hs; right; assumption).
  unfold stat_size. rewrite Hwe.
  destruct (snd e) as [c | r es |] eqn:E.
  - apply IH; assumption.
  - rewrite Hse. apply IH; assumption.
  - reflexivity.
Qed.

(** With fuel above the depth of what [p] resolves to, [getDirectorySize]
    returns the measure of that node. *)
Lemma getDirectorySize_measure :
  forall fuel s p n,
    walk s p = Ok n -> wf n = true -> (depth n < fuel)%nat ->
    getDirectorySize fuel s p = Return (measure n).
Proof.
  induction fuel as [| fuel IH]; intros s p n Hw Hwf Hd; [lia |].
  simpl. unfold readdir. rewrite Hw.
  destruct n as [c | [|] es |]; try reflexivity.
  change (size_loop (getDirectorySize fuel s) s p (map to_dirent es) 0
          = Return (measure (Dir true es))).
  rewrite measure_Dir.
  rewrite wf_Dir in Hwf. apply andb_true_iff in Hwf as [Hdn Hwe].
  rewrite depth_Dir in Hd.
  assert (Hres : forall e, In e es -> walk s (join p (fst e)) = Ok (snd e)).
  { intros e Hin. rewrite (walk_join _ _ _ _ _ Hw).
    rewrite (assoc_in_distinct _ _ Hdn Hin). reflexivity. }
  apply size_loop_measure; [exact Hres |].
  intros e Hin. apply IH.
  - apply Hres. exact Hin.
  - unfold wf_entries in Hwe. rewrite forallb_forall in Hwe. apply Hwe. exact Hin.
  - pose proof (depth_entries_in _ _ Hin). lia.
Qed.

Lemma getDirectorySize_missing fuel s p e :
  walk s p = Err e -> getDirectorySize (S fuel) s p = Return 0.
Proof. intros H. simpl. unfold readdir. rewrite H. reflexivity. Qed.

(** [getDirectorySize] never throws: every error is caught at line 183. *)
Lemma size_loop_no_throw (sub : path -> outcome Z) s p :
  (forall q e, sub q <> Throw e) ->
  forall l size e, size_loop sub s p l size <> Throw e.
Proof.
  intros Hsub. induction l as [| d l IH]; intros size e; simpl; [discriminate |].
  destruct (isDirectory d).
  - destruct (sub (join p (name d))) eqn:E; try discriminate. apply IH.
  - destruct (stat_size s (join p (name d))); [apply IH | discriminate].
Qed.

Lemma getDirectorySize_no_throw fuel s :
  forall p e, getDirectorySize fuel s p <> Throw e.
Proof.
  induction fuel as [| fuel IH]; intros p e; simpl; [discriminate |].
  destruct (readdir s p); [| discriminate].
  apply size_loop_no_throw. exact IH.
Qed.

Lemma stat_size_nonneg s p v : stat_size s p = Ok v -> 0 <= v.
Proof.
  unfold stat_size. destruct (walk s p) as [[c | r es |] | e]; intros [= <-]; lia.
Qed.

Lemma size_loop_total (sub : path -> outcome Z) s p :
  forall l size,
    (forall d, In d l -> exists v, sub (join p (name d)) = Return v /\ 0 <= v) ->
    0 <= size ->
    exists v, size_loop sub s p l size = Return v /\ 0 <= v.
Proof.
  induction l as [| d l IH]; intros size Hsub Hs; simpl; [eauto |].
  assert (Hsub' : forall d', In d' l ->
            exists v, sub (join p (name d')) = Return v /\ 0 <= v)
    by (intros; apply Hsub; right; assumption).
  destruct (isDirectory d).
  - destruct (Hsub d (or_introl eq_refl)) as [v [-> Hv]]. apply IH; [assumption | lia].
  - destruct (stat_size s (join p (name d))) as [v | e] eqn:E; [| eauto].
    apply stat_size_nonneg in E. apply IH; [assumption | lia].
Qed.

(** Termination with a non-negative result, for any file system at all. *)
Lemma getDirectorySize_total :
  forall fuel s p,
    (match walk s p with Ok n => depth n | Err _ => O end < fuel)%nat ->
    exists v, getDirectorySize fuel s p = Return v /\ 0 <= v.
Proof.
  induction fuel as [| fuel IH]; intros s p Hd; [lia |].
  simpl. unfold readdir.
  destruct (walk s p) as [[c | [|] es |] | e] eqn:Hw; try (exists 0; split; [reflexivity | lia]).
  apply size_loop_total; [| lia].
  intros d Hin. apply in_map_iff in Hin as [e [<- Hin]]. simpl.
  apply IH. rewrite (walk_join _ _ _ _ _ Hw).
  destruct (assoc_of_in _ _ Hin) as [c Hc]. rewrite Hc.
  pose proof (depth_assoc _ _ true _ Hc). lia.
Qed.

Lemma getContextSize_eq fuel s p :
  getContextSize fuel s p = getDirectorySize fuel s p.
Proof.
  unfold getContextSize.
  destruct (getDirectorySize fuel s p) eqn:E; try reflexivity.
  exfalso. exact (getDirectorySize_no_throw _ _ _ _ E).
Qed.

(** C5, as stated, fails: a traversal error (here a subdirectory that cannot
    be listed, or a dangling link whose [stat] fails) does not make the
    result 0; the sizes counted so far are returned (line 184: "Ignore
    errors and return current size"). *)
Lemma getContextSize_error_not_zero :
  (readdir Samples.partly_unreadable ["locked"%string] = Err EACCES /\
   getContextSize 3 Samples.partly_unreadable [] = Return 17 /\
   getContextSize 3 Samples.partly_unreadable [] <> Return 0) /\
  (stat_size Samples.with_dangling_link ["gone"%string] = Err ENOENT /\
   getContextSize 3 Samples.with_dangling_link [] = Return 10 /\
   getContextSize 3 Samples.with_dangling_link [] <> Return 0).
Proof.
  repeat split; try reflexivity; vm_compute; discriminate.
Qed.

(** C5, amended: [getContextSize] returns 0, without raising, when the path
    does not exist or cannot be listed as a directory, and it never
    propagates an error. *)
Theorem getContextSize_zero_when_unlistable (fuel : nat) (s : fs) (p : path) :
  (forall e, walk s p = Err e -> getContextSize (S fuel) s p = Return 0) /\
  (forall e, readdir s p = Err e -> getContextSize (S fuel) s p = Return 0) /\
  (forall e, getContextSize (S fuel) s p <> Throw e).
Proof.
  repeat split.
  - intros e H. rewrite getContextSize_eq. eapply getDirectorySize_missing. exact H.
  - intros e H. rewrite getContextSize_eq. simpl. rewrite H. reflexivity.
  - intros e. rewrite getContextSize_eq. apply getDirectorySize_no_throw.
Qed.

Lemma getContextSize_zero_when_unlistable_witness :
  walk Samples.base_and_stale ["missing"%string] = Err ENOENT /\
  getContextSize 1 Samples.base_and_stale ["missing"%string] = Return 0.
Proof.
  assert (H : walk Samples.base_and_stale ["missing"%string] = Err ENOENT) by reflexivity.
  split; [exact H |].
  exact (proj1 (getContextSize_zero_when_unlistable 0 _ _) _ H).
Defined.

(** C8: for every file system and path, [getContextSize] returns (given
    fuel above the depth of the tree) a non-negative integer and never
    throws; on a well-formed tree that integer is [measure] of the node at
    the path, the sum that leaves out what lies in or after a failing point;
    in [partly_unreadable] it is 17 = 10 + 7, not 0 and not the full 22. *)
Theorem getContextSize_total_nonneg (s : fs) (p : path) (fuel : nat) :
  (depth s < fuel)%nat ->
  (exists v, getContextSize fuel s p = Return v /\ 0 <= v /\
     (wf s = true -> forall n, walk s p = Ok n -> v = measure n)) /\
  (forall e, getContextSize fuel s p <> Throw e) /\
  (readdir Samples.partly_unreadable ["locked"%string] = Err EACCES /\
   getContextSize 3 Samples.partly_unreadable [] = Return 17 /\
   total_bytes Samples.partly_unreadable = 22).
Proof.
  intros Hd. split; [| split].
  - destruct (getDirectorySize_total fuel s p) as [v [Hv Hnn]].
    { destruct (walk s p) as [n | e] eqn:Hw; [| lia].
      pose proof (depth_walk _ _ _ Hw). lia. }
    exists v. rewrite getContextSize_eq. repeat split; try assumption.
    intros Hwf n Hw.
    assert (Hm : getDirectorySize fuel s p = Return (measure n)).
    { apply getDirectorySize_measure; [exact Hw | eapply wf_walk; eassumption |].
      pose proof (depth_walk _ _ _ Hw). lia. }
    rewrite Hm in Hv. injection Hv as Hv. symmetry. exact Hv.
  - intros e. rewrite getContextSize_eq. apply getDirectorySize_no_throw.
  - repeat split; reflexivity.
Qed.

Lemma getContextSize_total_nonneg_witness :
  (depth Samples.with_dangling_link < 2)%nat /\
  exists v, getContextSize 2 Samples.with_dangling_link [] = Return v /\ 0 <= v.
Proof.
  assert (H : (depth Samples.with_dangling_link < 2)%nat) by (vm_compute; lia).
  split; [exact H |].
  destruct (proj1 (getContextSize_total_nonneg Samples.with_dangling_link [] 2 H))
    as [v [Hv [Hnn _]]].
  exists v. split; assumption.
Defined.

End SizeFacts.

(** ** initialize, cleanup and createBaseContext *)

Module LifecycleFacts.
Import Fs Manager Lifecycle.
Open Scope list_scope.
Open Scope nat_scope.

Lemma not_in_remove_handle h l : ~ In h (remove_handle h l).
Proof.
  unfold remove_handle. intros H. apply filter_In in H as [_ H].
  rewrite Nat.eqb_refl in H. discriminate.
Qed.

Lemma in_remove_handle h x l : In x l -> x <> h -> In x (remove_handle h l).
Proof.
  intros Hin Hne. unfold remove_handle. apply filter_In. split; [exact Hin |].
  apply negb_true_iff. apply Nat.eqb_neq. exact Hne.
Qed.

(** [initialize] on a manager that already holds a running browser: the
    only driver call is a launch, the old browser keeps running and the
    manager no longer refers to it. *)
Lemma initialize_keeps_prior_open (w : world) (b : handle) :
  browser (this w) = Some b ->
  In b (open_browsers (drv w)) ->
  b < next (drv w) ->
  leaked (initialize w) b /\
  trace (drv (initialize w)) = trace (drv w) ++ [Launch (next (drv w))].
Proof.
  intros Hb Hin Hlt. unfold initialize, leaked. simpl. repeat split.
  - right. exact Hin.
  - intros [= E]. lia.
Qed.

(** C6 on the code: calling [initialize] twice on a new manager leaves the
    first browser (handle 0) running and unreferenced; no [CloseBrowser] is
    ever issued, whereas the claim has the prior instance closed first. *)
Theorem initialize_twice_leaks :
  let w1 := initialize (start (Dir true [])) in
  let w2 := initialize w1 in
  browser (this w1) = Some 0 /\
  browser (this w2) = Some 1 /\
  open_browsers (drv w2) = [1; 0] /\
  leaked w2 0 /\
  trace (drv w2) = [Launch 0; Launch 1].
Proof.
  simpl. unfold leaked. simpl. repeat split; try reflexivity.
  - right. left. reflexivity.
  - discriminate.
Qed.

Lemma warm_cache_trace run c url d :
  exists mid, trace (snd (warm_cache run c url d)) = trace d ++ mid /\
    open_browsers (snd (warm_cache run c url d)) = open_browsers d /\
    open_contexts (snd (warm_cache run c url d)) = open_contexts d /\
    next (snd (warm_cache run c url d)) = next d.
Proof.
  unfold warm_cache.
  destruct (newPage_ok run), (goto_ok run), (waitForTimeout_ok run),
    (waitForResponse_ok run); simpl;
    repeat rewrite <- app_assoc; eexists; repeat split; reflexivity.
Qed.

Lemma warm_cache_result run c url d :
  fst (warm_cache run c url d) =
    if newPage_ok run && goto_ok run && waitForTimeout_ok run
    then Returned else Threw PageError.
Proof.
  unfold warm_cache.
  destruct (newPage_ok run), (goto_ok run), (waitForTimeout_ok run),
    (waitForResponse_ok run); reflexivity.
Qed.

(** C7: once the directory is ensured, every run of [createBaseContext],
    whether the page calls succeed or reject, ends with the persistent
    context closed and then a newly launched browser stored in
    [this.browser]; the last two driver calls are that close and that
    launch. *)
Theorem createBaseContext_closes_and_restores
    (run : page_run) (contextPath : path) (url : string) (w : world) :
  fst (ensureDirectory contextPath (disk w)) = Return tt ->
  let r := fst (createBaseContext run contextPath url w) in
  let w' := snd (createBaseContext run contextPath url w) in
  exists c b pre mid,
    trace (drv w') =
      trace (drv w) ++ pre ++ [LaunchPersistent c contextPath] ++ mid
        ++ [CloseContext c; Launch b] /\
    pre = match browser (this w) with Some b0 => [CloseBrowser b0] | None => [] end /\
    ~ In c (open_contexts (drv w')) /\
    browser (this w') = Some b /\
    In b (open_browsers (drv w')) /\
    r = if newPage_ok run && goto_ok run && waitForTimeout_ok run
        then Returned else Threw PageError.
Proof.
  intros Hens. unfold createBaseContext.
  destruct (ensureDirectory contextPath (disk w)) as [o s] eqn:E.
  simpl in Hens. subst o.
  set (d0 := match browser (this w) with
             | Some b => browser_close b (drv w) | None => drv w end).
  unfold chromium_launchPersistentContext.
  set (d1 := {| open_browsers := open_browsers d0;
                open_contexts := next d0 :: open_contexts d0;
                next := S (next d0);
                trace := trace d0 ++ [LaunchPersistent (next d0) contextPath] |}).
  pose proof (warm_cache_trace run (next d0) url d1) as [mid [Ht [Hb [Hc Hn]]]].
  pose proof (warm_cache_result run (next d0) url d1) as Hr.
  destruct (warm_cache run (next d0) url d1) as [res d2]. simpl in *.
  exists (next d0), (next d2),
    (match browser (this w) with Some b0 => [CloseBrowser b0] | None => [] end), mid.
  repeat split.
  - rewrite Ht. subst d1 d0. simpl.
    destruct (browser (this w)); simpl; repeat rewrite <- app_assoc; reflexivity.
  - apply not_in_remove_handle.
  - left. reflexivity.
  - exact Hr.
Qed.

Lemma createBaseContext_closes_and_restores_witness :
  let run := {| newPage_ok := true; goto_ok := false;
                waitForTimeout_ok := true; waitForResponse_ok := true |} in
  let w := initialize (start (Dir true [])) in
  fst (ensureDirectory ["base"%string] (disk w)) = Return tt /\
  exists c b pre mid,
    trace (drv (snd (createBaseContext run ["base"%string] "u"%string w))) =
      trace (drv w) ++ pre ++ [LaunchPersistent c ["base"%string]] ++ mid
        ++ [CloseContext c; Launch b] /\
    ~ In c (open_contexts (drv (snd (createBaseContext run ["base"%string] "u"%string w)))) /\
    browser (this (snd (createBaseContext run ["base"%string] "u"%string w))) = Some b /\
    fst (createBaseContext run ["base"%string] "u"%string w) = Threw PageError.
Proof.
  intros run w.
  assert (H : fst (ensureDirectory ["base"%string] (disk w)) = Return tt) by reflexivity.
  split; [exact H |].
  destruct (createBaseContext_closes_and_restores run ["base"%string] "u"%string w H)
    as [c [b [pre [mid [Ht [_ [Hc [Hb [_ Hr]]]]]]]]].
  exists c, b, pre, mid. repeat split; assumption.
Defined.

End LifecycleFacts.

(** ** Writing into the tree *)

Module PutFacts.
Import Fs Tree TreeFacts.
Open Scope list_scope.

Lemma assoc_set_child_same x v es : assoc x (set_child x v es) = Some v.
Proof.
  induction es as [| [y n] es IH]; simpl.
  - rewrite String.eqb_refl. reflexivity.
  - destruct (String.eqb x y) eqn:E; simpl; rewrite E; [reflexivity | exact IH].
Qed.

Lemma assoc_set_child_other x y v es :
  String.eqb y x = false -> assoc y (set_child x v es) = assoc y es.
Proof.
  intros Hne. induction es as [| [z n] es IH]; simpl.
  - rewrite Hne. reflexivity.
  - destruct (String.eqb x z) eqn:E; simpl.
    + apply String.eqb_eq in E. subst z. rewrite Hne. reflexivity.
    + rewrite IH. reflexivity.
Qed.

Lemma set_child_fresh x v es :
  assoc x es = None -> set_child x v es = es ++ [(x, v)].
Proof.
  induction es as [| [y n] es IH]; simpl; [reflexivity |].
  destruct (String.eqb x y); [discriminate |].
  intros H. rewrite (IH H). reflexivity.
Qed.

Lemma set_child_twice x v v' es :
  set_child x v' (set_child x v es) = set_child x v' es.
Proof.
  induction es as [| [y n] es IH]; simpl.
  - rewrite String.eqb_refl. reflexivity.
  - destruct (String.eqb x y) eqn:E; simpl; rewrite E; [reflexivity |].
    rewrite IH. reflexivity.
Qed.

Lemma assoc_app_other x y v es :
  String.eqb y x = false -> assoc y (es ++ [(x, v)]) = assoc y es.
Proof.
  intros Hne. induction es as [| [z n] es IH]; simpl.
  - rewrite Hne. reflexivity.
  - destruct (String.eqb y z); [reflexivity | exact IH].
Qed.

Lemma assoc_app_fresh x es l :
  assoc x es = None -> assoc x (es ++ l) = assoc x l.
Proof.
  induction es as [| [y n] es IH]; simpl; [reflexivity |].
  destruct (String.eqb x y); [discriminate | exact IH].
Qed.

Lemma walk_put_same : forall p s v s', put s p v = Ok s' -> walk s' p = Ok v.
Proof.
  induction p as [| x p IH]; intros s v s'; simpl.
  - intros [= <-]. reflexivity.
  - destruct s as [c | r es |]; try discriminate.
    destruct (assoc x es) as [c |] eqn:E.
    + destruct (put c p v) as [c' | e] eqn:Ep; [| discriminate].
      intros [= <-]. simpl. rewrite assoc_set_child_same. eapply IH. exact Ep.
    + destruct p; [| discriminate].
      intros [= <-]. simpl. rewrite assoc_set_child_same. reflexivity.
Qed.

Lemma put_ok_of_walk : forall p s n v, walk s p = Ok n -> exists s', put s p v = Ok s'.
Proof.
  induction p as [| x p IH]; intros s n v; simpl.
  - eauto.
  - destruct s as [c | r es |]; try discriminate.
    destruct (assoc x es) as [c |] eqn:E; [| discriminate].
    intros H. destruct (IH _ _ v H) as [c' ->]. eauto.
Qed.

Lemma put_twice : forall p s v v' s1, put s p v = Ok s1 -> put s1 p v' = put s p v'.
Proof.
  induction p as [| x p IH]; intros s v v' s1; simpl.
  - intros [= <-]. reflexivity.
  - destruct s as [c | r es |]; try discriminate.
    destruct (assoc x es) as [c |] eqn:E.
    + destruct (put c p v) as [c' | e] eqn:Ep; [| discriminate].
      intros [= <-]. rewrite assoc_set_child_same.
      rewrite (IH _ _ v' _ Ep).
      destruct (put c p v'); [| reflexivity].
      rewrite set_child_twice. reflexivity.
    + destruct p; [| discriminate].
      intros [= <-]. rewrite assoc_set_child_same. simpl.
      rewrite set_child_twice. reflexivity.
Qed.

Lemma put_join : forall p s r es x v,
  walk s p = Ok (Dir r es) ->
  put s (join p x) v = put s p (Dir r (set_child x v es)).
Proof.
  unfold join.
  induction p as [| y p IH]; intros s r es x v; simpl.
  - intros [= ->]. destruct (assoc x es); reflexivity.
  - destruct s as [c | r0 es0 |]; try discriminate.
    destruct (assoc y es0) as [c |] eqn:E; [| discriminate].
    intros H. rewrite (IH _ _ _ x v H). reflexivity.
Qed.

Lemma diverges_sym : forall p q, diverges p q = diverges q p.
Proof.
  induction p as [| a p IH]; intros [| b q]; simpl; try reflexivity.
  rewrite (String.eqb_sym b a). destruct (String.eqb a b); [apply IH | reflexivity].
Qed.

Lemma diverges_app : forall p q r r',
  diverges p q = true -> diverges (p ++ r) (q ++ r') = true.
Proof.
  induction p as [| a p IH]; intros [| b q] r r'; simpl; try discriminate.
  destruct (String.eqb a b); [apply IH | reflexivity].
Qed.

Lemma walk_put_diverges : forall p q s v s',
  put s p v = Ok s' -> diverges p q = true -> walk s' q = walk s q.
Proof.
  induction p as [| a p IH]; intros [| b q] s v s'; simpl; try discriminate.
  destruct s as [c | r es |]; try discriminate.
  destruct (String.eqb a b) eqn:Eab.
  - apply String.eqb_eq in Eab. subst b.
    destruct (assoc a es) as [c |] eqn:E.
    + destruct (put c p v) as [c' | e] eqn:Ep; [| discriminate].
      intros [= <-] Hd. simpl. rewrite assoc_set_child_same. eapply IH; eassumption.
    + destruct p; [| discriminate]. intros _ Hd. discriminate.
  - assert (Hba : String.eqb b a = false) by (rewrite String.eqb_sym; exact Eab).
    destruct (assoc a es) as [c |] eqn:E.
    + destruct (put c p v) as [c' | e] eqn:Ep; [| discriminate].
      intros [= <-] _. simpl. rewrite (assoc_set_child_other _ _ _ _ Hba). reflexivity.
    + destruct p; [| discriminate].
      intros [= <-] _. simpl. rewrite (assoc_set_child_other _ _ _ _ Hba). reflexivity.
Qed.

Lemma set_child_last x v v' es :
  assoc x es = None -> set_child x v' (es ++ [(x, v)]) = es ++ [(x, v')].
Proof.
  intros Hx. rewrite <- (set_child_fresh _ v _ Hx). rewrite set_child_twice.
  apply set_child_fresh. exact Hx.
Qed.

Lemma set_child_id x c es : assoc x es = Some c -> set_child x c es = es.
Proof.
  induction es as [| [y n] es IH]; simpl; [discriminate |].
  destruct (String.eqb x y) eqn:E.
  - intros [= ->]. reflexivity.
  - intros H. rewrite (IH H). reflexivity.
Qed.

Lemma put_walk_id : forall p s n, walk s p = Ok n -> put s p n = Ok s.
Proof.
  induction p as [| x p IH]; intros s n; simpl.
  - intros [= ->]. reflexivity.
  - destruct s as [c | r es |]; try discriminate.
    destruct (assoc x es) as [c |] eqn:E; [| discriminate].
    intros H. rewrite (IH _ _ H), (set_child_id _ _ _ E). reflexivity.
Qed.

End PutFacts.

(** ** copyDirectory *)

Module CopyFacts.
Import Fs Tree Manager TreeFacts PutFacts.
Open Scope list_scope.

Lemma mkdir_p_join : forall p s r es x,
  walk s p = Ok (Dir r es) -> assoc x es = None ->
  mkdir_p s (join p x) = put s (join p x) (Dir true []).
Proof.
  unfold join.
  induction p as [| y p IH]; intros s r es x; simpl.
  - intros [= ->] Hx. rewrite Hx. reflexivity.
  - destruct s as [c | r0 es0 |]; try discriminate.
    destruct (assoc y es0) as [c |] eqn:E; [| discriminate].
    intros H Hx. rewrite (IH _ _ _ x H Hx). reflexivity.
Qed.

(** [ensureDirectory] on a name that the target directory does not have
    yet adds an empty directory at the end of its listing. *)
Lemma ensureDirectory_new s p r es x :
  walk s p = Ok (Dir r es) -> assoc x es = None ->
  exists s', ensureDirectory (join p x) s = (Return tt, s') /\
             put s p (Dir r (es ++ [(x, Dir true [])])) = Ok s'.
Proof.
  intros Hw Hx.
  destruct (put_ok_of_walk _ _ _ (Dir r (es ++ [(x, Dir true [])])) Hw) as [s' Hs'].
  exists s'. split; [| exact Hs'].
  unfold ensureDirectory, try_catch, fs_access, access, fs_mkdir.
  rewrite (walk_join _ _ x _ _ Hw), Hx.
  rewrite (mkdir_p_join _ _ _ _ _ Hw Hx), (put_join _ _ _ _ x _ Hw).
  rewrite (set_child_fresh _ _ _ Hx), Hs'. reflexivity.
Qed.

(** [ensureDirectory] on a directory that exists changes nothing. *)
Lemma ensureDirectory_existing s p r es :
  walk s p = Ok (Dir r es) -> ensureDirectory p s = (Return tt, s).
Proof.
  intros Hw. unfold ensureDirectory, try_catch, fs_access, access.
  rewrite Hw. reflexivity.
Qed.

(** [fs.copyFile] of a regular file to a name that the target directory
    does not have yet. *)
Lemma copyFile_new s src tgt c r es x :
  walk s (join src x) = Ok (File c) ->
  walk s tgt = Ok (Dir r es) -> assoc x es = None ->
  exists s', fs_copyFile (join src x) (join tgt x) s = (Return tt, s') /\
             put s tgt (Dir r (es ++ [(x, File c)])) = Ok s'.
Proof.
  intros Hs Hw Hx.
  destruct (put_ok_of_walk _ _ _ (Dir r (es ++ [(x, File c)])) Hw) as [s' Hs'].
  exists s'. split; [| exact Hs'].
  unfold fs_copyFile, copyFile. rewrite Hs.
  rewrite (walk_join _ _ x _ _ Hw), Hx.
  rewrite (put_join _ _ _ _ x _ Hw), (set_child_fresh _ _ _ Hx), Hs'. reflexivity.
Qed.

Lemma distinct_names_app_cons done e l :
  distinct_names (done ++ e :: l) = true ->
  assoc (fst e) done = None /\ distinct_names ((done ++ [e]) ++ l) = true.
Proof.
  intros H. split.
  - induction done as [| [y n] done IH]; simpl in *; [reflexivity |].
    apply andb_true_iff in H as [H1 H2].
    destruct (String.eqb (fst e) y) eqn:E.
    + apply String.eqb_eq in E. subst y. exfalso.
      clear -H1. induction done as [| d done IHd]; simpl in H1.
      * rewrite String.eqb_refl in H1. discriminate.
      * apply andb_true_iff in H1 as [_ H1]. auto.
    + auto.
  - rewrite <- app_assoc. exact H.
Qed.

Section Loop.

Variables (fuel : nat) (src tgt : path).

(** Subdirectories are copied correctly with the fuel left for them. *)
Hypothesis sub_copied :
  forall s src' tgt' es,
    diverges src' tgt' = true ->
    walk s src' = Ok (Dir true es) ->
    regular (Dir true es) = true ->
    (depth (Dir true es) <= fuel)%nat ->
    walk s tgt' = Ok (Dir true []) ->
    exists s', copyDirectory fuel src' tgt' s = (Return tt, s') /\
               put s tgt' (Dir true es) = Ok s'.

Hypothesis apart : diverges src tgt = true.

(** The body of the loop at lines 148-158. *)
Let body (entry : dirent) : M unit :=
  if isDirectory entry then
    ensureDirectory (join tgt (name entry)) ;;
    copyDirectory fuel (join src (name entry)) (join tgt (name entry))
  else
    fs_copyFile (join src (name entry)) (join tgt (name entry)).

(** One entry: the target listing grows by a copy of it. *)
Lemma copy_entry s srces done e :
  walk s src = Ok (Dir true srces) ->
  assoc (fst e) srces = Some (snd e) ->
  assoc (fst e) done = None ->
  regular (snd e) = true ->
  (depth (snd e) <= fuel)%nat ->
  walk s tgt = Ok (Dir true done) ->
  exists s1, body (to_dirent e) s = (Return tt, s1) /\
             put s tgt (Dir true (done ++ [e])) = Ok s1.
Proof.
  intros Hsrc Hin Hfresh Hreg Hdep Htgt.
  destruct e as [x c]. simpl in *.
  assert (Hwe : walk s (join src x) = Ok c).
  { rewrite (walk_join _ _ x _ _ Hsrc), Hin. reflexivity. }
  unfold body, to_dirent. simpl.
  destruct c as [c0 | r es' |]; [| | discriminate].
  - exact (copyFile_new _ _ _ _ _ _ _ Hwe Htgt Hfresh).
  - assert (r = true) as ->.
    { rewrite regular_Dir in Hreg. destruct r; [reflexivity | discriminate]. }
    destruct (ensureDirectory_new _ _ _ _ x Htgt Hfresh) as [s1 [He Hput1]].
    unfold bind. rewrite He.
    pose proof (walk_put_same _ _ _ _ Hput1) as Htgt1.
    assert (Hsub : walk s1 (join tgt x) = Ok (Dir true [])).
    { rewrite (walk_join _ _ x _ _ Htgt1), (assoc_app_fresh _ _ _ Hfresh). simpl.
      rewrite String.eqb_refl. reflexivity. }
    assert (Hsrc1 : walk s1 (join src x) = Ok (Dir true es')).
    { rewrite <- Hwe. eapply walk_put_diverges; [exact Hput1 |].
      unfold join. rewrite <- (app_nil_r tgt). apply diverges_app.
      rewrite diverges_sym. exact apart. }
    destruct (sub_copied s1 (join src x) (join tgt x) es') as [s2 [Hc Hput2]];
      try assumption.
    { unfold join. apply diverges_app. exact apart. }
    exists s2. split; [exact Hc |].
    rewrite (put_join _ _ _ _ x _ Htgt1) in Hput2.
    rewrite (set_child_last _ _ _ _ Hfresh) in Hput2.
    rewrite (put_twice _ _ _ _ _ Hput1) in Hput2. exact Hput2.
Qed.

(** The whole loop, started with [done] already in the target. *)
Lemma copy_loop srces :
  forall l done s,
    walk s src = Ok (Dir true srces) ->
    (forall e, In e l -> assoc (fst e) srces = Some (snd e)) ->
    distinct_names (done ++ l) = true ->
    regular_entries l = true ->
    (depth_entries l <= fuel)%nat ->
    walk s tgt = Ok (Dir true done) ->
    exists s', for_of (map to_dirent l) body s = (Return tt, s') /\
               put s tgt (Dir true (done ++ l)) = Ok s'.
Proof.
  induction l as [| e l IHl]; intros done s Hsrc Hin Hdist Hreg Hdep Htgt.
  - simpl. exists s. split; [reflexivity |].
    rewrite app_nil_r. apply put_walk_id. exact Htgt.
  - destruct (distinct_names_app_cons _ _ _ Hdist) as [Hfresh Hdist'].
    simpl in Hreg. apply andb_true_iff in Hreg as [Hreg1 Hreg2].
    simpl in Hdep.
    destruct (copy_entry s srces done e) as [s1 [Hb Hput1]]; try assumption.
    { apply Hin. left. reflexivity. }
    { lia. }
    destruct (IHl (done ++ [e]) s1) as [s' [Hl Hput']]; try assumption.
    { rewrite <- Hsrc. eapply walk_put_diverges; [exact Hput1 |].
      rewrite diverges_sym. exact apart. }
    { intros e' He'. apply Hin. right. exact He'. }
    { lia. }
    { eapply walk_put_same. exact Hput1. }
    exists s'. split.
    + simpl. unfold bind at 1. rewrite Hb. exact Hl.
    + rewrite (put_twice _ _ _ _ _ Hput1) in Hput'.
      rewrite <- app_assoc in Hput'. exact Hput'.
Qed.

End Loop.

(** Copying a regular tree into an empty directory elsewhere: with fuel
    for its depth, [copyDirectory] returns and the target then holds the
    tree. *)
Lemma copyDirectory_regular :
  forall fuel s src tgt es,
    diverges src tgt = true ->
    walk s src = Ok (Dir true es) ->
    regular (Dir true es) = true ->
    (depth (Dir true es) <= fuel)%nat ->
    walk s tgt = Ok (Dir true []) ->
    exists s', copyDirectory fuel src tgt s = (Return tt, s') /\
               put s tgt (Dir true es) = Ok s'.
Proof.
  induction fuel as [| fuel IH]; intros s src tgt es Hdiv Hsrc Hreg Hdep Htgt.
  - rewrite depth_Dir in Hdep. lia.
  - rewrite depth_Dir in Hdep.
    rewrite regular_Dir in Hreg. apply andb_true_iff in Hreg as [Hreg Hre].
    simpl in Hreg.
    destruct (copy_loop fuel src tgt IH Hdiv es es [] s) as [s' [Hl Hput]];
      try assumption.
    { intros e He. apply assoc_in_distinct; assumption. }
    { lia. }
    exists s'. split; [| exact Hput].
    simpl. unfold bind at 1, fs_readdir. rewrite (SizeFacts.readdir_Dir _ _ _ Hsrc).
    exact Hl.
Qed.

End CopyFacts.

(** ** Clearing and recreating the target *)

Module PrepareFacts.
Import Fs Tree Manager TreeFacts PutFacts.
Open Scope list_scope.

Lemma assoc_remove_child_same x es : assoc x (remove_child x es) = None.
Proof.
  induction es as [| [y n] es IH]; simpl; [reflexivity |].
  destruct (String.eqb x y) eqn:E; simpl; [exact IH |].
  rewrite E. exact IH.
Qed.

Lemma assoc_remove_child_other x y es :
  String.eqb y x = false -> assoc y (remove_child x es) = assoc y es.
Proof.
  intros Hne. induction es as [| [z n] es IH]; simpl; [reflexivity |].
  destruct (String.eqb x z) eqn:E; simpl.
  - apply String.eqb_eq in E. subst z. rewrite Hne. exact IH.
  - rewrite IH. reflexivity.
Qed.

Lemma remove_child_set_child x v es :
  remove_child x (set_child x v es) = remove_child x es.
Proof.
  induction es as [| [y n] es IH]; simpl.
  - rewrite String.eqb_refl. reflexivity.
  - destruct (String.eqb x y) eqn:E; simpl; rewrite E; simpl; [reflexivity |].
    rewrite IH. reflexivity.
Qed.

Lemma remove_child_twice x es :
  remove_child x (remove_child x es) = remove_child x es.
Proof.
  induction es as [| [y n] es IH]; simpl; [reflexivity |].
  destruct (String.eqb x y) eqn:E; simpl; [exact IH |].
  rewrite E. simpl. rewrite IH. reflexivity.
Qed.

Lemma remove_child_absent x es : assoc x es = None -> remove_child x es = es.
Proof.
  induction es as [| [y n] es IH]; simpl; [reflexivity |].
  destruct (String.eqb x y) eqn:E; [discriminate |].
  simpl. intros H. rewrite (IH H). reflexivity.
Qed.

Lemma walk_fresh_dirs p : walk (fresh_dirs p) p = Ok (Dir true []).
Proof.
  induction p as [| x p IH]; simpl; [reflexivity |].
  rewrite String.eqb_refl. exact IH.
Qed.

Lemma walk_fresh_dirs_diverges : forall p q,
  diverges p q = true -> walk (fresh_dirs p) q = Err ENOENT.
Proof.
  induction p as [| a p IH]; intros [| b q]; simpl; try discriminate.
  rewrite (String.eqb_sym b a).
  destruct (String.eqb a b); [apply IH | reflexivity].
Qed.

Lemma rm_rf_deep r es x y p :
  rm_rf (Dir r es) (x :: y :: p) =
    match assoc x es with
    | Some c => let '(o, c') := rm_rf c (y :: p) in (o, Dir r (set_child x c' es))
    | None => (Ok tt, Dir r es)
    end.
Proof. reflexivity. Qed.

Lemma rm_rf_last r es x :
  rm_rf (Dir r es) [x] =
    match assoc x es with
    | Some c =>
        match prune c with
        | None => (Ok tt, Dir r (remove_child x es))
        | Some c' => (Err EACCES, Dir r (set_child x c' es))
        end
    | None => (Ok tt, Dir r es)
    end.
Proof. reflexivity. Qed.

Lemma mkdir_p_cons r es x p :
  mkdir_p (Dir r es) (x :: p) =
    match assoc x es with
    | Some c =>
        match mkdir_p c p with
        | Ok c' => Ok (Dir r (set_child x c' es))
        | Err e => Err e
        end
    | None => Ok (Dir r (set_child x (fresh_dirs p) es))
    end.
Proof. reflexivity. Qed.

Lemma assoc_single x c : assoc x [(x, c)] = Some c.
Proof. simpl. rewrite String.eqb_refl. reflexivity. Qed.

Lemma set_child_single x c c' : set_child x c' [(x, c)] = [(x, c')].
Proof. simpl. rewrite String.eqb_refl. reflexivity. Qed.

Lemma remove_child_single x c : remove_child x [(x, c)] = [].
Proof. unfold remove_child. simpl. rewrite String.eqb_refl. reflexivity. Qed.

Lemma creatable_deep r es x y p :
  creatable (Dir r es) (x :: y :: p) =
    match assoc x es with Some c => creatable c (y :: p) | None => true end.
Proof. reflexivity. Qed.

Lemma clearable_last r es x :
  clearable (Dir r es) [x] =
    match assoc x es with Some c => removable c | None => true end.
Proof. reflexivity. Qed.

Lemma clearable_deep r es x y p :
  clearable (Dir r es) (x :: y :: p) =
    match assoc x es with Some c => clearable c (y :: p) | None => true end.
Proof. reflexivity. Qed.

Lemma walk_cons r es x p :
  walk (Dir r es) (x :: p) =
    match assoc x es with Some c => walk c p | None => Err ENOENT end.
Proof. reflexivity. Qed.

Lemma put_cons r es x p v :
  put (Dir r es) (x :: p) v =
    match assoc x es with
    | Some c =>
        match put c p v with
        | Ok c' => Ok (Dir r (set_child x c' es))
        | Err e => Err e
        end
    | None =>
        match p with
        | [] => Ok (Dir r (set_child x v es))
        | _ => Err ENOENT
        end
    end.
Proof. reflexivity. Qed.

Lemma clearable_creatable : forall p n, clearable n p = true -> creatable n p = true.
Proof.
  induction p as [| x p IH]; intros n Hc.
  - destruct n; discriminate.
  - destruct n as [c | r es |]; try discriminate.
    destruct p as [| y p']; [reflexivity |].
    rewrite clearable_deep in Hc. rewrite creatable_deep.
    destruct (assoc x es) as [c |]; [apply IH; exact Hc | reflexivity].
Qed.

(** A path that holds something [fs.rm] removes entirely can be cleared. *)
Lemma clearable_of_walk : forall p n m,
  walk n p = Ok m -> removable m = true -> p <> [] -> clearable n p = true.
Proof.
  induction p as [| x p IH]; intros n m Hw Hm Hne; [congruence |].
  destruct n as [c | r es |]; try discriminate.
  rewrite walk_cons in Hw.
  destruct p as [| y p'].
  - rewrite clearable_last. destruct (assoc x es) as [c |]; [| reflexivity].
    simpl in Hw. injection Hw as ->. exact Hm.
  - rewrite clearable_deep.
    destruct (assoc x es) as [c |]; [| reflexivity].
    eapply IH; [exact Hw | exact Hm | discriminate].
Qed.

(** On a path that can be cleared, [fs.rm] succeeds and drops the entry. *)
Lemma rm_rf_last_clearable r es x :
  clearable (Dir r es) [x] = true ->
  rm_rf (Dir r es) [x] = (Ok tt, Dir r (remove_child x es)).
Proof.
  rewrite clearable_last, rm_rf_last.
  destruct (assoc x es) as [c |] eqn:E.
  - unfold removable. destruct (prune c); [discriminate | reflexivity].
  - intros _. rewrite (remove_child_absent _ _ E). reflexivity.
Qed.

(** What [fs.rm] leaves does not depend on what was stored at the path,
    as long as it can be removed. *)
Lemma rm_rf_put : forall p n v n1,
  clearable n p = true -> removable v = true ->
  put n p v = Ok n1 -> rm_rf n1 p = rm_rf n p.
Proof.
  induction p as [| x p IH]; intros n v n1 Hc Hv.
  - destruct n; discriminate.
  - destruct n as [c | r es |]; try discriminate.
    destruct p as [| y p'].
    + rewrite (rm_rf_last_clearable _ _ _ Hc).
      assert (Hn1 : put (Dir r es) [x] v = Ok (Dir r (set_child x v es))).
      { simpl. destruct (assoc x es); reflexivity. }
      rewrite Hn1. intros [= <-].
      rewrite rm_rf_last, assoc_set_child_same.
      unfold removable in Hv. destruct (prune v); [discriminate |].
      rewrite remove_child_set_child. reflexivity.
    + rewrite clearable_deep in Hc. rewrite put_cons.
      destruct (assoc x es) as [c |] eqn:E; [| discriminate].
      destruct (put c (y :: p') v) as [c' | e] eqn:Ep; [| discriminate].
      intros [= <-]. rewrite !rm_rf_deep, assoc_set_child_same, E.
      rewrite (IH _ _ _ Hc Hv Ep).
      destruct (rm_rf c (y :: p')) as [o cr]. rewrite set_child_twice. reflexivity.
Qed.

Lemma prepare_fresh_dirs : forall p,
  p <> [] ->
  exists nr, rm_rf (fresh_dirs p) p = (Ok tt, nr) /\ mkdir_p nr p = Ok (fresh_dirs p).
Proof.
  induction p as [| x p IH]; intros Hne; [congruence |].
  destruct p as [| y p'].
  - exists (Dir true []). split.
    + change (fresh_dirs [x]) with (Dir true [(x, Dir true [])]).
      rewrite rm_rf_last, assoc_single. simpl prune. cbv iota.
      rewrite remove_child_single. reflexivity.
    + reflexivity.
  - destruct (IH ltac:(discriminate)) as [nr [Hr Hm]].
    change (fresh_dirs (x :: y :: p')) with (Dir true [(x, fresh_dirs (y :: p'))]).
    exists (Dir true [(x, nr)]). split.
    + rewrite rm_rf_deep, assoc_single, Hr, set_child_single. reflexivity.
    + rewrite mkdir_p_cons, assoc_single, Hm, set_child_single. reflexivity.
Qed.

(** What [prepare_fresh_dirs] leaves has nothing at the path. *)
Lemma rm_rf_fresh_dirs_gone : forall p fr,
  rm_rf (fresh_dirs p) p = (Ok tt, fr) -> walk fr p = Err ENOENT.
Proof.
  induction p as [| a q IHq]; intros fr Hfr; [simpl in Hfr; discriminate |].
  destruct q as [| b q'].
  - change (fresh_dirs [a]) with (Dir true [(a, Dir true [])]) in Hfr.
    rewrite rm_rf_last, assoc_single in Hfr. simpl prune in Hfr. cbv iota in Hfr.
    rewrite remove_child_single in Hfr. injection Hfr as <-. reflexivity.
  - change (fresh_dirs (a :: b :: q'))
      with (Dir true [(a, fresh_dirs (b :: q'))]) in Hfr.
    rewrite rm_rf_deep, assoc_single in Hfr.
    destruct (rm_rf (fresh_dirs (b :: q')) (b :: q')) as [o c'] eqn:Er.
    rewrite set_child_single in Hfr. injection Hfr as -> <-.
    rewrite walk_cons, assoc_single. apply IHq. reflexivity.
Qed.

Lemma remove_child_fresh_app x v es :
  remove_child x (remove_child x es ++ [(x, v)]) = remove_child x es.
Proof.
  unfold remove_child at 1. rewrite filter_app. simpl.
  rewrite String.eqb_refl. simpl. rewrite app_nil_r.
  apply remove_child_twice.
Qed.

(** Removing whatever is at [p] and making a directory there, on the
    node level, for a path that can be cleared: both calls succeed, the
    directory is empty, nothing away from [p] is touched, and doing it again
    changes nothing. *)
Lemma prepare_node : forall p n,
  clearable n p = true ->
  exists nr n0,
    rm_rf n p = (Ok tt, nr) /\ walk nr p = Err ENOENT /\ mkdir_p nr p = Ok n0 /\
    walk n0 p = Ok (Dir true []) /\
    (forall q, diverges p q = true -> walk n0 q = walk n q) /\
    (exists nr', rm_rf n0 p = (Ok tt, nr') /\ walk nr' p = Err ENOENT /\
                 mkdir_p nr' p = Ok n0).
Proof.
  induction p as [| x p IH]; intros n Hc.
  - destruct n; discriminate.
  - destruct n as [c | r es |]; try discriminate.
    destruct p as [| y p'].
    + (* the last component *)
      pose proof (assoc_remove_child_same x es) as Hnone.
      exists (Dir r (remove_child x es)),
             (Dir r (remove_child x es ++ [(x, Dir true [])])).
      split; [apply rm_rf_last_clearable; exact Hc |].
      split; [rewrite walk_cons, Hnone; reflexivity |].
      split; [rewrite mkdir_p_cons, Hnone, (set_child_fresh _ _ _ Hnone); reflexivity |].
      split.
      { rewrite walk_cons, (assoc_app_fresh _ _ _ Hnone), assoc_single. reflexivity. }
      split.
      { intros [| b q] Hd; [discriminate |]. simpl in Hd.
        destruct (String.eqb x b) eqn:E; [destruct q; discriminate |].
        assert (Hba : String.eqb b x = false) by (rewrite String.eqb_sym; exact E).
        rewrite !walk_cons. rewrite (assoc_app_other _ _ _ _ Hba).
        rewrite (assoc_remove_child_other _ _ _ Hba). reflexivity. }
      exists (Dir r (remove_child x es)).
      split.
      { rewrite rm_rf_last, (assoc_app_fresh _ _ _ Hnone), assoc_single.
        simpl prune. cbv iota. rewrite remove_child_fresh_app. reflexivity. }
      split; [rewrite walk_cons, Hnone; reflexivity |].
      rewrite mkdir_p_cons, Hnone, (set_child_fresh _ _ _ Hnone). reflexivity.
    + rewrite clearable_deep in Hc.
      destruct (assoc x es) as [c |] eqn:E.
      * (* the next component exists *)
        destruct (IH c Hc) as [cr [c0 [Hr [Hwr [Hm [Hw0 [Hframe [cr' [Hr' [Hwr' Hm']]]]]]]]]].
        exists (Dir r (set_child x cr es)), (Dir r (set_child x c0 es)).
        split; [rewrite rm_rf_deep, E, Hr; reflexivity |].
        split; [rewrite walk_cons, assoc_set_child_same; exact Hwr |].
        split.
        { rewrite mkdir_p_cons, assoc_set_child_same, Hm, set_child_twice. reflexivity. }
        split; [rewrite walk_cons, assoc_set_child_same; exact Hw0 |].
        split.
        { intros [| b q] Hd; [discriminate |]. simpl in Hd.
          rewrite !walk_cons.
          destruct (String.eqb x b) eqn:Exb.
          - apply String.eqb_eq in Exb. subst b.
            rewrite assoc_set_child_same, E. apply Hframe. exact Hd.
          - assert (Hba : String.eqb b x = false) by (rewrite String.eqb_sym; exact Exb).
            rewrite (assoc_set_child_other _ _ _ _ Hba). reflexivity. }
        exists (Dir r (set_child x cr' es)).
        split.
        { rewrite rm_rf_deep, assoc_set_child_same, Hr', set_child_twice. reflexivity. }
        split; [rewrite walk_cons, assoc_set_child_same; exact Hwr' |].
        rewrite mkdir_p_cons, assoc_set_child_same, Hm', set_child_twice. reflexivity.
      * (* nothing there: the whole chain is created *)
        exists (Dir r es), (Dir r (es ++ [(x, fresh_dirs (y :: p'))])).
        split; [rewrite rm_rf_deep, E; reflexivity |].
        split; [rewrite walk_cons, E; reflexivity |].
        split; [rewrite mkdir_p_cons, E, (set_child_fresh _ _ _ E); reflexivity |].
        split.
        { rewrite walk_cons, (assoc_app_fresh _ _ _ E), assoc_single.
          apply walk_fresh_dirs. }
        split.
        { intros [| b q] Hd; [discriminate |]. simpl in Hd.
          rewrite !walk_cons.
          destruct (String.eqb x b) eqn:Exb.
          - apply String.eqb_eq in Exb. subst b.
            rewrite (assoc_app_fresh _ _ _ E), assoc_single, E.
            apply walk_fresh_dirs_diverges. exact Hd.
          - assert (Hba : String.eqb b x = false) by (rewrite String.eqb_sym; exact Exb).
            rewrite (assoc_app_other _ _ _ _ Hba). reflexivity. }
        destruct (prepare_fresh_dirs (y :: p') ltac:(discriminate)) as [fr [Hfr Hfm]].
        assert (Ha : assoc x (es ++ [(x, fresh_dirs (y :: p'))])
                     = Some (fresh_dirs (y :: p')))
          by (rewrite (assoc_app_fresh _ _ _ E); apply assoc_single).
        exists (Dir r (es ++ [(x, fr)])).
        split.
        { rewrite rm_rf_deep, Ha, Hfr, (set_child_last _ _ _ _ E). reflexivity. }
        assert (Ha' : assoc x (es ++ [(x, fr)]) = Some fr)
          by (rewrite (assoc_app_fresh _ _ _ E); apply assoc_single).
        split.
        { rewrite walk_cons, Ha'. eapply rm_rf_fresh_dirs_gone. exact Hfr. }
        rewrite mkdir_p_cons, Ha', Hfm, (set_child_last _ _ _ _ E). reflexivity.
Qed.

(** [fs.rm] changes nothing at a path that parts ways with its own,
    whether it succeeds or not. *)
Lemma rm_rf_diverges : forall p n q,
  diverges p q = true -> walk (snd (rm_rf n p)) q = walk n q.
Proof.
  induction p as [| x p IH]; intros n [| b q] Hd; try discriminate.
  destruct n as [c | r es |]; try reflexivity.
  simpl in Hd. rewrite (walk_cons r es b q).
  destruct p as [| y p'].
  - destruct (String.eqb x b) eqn:Exb; [destruct q; discriminate |].
    assert (Hba : String.eqb b x = false) by (rewrite String.eqb_sym; exact Exb).
    rewrite rm_rf_last.
    destruct (assoc x es) as [c |]; [destruct (prune c) |]; simpl snd;
      rewrite ?walk_cons, ?(assoc_set_child_other _ _ _ _ Hba),
        ?(assoc_remove_child_other _ _ _ Hba); reflexivity.
  - rewrite rm_rf_deep.
    destruct (assoc x es) as [c |] eqn:E; [| reflexivity].
    specialize (IH c q).
    destruct (rm_rf c (y :: p')) as [o c'] eqn:Er. simpl snd in *.
    rewrite walk_cons.
    destruct (String.eqb x b) eqn:Exb.
    + apply String.eqb_eq in Exb. subst b.
      rewrite assoc_set_child_same, E. apply IH. exact Hd.
    + assert (Hba : String.eqb b x = false) by (rewrite String.eqb_sym; exact Exb).
      rewrite (assoc_set_child_other _ _ _ _ Hba). reflexivity.
Qed.

Lemma prune_leaves_directory : forall c c',
  prune c = Some c' -> exists r es, c' = Dir r es.
Proof.
  intros [b | [|] es |] c'; simpl; try discriminate.
  - destruct ((fix go (l : list (string * node)) : list (string * node) :=
                 match l with
                 | [] => []
                 | e :: l' =>
                     match prune (snd e) with
                     | Some c => (fst e, c) :: go l'
                     | None => go l'
                     end
                 end) es); [discriminate |].
    intros [= <-]. eauto.
  - destruct es; [discriminate |]. intros [= <-]. eauto.
Qed.

(** When something at [p] resists removal, [fs.rm] fails and leaves it
    there, with what could be removed taken out. *)
Lemma rm_rf_leaves : forall p n c c',
  p <> [] -> walk n p = Ok c -> prune c = Some c' ->
  exists n', rm_rf n p = (Err EACCES, n') /\ put n p c' = Ok n'.
Proof.
  induction p as [| x p IH]; intros n c c' Hne Hw Hp; [congruence |].
  destruct n as [b | r es |]; try discriminate.
  rewrite walk_cons in Hw. rewrite put_cons.
  destruct (assoc x es) as [d |] eqn:E; [| discriminate].
  destruct p as [| y p'].
  - simpl in Hw. injection Hw as ->.
    rewrite rm_rf_last, E, Hp. simpl. eauto.
  - destruct (IH d c c' ltac:(discriminate) Hw Hp) as [d' [Hr Hput]].
    rewrite rm_rf_deep, E, Hr, Hput. eauto.
Qed.

End PrepareFacts.

(** ** Every write of copyDirectory lands below the target *)

Module FrameFacts.
Import Fs Tree Manager TreeFacts PutFacts.
Open Scope list_scope.

Lemma same_kind_refl n : same_kind n n.
Proof. destruct n; simpl; eauto. Qed.

Lemma same_kind_trans n v w : same_kind n v -> same_kind v w -> same_kind n w.
Proof.
  destruct n as [c | r es |]; simpl.
  - intros -> H. exact H.
  - intros [es' ->] H. exact H.
  - intros -> H. exact H.
Qed.

Lemma all_listable_set_child x v es :
  all_listable_entries es = true -> all_listable v = true ->
  all_listable_entries (set_child x v es) = true.
Proof.
  intros Hes Hv. induction es as [| [y n] es IH]; simpl in *.
  - rewrite Hv. reflexivity.
  - apply andb_true_iff in Hes as [H1 H2].
    destruct (String.eqb x y); simpl.
    + rewrite Hv, H2. reflexivity.
    + rewrite H1. simpl. apply IH. exact H2.
Qed.

Lemma all_listable_fresh_dirs p : all_listable (fresh_dirs p) = true.
Proof.
  induction p as [| x p IH]; [reflexivity |].
  change (fresh_dirs (x :: p)) with (Dir true [(x, fresh_dirs p)]).
  rewrite all_listable_Dir. simpl. rewrite IH. reflexivity.
Qed.

(** Storing a tree of listable directories in one keeps it so. *)
Lemma put_all_listable : forall q n v n',
  all_listable n = true -> all_listable v = true ->
  put n q v = Ok n' -> all_listable n' = true.
Proof.
  induction q as [| x q IH]; intros n v n' Hn Hv.
  - simpl. intros [= <-]. exact Hv.
  - destruct n as [c | r es |]; try discriminate.
    rewrite PrepareFacts.put_cons.
    pose proof Hn as Hn'. rewrite all_listable_Dir in Hn'.
    apply andb_true_iff in Hn' as [Hr Hes].
    destruct (assoc x es) as [c |] eqn:E.
    + destruct (put c q v) as [c' | e] eqn:Ep; [| discriminate].
      intros [= <-]. rewrite all_listable_Dir, Hr. simpl.
      apply all_listable_set_child; [exact Hes |].
      eapply IH; [| exact Hv | exact Ep].
      eapply all_listable_assoc; eassumption.
    + destruct q; [| discriminate].
      intros [= <-]. rewrite all_listable_Dir, Hr. simpl.
      apply all_listable_set_child; assumption.
Qed.

Lemma mkdir_p_all_listable : forall q n n',
  all_listable n = true -> mkdir_p n q = Ok n' -> all_listable n' = true.
Proof.
  induction q as [| x q IH]; intros n n' Hn.
  - destruct n; simpl; try discriminate. intros [= <-]. exact Hn.
  - destruct n as [c | r es |]; try discriminate.
    rewrite PrepareFacts.mkdir_p_cons.
    pose proof Hn as Hn'. rewrite all_listable_Dir in Hn'.
    apply andb_true_iff in Hn' as [Hr Hes].
    destruct (assoc x es) as [c |] eqn:E.
    + destruct (mkdir_p c q) as [c' | e] eqn:Ec; [| discriminate].
      intros [= <-]. rewrite all_listable_Dir, Hr. simpl.
      apply all_listable_set_child; [exact Hes |].
      eapply IH; [| exact Ec]. eapply all_listable_assoc; eassumption.
    + intros [= <-]. rewrite all_listable_Dir, Hr. simpl.
      apply all_listable_set_child; [exact Hes | apply all_listable_fresh_dirs].
Qed.

Lemma changed_below_refl tgt s n : walk s tgt = Ok n -> changed_below tgt s s.
Proof.
  intros H. exists n, n. split; [exact H |].
  split; [apply put_walk_id; exact H |].
  split; [apply same_kind_refl | tauto].
Qed.

Lemma changed_below_trans tgt s s1 s2 :
  changed_below tgt s s1 -> changed_below tgt s1 s2 -> changed_below tgt s s2.
Proof.
  intros [n [v [Hw [Hp [Hk Hl]]]]] [n1 [v2 [Hw1 [Hp1 [Hk1 Hl1]]]]].
  rewrite (walk_put_same _ _ _ _ Hp) in Hw1. injection Hw1 as <-.
  exists n, v2. split; [exact Hw |].
  split; [rewrite <- (put_twice _ _ _ v2 _ Hp); exact Hp1 |].
  split; [eapply same_kind_trans; eassumption | tauto].
Qed.

Lemma changed_below_walk tgt s s1 :
  changed_below tgt s s1 -> exists v, walk s1 tgt = Ok v.
Proof.
  intros [n [v [_ [Hp _]]]]. exists v. eapply walk_put_same. exact Hp.
Qed.

(** A write at [p ++ q] is a write at [q] inside the node at [p]. *)
Lemma put_app : forall p s n q v s',
  walk s p = Ok n -> put s (p ++ q) v = Ok s' ->
  exists n', put n q v = Ok n' /\ put s p n' = Ok s'.
Proof.
  induction p as [| x p IH]; intros s n q v s'; simpl.
  - intros [= ->] H. exists s'. split; [exact H | reflexivity].
  - destruct s as [c | r es |]; try discriminate.
    destruct (assoc x es) as [c |] eqn:E; [| discriminate].
    intros Hw. destruct (put c (p ++ q) v) as [c' | e] eqn:Ep; [| discriminate].
    intros [= <-].
    destruct (IH _ _ _ _ _ Hw Ep) as [n' [Hn' Hc']].
    exists n'. split; [exact Hn' |]. rewrite Hc'. reflexivity.
Qed.

Lemma put_same_kind n q v n' : q <> [] -> put n q v = Ok n' -> same_kind n n'.
Proof.
  destruct q as [| x q]; [congruence |]. intros _.
  destruct n as [c | r es |]; simpl; try discriminate.
  destruct (assoc x es) as [c |].
  - destruct (put c q v); [| discriminate]. intros [= <-]. eauto.
  - destruct q; [| discriminate]. intros [= <-]. eauto.
Qed.

Lemma mkdir_p_app : forall p s n q s',
  walk s p = Ok n -> mkdir_p s (p ++ q) = Ok s' ->
  exists n', mkdir_p n q = Ok n' /\ put s p n' = Ok s'.
Proof.
  induction p as [| x p IH]; intros s n q s'.
  - simpl. intros [= ->] H. exists s'. split; [exact H | reflexivity].
  - destruct s as [c | r es |]; try discriminate.
    rewrite PrepareFacts.walk_cons. simpl app. rewrite PrepareFacts.mkdir_p_cons.
    destruct (assoc x es) as [c |] eqn:E; [| discriminate].
    intros Hw. destruct (mkdir_p c (p ++ q)) as [c' | e] eqn:Ep; [| discriminate].
    intros [= <-].
    destruct (IH _ _ _ _ Hw Ep) as [n' [Hn' Hc']].
    exists n'. split; [exact Hn' |]. simpl. rewrite E, Hc'. reflexivity.
Qed.

Lemma mkdir_p_same_kind n q n' : mkdir_p n q = Ok n' -> same_kind n n'.
Proof.
  destruct n as [c | r es |].
  - destruct q; discriminate.
  - destruct q as [| x q]; simpl.
    + intros [= <-]. eauto.
    + destruct (assoc x es) as [c |].
      * destruct (mkdir_p c q); [| discriminate]. intros [= <-]. eauto.
      * intros [= <-]. eauto.
  - destruct q; discriminate.
Qed.

Lemma mkdir_p_walk : forall p s s',
  mkdir_p s p = Ok s' -> exists r es, walk s' p = Ok (Dir r es).
Proof.
  induction p as [| x p IH]; intros s s'.
  - destruct s as [c | r es |]; simpl; try discriminate.
    intros [= <-]. eauto.
  - destruct s as [c | r es |]; try discriminate.
    rewrite PrepareFacts.mkdir_p_cons.
    destruct (assoc x es) as [c |] eqn:E.
    + destruct (mkdir_p c p) as [c' | e] eqn:Ec; [| discriminate].
      intros [= <-]. rewrite PrepareFacts.walk_cons, assoc_set_child_same.
      eapply IH. exact Ec.
    + intros [= <-]. rewrite PrepareFacts.walk_cons, assoc_set_child_same.
      rewrite PrepareFacts.walk_fresh_dirs. eauto.
Qed.

(** [fs.mkdir] changes nothing at a path that parts ways with its own. *)
Lemma mkdir_p_diverges : forall p q s s',
  mkdir_p s p = Ok s' -> diverges p q = true -> walk s' q = walk s q.
Proof.
  induction p as [| x p IH]; intros q s s' Hm Hd; [discriminate |].
  destruct q as [| b q]; [discriminate |].
  destruct s as [c | r es |]; try discriminate.
  rewrite PrepareFacts.mkdir_p_cons in Hm. simpl in Hd.
  rewrite (PrepareFacts.walk_cons r es b q).
  destruct (String.eqb x b) eqn:Exb.
  - apply String.eqb_eq in Exb. subst b.
    destruct (assoc x es) as [c |] eqn:E.
    + destruct (mkdir_p c p) as [c' | e] eqn:Ec; [| discriminate].
      injection Hm as <-. rewrite PrepareFacts.walk_cons, assoc_set_child_same.
      eapply IH; eassumption.
    + injection Hm as <-. rewrite PrepareFacts.walk_cons, assoc_set_child_same.
      apply PrepareFacts.walk_fresh_dirs_diverges. exact Hd.
  - assert (Hba : String.eqb b x = false) by (rewrite String.eqb_sym; exact Exb).
    destruct (assoc x es) as [c |] eqn:E.
    + destruct (mkdir_p c p) as [c' | e] eqn:Ec; [| discriminate].
      injection Hm as <-.
      rewrite PrepareFacts.walk_cons, (assoc_set_child_other _ _ _ _ Hba).
      reflexivity.
    + injection Hm as <-.
      rewrite PrepareFacts.walk_cons, (assoc_set_child_other _ _ _ _ Hba).
      reflexivity.
Qed.

Lemma ensureDirectory_diverges p q s :
  diverges p q = true -> walk (snd (ensureDirectory p s)) q = walk s q.
Proof.
  intros Hd. unfold ensureDirectory, try_catch, fs_access, fs_mkdir.
  destruct (access s p) as [[] | e]; simpl; [reflexivity |].
  destruct (mkdir_p s p) as [s' | e'] eqn:Em; simpl; [| reflexivity].
  eapply mkdir_p_diverges; eassumption.
Qed.

(** When [ensureDirectory] returns, something is at the path. *)
Lemma ensureDirectory_returned p s s' :
  ensureDirectory p s = (Return tt, s') -> exists m, walk s' p = Ok m.
Proof.
  unfold ensureDirectory, try_catch, fs_access, access, fs_mkdir.
  destruct (walk s p) as [[c | r es |] | e] eqn:Hw.
  - intros [= <-]. eauto.
  - intros [= <-]. eauto.
  - destruct (mkdir_p s p) as [s2 | e2] eqn:Em; [| discriminate].
    intros [= <-]. destruct (mkdir_p_walk _ _ _ Em) as [r [es H]]. eauto.
  - destruct (mkdir_p s p) as [s2 | e2] eqn:Em; [| discriminate].
    intros [= <-]. destruct (mkdir_p_walk _ _ _ Em) as [r [es H]]. eauto.
Qed.

Lemma ensureDirectory_no_fuel p s : fst (ensureDirectory p s) <> Fuel.
Proof.
  unfold ensureDirectory, try_catch, fs_access, fs_mkdir.
  destruct (access s p) as [[] | e]; simpl; [discriminate |].
  destruct (mkdir_p s p); simpl; discriminate.
Qed.

(** A [fs.copyFile] that succeeds stores the bytes of the source file. *)
Lemma copyFile_put s a b s' :
  copyFile s a b = Ok s' ->
  exists c, walk s a = Ok (File c) /\ put s b (File c) = Ok s'.
Proof.
  unfold copyFile.
  destruct (walk s a) as [[c | r es |] | e]; try discriminate.
  intros H. exists c. split; [reflexivity |].
  destruct (walk s b) as [[c' | r' es' |] | []]; try discriminate; exact H.
Qed.

Lemma changed_below_lift tgt x s s1 :
  (exists v, walk s tgt = Ok v) ->
  changed_below (join tgt x) s s1 -> changed_below tgt s s1.
Proof.
  intros [v Hv] [n [v' [Hw [Hp [Hk Hl]]]]].
  destruct (put_app _ _ _ _ _ _ Hv Hp) as [n' [Hn' Hs1]].
  exists v, n'. split; [exact Hv |]. split; [exact Hs1 |].
  split; [eapply put_same_kind; [| exact Hn']; discriminate |].
  intros Hlv. unfold join in Hw. rewrite walk_app, Hv in Hw.
  eapply put_all_listable; [exact Hlv | | exact Hn'].
  apply Hl. eapply all_listable_walk; eassumption.
Qed.

Lemma ensureDirectory_below tgt x s n o s' :
  walk s tgt = Ok n ->
  ensureDirectory (join tgt x) s = (o, s') ->
  changed_below tgt s s' /\
  o <> Fuel /\
  (o = Return tt -> exists m, walk s' (join tgt x) = Ok m).
Proof.
  intros Hw He.
  split; [| split].
  - revert He. unfold ensureDirectory, try_catch, fs_access, fs_mkdir.
    destruct (access s (join tgt x)) as [[] | e].
    + intros [= <- <-]. eapply changed_below_refl. exact Hw.
    + destruct (mkdir_p s (join tgt x)) as [s2 | e2] eqn:Em.
      * intros [= <- <-].
        destruct (mkdir_p_app _ _ _ _ _ Hw Em) as [n' [Hn' Hp]].
        exists n, n'. split; [exact Hw |]. split; [exact Hp |].
        split; [eapply mkdir_p_same_kind; exact Hn' |].
        intros Hl. eapply mkdir_p_all_listable; eassumption.
      * intros [= <- <-]. eapply changed_below_refl. exact Hw.
  - pose proof (ensureDirectory_no_fuel (join tgt x) s) as H.
    rewrite He in H. exact H.
  - intros ->. eapply ensureDirectory_returned. exact He.
Qed.

Lemma copyFile_below tgt x a s n o s' :
  walk s tgt = Ok n ->
  fs_copyFile a (join tgt x) s = (o, s') ->
  changed_below tgt s s'.
Proof.
  intros Hw. unfold fs_copyFile.
  destruct (copyFile s a (join tgt x)) as [s2 | e] eqn:Ec.
  - intros [= <- <-].
    destruct (copyFile_put _ _ _ _ Ec) as [c [_ Hp]].
    destruct (put_app _ _ _ _ _ _ Hw Hp) as [n' [Hn' Hs2]].
    exists n, n'. split; [exact Hw |]. split; [exact Hs2 |].
    split; [eapply put_same_kind; [| exact Hn']; discriminate |].
    intros Hl. apply (put_all_listable _ _ (File c) _ Hl eq_refl Hn').
  - intros [= <- <-]. eapply changed_below_refl. exact Hw.
Qed.

Lemma for_of_below {A} tgt (body : A -> M unit) :
  forall l,
    (forall d s n o s', In d l -> walk s tgt = Ok n -> body d s = (o, s') ->
       changed_below tgt s s') ->
    forall s n o s1,
      walk s tgt = Ok n -> for_of l body s = (o, s1) -> changed_below tgt s s1.
Proof.
  induction l as [| d l IH]; intros Hbody s n o s1 Hw.
  - simpl. unfold ret. intros [= <- <-]. eapply changed_below_refl. exact Hw.
  - simpl. unfold bind at 1.
    destruct (body d s) as [o' s'] eqn:Eb.
    pose proof (Hbody d s n o' s' (or_introl eq_refl) Hw Eb) as Hstep.
    destruct (changed_below_walk _ _ _ Hstep) as [v Hv].
    destruct o' as [u | e |].
    + intros Hl. eapply changed_below_trans; [exact Hstep |].
      eapply IH; [| exact Hv | exact Hl].
      intros; eapply Hbody; [right |..]; eassumption.
    + intros [= <- <-]. exact Hstep.
    + intros [= <- <-]. exact Hstep.
Qed.

(** Whatever its outcome, [copyDirectory] changes the file system only
    below the target. *)
Lemma copyDirectory_below :
  forall fuel src tgt s n o s1,
    walk s tgt = Ok n ->
    copyDirectory fuel src tgt s = (o, s1) ->
    changed_below tgt s s1.
Proof.
  induction fuel as [| fuel IH]; intros src tgt s n o s1 Hw.
  - simpl. intros [= <- <-]. eapply changed_below_refl. exact Hw.
  - simpl. unfold bind at 1, fs_readdir.
    destruct (readdir s src) as [entries | e].
    + apply for_of_below with (n := n); [| exact Hw].
      clear s n o s1 Hw. intros d s n o s1 _ Hw.
      destruct (isDirectory d).
      * unfold bind.
        destruct (ensureDirectory (join tgt (name d)) s) as [o1 s'] eqn:Ee.
        destruct (ensureDirectory_below _ _ _ _ _ _ Hw Ee) as [Hb [Hnf Hex]].
        destruct o1 as [u | e |]; [| intros [= <- <-]; exact Hb | congruence].
        destruct u. destruct (Hex eq_refl) as [m Hm].
        intros Hc. eapply changed_below_trans; [exact Hb |].
        eapply changed_below_lift; [apply (changed_below_walk _ _ _ Hb) |].
        eapply IH; eassumption.
      * intros Hc. eapply copyFile_below; eassumption.
    + intros [= <- <-]. eapply changed_below_refl. exact Hw.
Qed.

(** *** What a successful copy says about the source *)

Section Success.

Variables (fuel : nat) (src tgt : path).

Hypothesis apart : diverges src tgt = true.

(** A subdirectory whose copy returned is a regular tree within the fuel. *)
Hypothesis sub_regular :
  forall src' tgt' s s1 n m,
    diverges src' tgt' = true ->
    walk s tgt' = Ok n -> walk s src' = Ok m -> wf m = true ->
    copyDirectory fuel src' tgt' s = (Return tt, s1) ->
    regular m = true /\ (depth m <= fuel)%nat.

Let body (entry : dirent) : M unit :=
  if isDirectory entry then
    ensureDirectory (join tgt (name entry)) ;;
    copyDirectory fuel (join src (name entry)) (join tgt (name entry))
  else
    fs_copyFile (join src (name entry)) (join tgt (name entry)).

Lemma body_below d s n o s' :
  walk s tgt = Ok n -> body d s = (o, s') -> changed_below tgt s s'.
Proof.
  intros Hw. unfold body. destruct (isDirectory d).
  - unfold bind.
    destruct (ensureDirectory (join tgt (name d)) s) as [o1 s2] eqn:Ee.
    destruct (ensureDirectory_below _ _ _ _ _ _ Hw Ee) as [Hb [Hnf Hex]].
    destruct o1 as [[] | e |]; [| intros [= <- <-]; exact Hb | congruence].
    destruct (Hex eq_refl) as [m Hm].
    intros Hc. eapply changed_below_trans; [exact Hb |].
    eapply changed_below_lift; [apply (changed_below_walk _ _ _ Hb) |].
    eapply copyDirectory_below; eassumption.
  - intros Hc. eapply copyFile_below; eassumption.
Qed.

Lemma body_success_inv s es e s' :
  walk s src = Ok (Dir true es) ->
  (exists n, walk s tgt = Ok n) ->
  assoc (fst e) es = Some (snd e) -> wf (snd e) = true ->
  body (to_dirent e) s = (Return tt, s') ->
  regular (snd e) = true /\ (depth (snd e) <= fuel)%nat.
Proof.
  intros Hsrc [n Htgt] Hin Hwf.
  destruct e as [x c]. simpl in *.
  assert (Hwe : walk s (join src x) = Ok c).
  { rewrite (walk_join _ _ x _ _ Hsrc), Hin. reflexivity. }
  unfold body, to_dirent. simpl.
  destruct c as [c0 | r es' |].
  - intros _. split; [reflexivity | simpl; lia].
  - unfold bind.
    destruct (ensureDirectory (join tgt x) s) as [o1 s2] eqn:Ee.
    destruct (ensureDirectory_below _ _ _ _ _ _ Htgt Ee) as [Hb [Hnf Hex]].
    destruct o1 as [[] | e |]; [| discriminate | congruence].
    destruct (Hex eq_refl) as [m Hm].
    destruct Hb as [n0 [v [_ [Hput _]]]].
    assert (Hwe2 : walk s2 (join src x) = Ok (Dir r es')).
    { rewrite <- Hwe. eapply walk_put_diverges; [exact Hput |].
      unfold join. rewrite <- (app_nil_r tgt). apply diverges_app.
      rewrite diverges_sym. exact apart. }
    intros Hc.
    eapply (sub_regular (join src x) (join tgt x)); try eassumption.
    unfold join. apply diverges_app. exact apart.
  - unfold fs_copyFile, copyFile. rewrite Hwe. discriminate.
Qed.

Lemma loop_success_inv s0 es :
  walk s0 src = Ok (Dir true es) ->
  forall l s s1,
    changed_below tgt s0 s ->
    (forall e, In e l -> assoc (fst e) es = Some (snd e)) ->
    wf_entries l = true ->
    for_of (map to_dirent l) body s = (Return tt, s1) ->
    regular_entries l = true /\ (depth_entries l <= fuel)%nat.
Proof.
  intros Hsrc0.
  induction l as [| e l IHl]; intros s s1 Hch Hin Hwf Hrun.
  - split; [reflexivity | simpl; lia].
  - simpl in Hwf. apply andb_true_iff in Hwf as [Hwf1 Hwf2].
    simpl in Hrun. unfold bind at 1 in Hrun.
    destruct (body (to_dirent e) s) as [o' s'] eqn:Eb.
    destruct o' as [[] | e0 |]; try discriminate.
    destruct (changed_below_walk _ _ _ Hch) as [v Hv].
    assert (Hsrc : walk s src = Ok (Dir true es)).
    { destruct Hch as [n0 [v0 [_ [Hput _]]]].
      rewrite <- Hsrc0. eapply walk_put_diverges; [exact Hput |].
      rewrite diverges_sym. exact apart. }
    destruct (body_success_inv s es e s' Hsrc (ex_intro _ v Hv)
                (Hin e (or_introl eq_refl)) Hwf1 Eb) as [Hr1 Hd1].
    pose proof (body_below _ _ _ _ _ Hv Eb) as Hstep.
    destruct (IHl s' s1) as [Hr2 Hd2]; try assumption.
    { eapply changed_below_trans; eassumption. }
    { intros e' He'. apply Hin. right. exact He'. }
    split; simpl; [rewrite Hr1, Hr2; reflexivity | lia].
Qed.

End Success.

(** If [copyDirectory] returns, the source was a tree of regular files and
    listable directories no deeper than the fuel. *)
Lemma copyDirectory_success_inv :
  forall fuel src tgt s s1 n m,
    diverges src tgt = true ->
    walk s tgt = Ok n -> walk s src = Ok m -> wf m = true ->
    copyDirectory fuel src tgt s = (Return tt, s1) ->
    regular m = true /\ (depth m <= fuel)%nat.
Proof.
  induction fuel as [| fuel IH]; intros src tgt s s1 n m Hdiv Htgt Hsrc Hwf.
  - simpl. discriminate.
  - simpl. unfold bind at 1, fs_readdir, readdir. rewrite Hsrc.
    destruct m as [c | [|] es |]; try discriminate.
    intros Hrun.
    rewrite wf_Dir in Hwf. apply andb_true_iff in Hwf as [Hdn Hwe].
    destruct (loop_success_inv fuel src tgt Hdiv IH s es Hsrc es s s1) as [Hr Hd];
      try assumption.
    { eapply changed_below_refl. exact Htgt. }
    { intros e He. apply assoc_in_distinct; assumption. }
    rewrite regular_Dir, depth_Dir, Hdn, Hr. split; [reflexivity | lia].
Qed.

Lemma copyDirectory_success_listed fuel src tgt s s1 :
  copyDirectory fuel src tgt s = (Return tt, s1) ->
  exists es, walk s src = Ok (Dir true es).
Proof.
  destruct fuel as [| fuel]; simpl; [discriminate |].
  unfold bind at 1, fs_readdir, readdir.
  destruct (walk s src) as [[c | [|] es |] | e]; try discriminate.
  eauto.
Qed.

(** *** Where a successful copy puts the files *)

Lemma diverges_join_other : forall tgt x y rel,
  String.eqb y x = false -> diverges (join tgt y) (join tgt x ++ rel) = true.
Proof.
  unfold join. induction tgt as [| a tgt IH]; intros x y rel H; simpl.
  - rewrite H. reflexivity.
  - rewrite String.eqb_refl. apply IH. exact H.
Qed.

Section Copied.

Variables (fuel : nat) (src tgt : path).

Hypothesis apart : diverges src tgt = true.

(** The files of a subdirectory whose copy returned are at the target. *)
Hypothesis sub_copied :
  forall src' tgt' s s1 n m,
    diverges src' tgt' = true ->
    walk s tgt' = Ok n -> walk s src' = Ok m -> wf m = true ->
    copyDirectory fuel src' tgt' s = (Return tt, s1) ->
    forall rel c, walk m rel = Ok (File c) -> walk s1 (tgt' ++ rel) = Ok (File c).

Let body (entry : dirent) : M unit :=
  if isDirectory entry then
    ensureDirectory (join tgt (name entry)) ;;
    copyDirectory fuel (join src (name entry)) (join tgt (name entry))
  else
    fs_copyFile (join src (name entry)) (join tgt (name entry)).

(** One round of the loop writes only below the entry of its own name. *)
Lemma body_apart d s o s' q :
  body d s = (o, s') ->
  diverges (join tgt (name d)) q = true ->
  walk s' q = walk s q.
Proof.
  intros Hb Hd. revert Hb. unfold body. destruct (isDirectory d).
  - unfold bind.
    pose proof (ensureDirectory_diverges (join tgt (name d)) q s Hd) as Hf.
    destruct (ensureDirectory (join tgt (name d)) s) as [o1 s2] eqn:Ee.
    simpl in Hf.
    destruct o1 as [[] | e |]; [| intros [= <- <-]; exact Hf | intros [= <- <-]; exact Hf].
    destruct (ensureDirectory_returned _ _ _ Ee) as [m Hm].
    intros Hc.
    destruct (copyDirectory_below _ _ _ _ _ _ _ Hm Hc) as [n0 [v [_ [Hp _]]]].
    rewrite (walk_put_diverges _ _ _ _ _ Hp Hd). exact Hf.
  - unfold fs_copyFile.
    destruct (copyFile s (join src (name d)) (join tgt (name d))) as [s2 | e] eqn:Ec.
    + intros [= <- <-]. destruct (copyFile_put _ _ _ _ Ec) as [c [_ Hp]].
      eapply walk_put_diverges; eassumption.
    + intros [= <- <-]. reflexivity.
Qed.

Lemma loop_apart q :
  forall l s o s1,
    (forall d, In d l -> diverges (join tgt (name d)) q = true) ->
    for_of l body s = (o, s1) -> walk s1 q = walk s q.
Proof.
  induction l as [| d l IH]; intros s o s1 Hall.
  - simpl. unfold ret. intros [= <- <-]. reflexivity.
  - simpl. unfold bind at 1.
    destruct (body d s) as [o' s'] eqn:Eb.
    pose proof (body_apart _ _ _ _ _ Eb (Hall d (or_introl eq_refl))) as Hstep.
    destruct o' as [u | e |].
    + intros Hl. rewrite <- Hstep. eapply IH; [| exact Hl].
      intros d' Hd'. apply Hall. right. exact Hd'.
    + intros [= <- <-]. exact Hstep.
    + intros [= <- <-]. exact Hstep.
Qed.

(** One entry whose round returned: its files are at the target. *)
Lemma body_copied s es e s' :
  walk s src = Ok (Dir true es) ->
  (exists n, walk s tgt = Ok n) ->
  assoc (fst e) es = Some (snd e) -> wf (snd e) = true ->
  body (to_dirent e) s = (Return tt, s') ->
  forall rel c,
    walk (snd e) rel = Ok (File c) ->
    walk s' (join tgt (fst e) ++ rel) = Ok (File c).
Proof.
  intros Hsrc [n Htgt] Hin Hwf.
  destruct e as [x cx]. simpl in *.
  assert (Hwe : walk s (join src x) = Ok cx).
  { rewrite (walk_join _ _ x _ _ Hsrc), Hin. reflexivity. }
  unfold body, to_dirent. simpl.
  destruct cx as [c0 | r es' |].
  - unfold fs_copyFile.
    destruct (copyFile s (join src x) (join tgt x)) as [s2 | e] eqn:Ec; [| discriminate].
    intros [= <-] rel c Hrel.
    destruct (copyFile_put _ _ _ _ Ec) as [c1 [Ha Hp]].
    rewrite Hwe in Ha. injection Ha as <-.
    destruct rel as [| y rel]; simpl in Hrel; [| discriminate].
    injection Hrel as <-. rewrite app_nil_r.
    eapply walk_put_same. exact Hp.
  - unfold bind.
    destruct (ensureDirectory (join tgt x) s) as [o1 s2] eqn:Ee.
    destruct (ensureDirectory_below _ _ _ _ _ _ Htgt Ee) as [Hb [Hnf Hex]].
    destruct o1 as [[] | e |]; [| discriminate | congruence].
    destruct (Hex eq_refl) as [m Hm].
    destruct Hb as [n0 [v [_ [Hput _]]]].
    assert (Hwe2 : walk s2 (join src x) = Ok (Dir r es')).
    { rewrite <- Hwe. eapply walk_put_diverges; [exact Hput |].
      unfold join. rewrite <- (app_nil_r tgt). apply diverges_app.
      rewrite diverges_sym. exact apart. }
    intros Hc.
    eapply (sub_copied (join src x) (join tgt x)); try eassumption.
    unfold join. apply diverges_app. exact apart.
  - unfold fs_copyFile, copyFile. rewrite Hwe. discriminate.
Qed.

Lemma loop_copied s0 es :
  walk s0 src = Ok (Dir true es) ->
  forall l s s1,
    changed_below tgt s0 s ->
    (forall e, In e l -> assoc (fst e) es = Some (snd e)) ->
    wf_entries l = true ->
    distinct_names l = true ->
    for_of (map to_dirent l) body s = (Return tt, s1) ->
    forall e, In e l ->
      forall rel c,
        walk (snd e) rel = Ok (File c) ->
        walk s1 (join tgt (fst e) ++ rel) = Ok (File c).
Proof.
  intros Hsrc0.
  induction l as [| e0 l IHl]; intros s s1 Hch Hin Hwf Hdist Hrun e He; [destruct He |].
  simpl in Hwf. apply andb_true_iff in Hwf as [Hwf1 Hwf2].
  simpl in Hdist. apply andb_true_iff in Hdist as [Hfresh Hdist].
  simpl in Hrun. unfold bind at 1 in Hrun.
  destruct (body (to_dirent e0) s) as [o' s'] eqn:Eb.
  destruct o' as [[] | e1 |]; try discriminate.
  destruct (changed_below_walk _ _ _ Hch) as [v Hv].
  assert (Hsrc : walk s src = Ok (Dir true es)).
  { destruct Hch as [n0 [v0 [_ [Hput _]]]].
    rewrite <- Hsrc0. eapply walk_put_diverges; [exact Hput |].
    rewrite diverges_sym. exact apart. }
  pose proof (body_below fuel src tgt _ _ _ _ _ Hv Eb) as Hstep.
  destruct He as [<- | He].
  - intros rel c Hrel.
    assert (Hall : forall d, In d (map to_dirent l) ->
                     diverges (join tgt (name d)) (join tgt (fst e0) ++ rel) = true).
    { intros d Hd. apply in_map_iff in Hd as [e' [<- He']]. simpl.
      apply diverges_join_other. rewrite String.eqb_sym.
      eapply fresh_in_in; eassumption. }
    rewrite (loop_apart _ _ _ _ _ Hall Hrun).
    eapply body_copied; try eassumption; [eauto |].
    apply Hin. left. reflexivity.
  - eapply (IHl s' s1); try eassumption.
    + eapply changed_below_trans; eassumption.
    + intros e' He'. apply Hin. right. exact He'.
Qed.

End Copied.

(** If [copyDirectory] returns, every regular file below the source is at
    the same relative path below the target, with the same bytes, whatever
    the target held before. *)
Lemma copyDirectory_copies_files :
  forall fuel src tgt s s1 n m,
    diverges src tgt = true ->
    walk s tgt = Ok n -> walk s src = Ok m -> wf m = true ->
    copyDirectory fuel src tgt s = (Return tt, s1) ->
    forall rel c, walk m rel = Ok (File c) -> walk s1 (tgt ++ rel) = Ok (File c).
Proof.
  induction fuel as [| fuel IH]; intros src tgt s s1 n m Hdiv Htgt Hsrc Hwf.
  - simpl. discriminate.
  - simpl. unfold bind at 1, fs_readdir, readdir. rewrite Hsrc.
    destruct m as [c0 | [|] es |]; try discriminate.
    intros Hrun rel c Hrel.
    rewrite wf_Dir in Hwf. apply andb_true_iff in Hwf as [Hdn Hwe].
    destruct rel as [| x rel]; [simpl in Hrel; discriminate |].
    rewrite PrepareFacts.walk_cons in Hrel.
    destruct (assoc x es) as [cx |] eqn:E; [| discriminate].
    pose proof (loop_copied fuel src tgt Hdiv IH s es Hsrc es s s1
                  (changed_below_refl _ _ _ Htgt)
                  (fun e He => assoc_in_distinct e es Hdn He)
                  Hwe Hdn Hrun (x, cx) (assoc_some_in _ _ _ E) rel c Hrel) as H.
    simpl in H. unfold join in H. rewrite <- app_assoc in H. exact H.
Qed.

End FrameFacts.

(** ** Entries, and what a removal leaves of them *)

Module EntryFacts.
Import Fs Tree Manager TreeFacts PutFacts PrepareFacts FrameFacts.
Open Scope list_scope.

Lemma assoc_none_iff x l : assoc x l = None <-> ~ In x (map fst l).
Proof.
  induction l as [| [y n] l IH]; simpl; [tauto |].
  destruct (String.eqb x y) eqn:E.
  - apply String.eqb_eq in E. subst y. split; [discriminate | intros H; exfalso; auto].
  - apply String.eqb_neq in E. rewrite IH. split.
    + intros H [Hy | Hin]; [congruence | auto].
    + intros H Hin. apply H. right. exact Hin.
Qed.

Lemma assoc_none_names l1 l2 x :
  map fst l1 = map fst l2 -> assoc x l1 = None -> assoc x l2 = None.
Proof. intros Hn. rewrite !assoc_none_iff, Hn. tauto. Qed.

Lemma fresh_in_iff x l : fresh_in x l = true <-> ~ In x (map fst l).
Proof.
  induction l as [| e l IH]; simpl; [tauto |].
  rewrite andb_true_iff, IH, negb_true_iff, String.eqb_neq. split.
  - intros [H1 H2] [H | H]; [congruence | auto].
  - intros H. split; [intros ->; apply H; left; reflexivity |].
    intros Hin. apply H. right. exact Hin.
Qed.

Lemma distinct_names_iff l : distinct_names l = true <-> NoDup (map fst l).
Proof.
  induction l as [| e l IH]; simpl.
  - split; [constructor | reflexivity].
  - rewrite andb_true_iff, fresh_in_iff, IH. split.
    + intros [H1 H2]. constructor; assumption.
    + intros H. inversion H; subst. split; assumption.
Qed.

Lemma names_set_child_in x v l c :
  assoc x l = Some c -> map fst (set_child x v l) = map fst l.
Proof.
  revert c. induction l as [| [y n] l IH]; intros c; simpl; [discriminate |].
  destruct (String.eqb x y) eqn:E; simpl; [reflexivity |].
  intros H. rewrite (IH _ H). reflexivity.
Qed.

Lemma names_set_child_new x v l :
  assoc x l = None -> map fst (set_child x v l) = map fst l ++ [x].
Proof.
  intros H. rewrite (set_child_fresh _ _ _ H), map_app. reflexivity.
Qed.

Lemma names_set_child x v v' l1 l2 :
  map fst l1 = map fst l2 ->
  map fst (set_child x v l1) = map fst (set_child x v' l2).
Proof.
  intros Hn.
  destruct (assoc x l1) as [c |] eqn:E1.
  - rewrite (names_set_child_in _ _ _ _ E1).
    destruct (assoc x l2) as [c2 |] eqn:E2.
    + rewrite (names_set_child_in _ _ _ _ E2). exact Hn.
    + exfalso. apply (assoc_none_names l2 l1) in E2; [congruence | auto].
  - rewrite (names_set_child_new _ _ _ E1).
    rewrite (names_set_child_new _ _ _ (assoc_none_names _ _ _ Hn E1)), Hn.
    reflexivity.
Qed.

Lemma distinct_names_set_child x v l :
  distinct_names l = true -> distinct_names (set_child x v l) = true.
Proof.
  rewrite !distinct_names_iff.
  destruct (assoc x l) as [c |] eqn:E.
  - rewrite (names_set_child_in _ _ _ _ E). tauto.
  - rewrite (names_set_child_new _ _ _ E). intros H.
    apply NoDup_app; [exact H | constructor; [intros [] | constructor] |].
    intros y Hy [<- | []]. apply assoc_none_iff in E. contradiction.
Qed.

(** Two listings without repeated names are equal when they have the same
    names in the same order and the same node under every name. *)
Lemma entries_eq : forall l1 l2,
  distinct_names l1 = true ->
  map fst l1 = map fst l2 ->
  (forall y, In y (map fst l1) -> assoc y l1 = assoc y l2) ->
  l1 = l2.
Proof.
  induction l1 as [| [x v] l1 IH]; intros [| [x2 v2] l2] Hd Hn Ha; try discriminate.
  - reflexivity.
  - simpl in Hn. injection Hn as -> Hn.
    simpl in Hd. apply andb_true_iff in Hd as [Hf Hd].
    pose proof (Ha x2 (or_introl eq_refl)) as Hx. simpl in Hx.
    rewrite String.eqb_refl in Hx. injection Hx as ->.
    f_equal. apply IH; [exact Hd | exact Hn |].
    intros y Hy. specialize (Ha y (or_intror Hy)). simpl in Ha.
    destruct (String.eqb y x2) eqn:E; [| exact Ha].
    apply String.eqb_eq in E. subst y. simpl in Hf.
    apply fresh_in_iff in Hf. contradiction.
Qed.

Lemma prune_entries_app l1 l2 :
  prune_entries (l1 ++ l2) = prune_entries l1 ++ prune_entries l2.
Proof.
  induction l1 as [| e l1 IH]; simpl; [reflexivity |].
  destruct (prune (snd e)); simpl; rewrite IH; reflexivity.
Qed.

Lemma names_prune_entries_sub l x :
  In x (map fst (prune_entries l)) -> In x (map fst l).
Proof.
  induction l as [| e l IH]; simpl; [tauto |].
  destruct (prune (snd e)); simpl; intuition.
Qed.

Lemma assoc_prune_entries l x :
  distinct_names l = true ->
  assoc x (prune_entries l) =
    match assoc x l with
    | Some c => prune c
    | None => None
    end.
Proof.
  induction l as [| [y n] l IH]; simpl; [reflexivity |].
  intros Hd. apply andb_true_iff in Hd as [Hf Hd]. simpl in Hf.
  destruct (prune n) as [n' |] eqn:Ep; simpl.
  - destruct (String.eqb x y); [exact (eq_sym Ep) |]. apply IH. exact Hd.
  - destruct (String.eqb x y) eqn:E; [| apply IH; exact Hd].
    apply String.eqb_eq in E. subst y. rewrite Ep.
    apply assoc_none_iff. intros Hin. apply names_prune_entries_sub in Hin.
    apply fresh_in_iff in Hf. contradiction.
Qed.

Lemma prune_entries_length l : (length (prune_entries l) <= length l)%nat.
Proof.
  induction l as [| e l IH]; simpl; [lia |].
  destruct (prune (snd e)); simpl; lia.
Qed.

(** In a listing that a removal leaves as it is, every entry stays as it
    is. *)
Lemma stuck_entries : forall l,
  prune_entries l = l -> forall y c, In (y, c) l -> prune c = Some c.
Proof.
  induction l as [| [x n] l IH]; intros Hs y c; simpl; [tauto |].
  simpl in Hs. destruct (prune n) as [n' |] eqn:Ep.
  - injection Hs as -> Hs. intros [[= <- <-] | Hin]; [exact Ep |].
    eapply IH; eassumption.
  - exfalso. pose proof (prune_entries_length l) as Hl.
    rewrite Hs in Hl. simpl in Hl. lia.
Qed.

Lemma prune_false es :
  prune (Dir false es) = match es with [] => None | _ => Some (Dir false es) end.
Proof. destruct es; reflexivity. Qed.

Lemma prune_kind n n' : prune n = Some n' -> exists r es, n' = Dir r es /\ es <> [].
Proof.
  destruct n as [c | [|] es |]; try discriminate.
  - rewrite prune_Dir. destruct (prune_entries es) as [| e l]; [discriminate |].
    intros [= <-]. eexists _, _. split; [reflexivity | discriminate].
  - rewrite prune_false. destruct es; [discriminate |].
    intros [= <-]. eexists _, _. split; [reflexivity | discriminate].
Qed.

(** What a removal leaves is left as it is by another removal. *)
Lemma prune_idem : forall k n n',
  (depth n <= k)%nat -> prune n = Some n' -> prune n' = Some n'.
Proof.
  induction k as [| k IH]; intros [c | [|] es |] n' Hd; try discriminate.
  - rewrite depth_Dir in Hd. lia.
  - rewrite prune_false. destruct es; [discriminate |]. intros [= <-]. reflexivity.
  - rewrite depth_Dir in Hd. rewrite prune_Dir.
    assert (Hes : prune_entries (prune_entries es) = prune_entries es).
    { assert (Hk : (depth_entries es <= k)%nat) by lia. clear Hd.
      induction es as [| e es IHes]; [reflexivity |].
      simpl in Hk. simpl.
      destruct (prune (snd e)) as [c' |] eqn:Ep; simpl.
      - rewrite (IH (snd e) c' ltac:(lia) Ep). rewrite IHes by lia. reflexivity.
      - apply IHes. lia. }
    destruct (prune_entries es) as [| e l] eqn:E; [discriminate |].
    intros [= <-]. rewrite prune_Dir, Hes. reflexivity.
  - rewrite prune_false. destruct es; [discriminate |]. intros [= <-]. reflexivity.
Qed.

End EntryFacts.

(** ** copyDirectory computes the graft *)

Module GraftRefine.
Import Fs Tree Manager TreeFacts PutFacts CopyFacts PrepareFacts FrameFacts Graft.
Open Scope list_scope.

Lemma mkdir_p_app_eq : forall p s n q,
  walk s p = Ok n ->
  mkdir_p s (p ++ q) =
    match mkdir_p n q with
    | Ok n' => put s p n'
    | Err e => Err e
    end.
Proof.
  induction p as [| x p IH]; intros s n q.
  - simpl. intros [= ->]. destruct (mkdir_p n q); reflexivity.
  - destruct s as [c | r es |]; try discriminate.
    rewrite walk_cons. simpl app. rewrite mkdir_p_cons.
    destruct (assoc x es) as [c |] eqn:E; [| discriminate].
    intros Hw. rewrite (IH _ _ q Hw).
    destruct (mkdir_p n q) as [n' | e]; [| reflexivity].
    rewrite put_cons, E. reflexivity.
Qed.

Lemma put_app_eq : forall p s n q v,
  walk s p = Ok n ->
  put s (p ++ q) v =
    match put n q v with
    | Ok n' => put s p n'
    | Err e => Err e
    end.
Proof.
  induction p as [| x p IH]; intros s n q v.
  - simpl. intros [= ->]. destruct (put n q v); reflexivity.
  - destruct s as [c | r es |]; try discriminate.
    rewrite walk_cons. simpl app. rewrite put_cons.
    destruct (assoc x es) as [c |] eqn:E; [| discriminate].
    intros Hw. rewrite (IH _ _ q v Hw).
    destruct (put n q v) as [n' | e]; [| reflexivity].
    rewrite put_cons, E. reflexivity.
Qed.

Lemma put_child s tgt rt ents x v :
  walk s tgt = Ok (Dir rt ents) ->
  exists s1, put s (join tgt x) v = Ok s1 /\
             put s tgt (Dir rt (set_child x v ents)) = Ok s1.
Proof.
  intros Hw.
  destruct (put_ok_of_walk _ _ _ (Dir rt (set_child x v ents)) Hw) as [s1 Hs1].
  exists s1. split; [| exact Hs1].
  rewrite (put_join _ _ _ _ x v Hw). exact Hs1.
Qed.

Lemma ensureDirectory_present s p m :
  walk s p = Ok m -> m <> Dangling -> ensureDirectory p s = (Return tt, s).
Proof.
  intros Hw Hm. unfold ensureDirectory, try_catch, fs_access, access.
  rewrite Hw. destruct m; [reflexivity | reflexivity | congruence].
Qed.

Section RefineLoop.

Variables (fuel : nat) (src tgt : path).

Hypothesis apart : diverges src tgt = true.

Hypothesis sub_refines :
  forall src' tgt' s m t,
    diverges src' tgt' = true -> wf m = true ->
    walk s src' = Ok m -> walk s tgt' = Ok t ->
    exists s1,
      copyDirectory fuel src' tgt' s = (fst (graft fuel m t), s1) /\
      put s tgt' (snd (graft fuel m t)) = Ok s1.

Let body (entry : dirent) : M unit :=
  if isDirectory entry then
    ensureDirectory (join tgt (name entry)) ;;
    copyDirectory fuel (join src (name entry)) (join tgt (name entry))
  else
    fs_copyFile (join src (name entry)) (join tgt (name entry)).

(** A subdirectory copied into an entry [tc] that is there. *)
Lemma sub_into_present s rt ents x c tc :
  walk s tgt = Ok (Dir rt ents) ->
  walk s (join src x) = Ok c -> wf c = true ->
  assoc x ents = Some tc -> tc <> Dangling ->
  exists s1,
    (ensureDirectory (join tgt x) ;;
     copyDirectory fuel (join src x) (join tgt x)) s
      = (fst (graft fuel c tc), s1) /\
    put s tgt (Dir rt (set_child x (snd (graft fuel c tc)) ents)) = Ok s1.
Proof.
  intros Htgt Hwe Hwf Ex Hnd.
  assert (Hwt : walk s (join tgt x) = Ok tc)
    by (rewrite (walk_join _ _ x _ _ Htgt), Ex; reflexivity).
  assert (Hdx : diverges (join src x) (join tgt x) = true)
    by (unfold join; apply diverges_app; exact apart).
  unfold bind. rewrite (ensureDirectory_present _ _ _ Hwt Hnd).
  destruct (sub_refines (join src x) (join tgt x) s c tc Hdx Hwf Hwe Hwt) as [s1 [Hc Hp]].
  rewrite Hc. exists s1. split; [reflexivity |].
  rewrite <- (put_join _ _ _ _ x _ Htgt). exact Hp.
Qed.

Lemma body_graft s es rt ents e :
  walk s src = Ok (Dir true es) ->
  walk s tgt = Ok (Dir rt ents) ->
  assoc (fst e) es = Some (snd e) -> wf (snd e) = true ->
  exists s1,
    body (to_dirent e) s
      = (fst (graft_entry (graft fuel) (snd e) (assoc (fst e) ents)), s1) /\
    put s tgt (Dir rt (upd (fst e)
                         (snd (graft_entry (graft fuel) (snd e) (assoc (fst e) ents)))
                         ents)) = Ok s1.
Proof.
  intros Hsrc Htgt Hin Hwf.
  destruct e as [x c]. simpl in *.
  assert (Hwe : walk s (join src x) = Ok c).
  { rewrite (walk_join _ _ x _ _ Hsrc), Hin. reflexivity. }
  pose proof (walk_join _ _ x _ _ Htgt) as Hwt.
  assert (Hsame : put s tgt (Dir rt ents) = Ok s) by (apply put_walk_id; exact Htgt).
  unfold body, to_dirent. simpl.
  destruct c as [content | r' es' |].
  - (* a file *)
    unfold fs_copyFile, copyFile. rewrite Hwe, Hwt.
    destruct (put_child s tgt rt ents x (File content) Htgt) as [s1 [H1 H2]].
    destruct (assoc x ents) as [[c1 | r1 es1 |] |] eqn:Ex; simpl;
      rewrite ?H1; eauto.
  - (* a directory *)
    destruct (assoc x ents) as [tc |] eqn:Ex.
    + destruct tc as [c1 | r1 es1 |].
      * destruct (sub_into_present s rt ents x (Dir r' es') (File c1)
                    Htgt Hwe Hwf Ex ltac:(discriminate)) as [s1 [H1 H2]].
        rewrite H1. exists s1. split; [| simpl].
        { simpl. destruct (graft fuel (Dir r' es') (File c1)); reflexivity. }
        destruct (graft fuel (Dir r' es') (File c1)); exact H2.
      * destruct (sub_into_present s rt ents x (Dir r' es') (Dir r1 es1)
                    Htgt Hwe Hwf Ex ltac:(discriminate)) as [s1 [H1 H2]].
        rewrite H1. exists s1. split; [| simpl].
        { simpl. destruct (graft fuel (Dir r' es') (Dir r1 es1)); reflexivity. }
        destruct (graft fuel (Dir r' es') (Dir r1 es1)); exact H2.
      * (* a dangling link in the way *)
        exists s. split; [| exact Hsame].
        unfold bind, ensureDirectory, try_catch, fs_access, access, fs_mkdir.
        rewrite Hwt. unfold join.
        rewrite (mkdir_p_app_eq _ _ _ [x] Htgt), mkdir_p_cons, Ex. reflexivity.
    + (* the directory is made first *)
      destruct (ensureDirectory_new _ _ _ _ x Htgt Ex) as [s0 [He Hput0]].
      rewrite <- (set_child_fresh _ (Dir true []) _ Ex) in Hput0.
      pose proof (walk_put_same _ _ _ _ Hput0) as Htgt0.
      assert (Hwe0 : walk s0 (join src x) = Ok (Dir r' es')).
      { rewrite <- Hwe. eapply walk_put_diverges; [exact Hput0 |].
        unfold join. rewrite <- (app_nil_r tgt). apply diverges_app.
        rewrite diverges_sym. exact apart. }
      destruct (sub_into_present s0 rt (set_child x (Dir true []) ents) x (Dir r' es')
                  (Dir true []) Htgt0 Hwe0 Hwf (assoc_set_child_same _ _ _)
                  ltac:(discriminate)) as [s1 [H1 H2]].
      rewrite set_child_twice in H2.
      rewrite (put_twice _ _ _ _ _ Hput0) in H2.
      exists s1. split.
      * unfold bind in *. rewrite He.
        rewrite (ensureDirectory_present s0 (join tgt x) (Dir true [])) in H1
          by (try discriminate;
              rewrite (walk_join _ _ x _ _ Htgt0), assoc_set_child_same; reflexivity).
        rewrite H1. simpl.
        destruct (graft fuel (Dir r' es') (Dir true [])); reflexivity.
      * simpl. destruct (graft fuel (Dir r' es') (Dir true [])); exact H2.
  - (* a dangling link *)
    exists s. split; [| exact Hsame].
    unfold fs_copyFile, copyFile. rewrite Hwe. reflexivity.
Qed.

Lemma loop_graft s0 es rt :
  walk s0 src = Ok (Dir true es) ->
  forall l s ents,
    changed_below tgt s0 s ->
    walk s tgt = Ok (Dir rt ents) ->
    (forall e, In e l -> assoc (fst e) es = Some (snd e)) ->
    wf_entries l = true ->
    exists s1,
      for_of (map to_dirent l) body s = (fst (graft_loop (graft fuel) l ents), s1) /\
      put s tgt (Dir rt (snd (graft_loop (graft fuel) l ents))) = Ok s1.
Proof.
  intros Hsrc0.
  induction l as [| e l IHl]; intros s ents Hch Htgt Hin Hwf.
  - simpl. exists s. split; [reflexivity |]. apply put_walk_id. exact Htgt.
  - simpl in Hwf. apply andb_true_iff in Hwf as [Hwf1 Hwf2].
    assert (Hsrc : walk s src = Ok (Dir true es)).
    { destruct Hch as [n0 [v0 [_ [Hput _]]]].
      rewrite <- Hsrc0. eapply walk_put_diverges; [exact Hput |].
      rewrite diverges_sym. exact apart. }
    destruct (body_graft s es rt ents e Hsrc Htgt (Hin e (or_introl eq_refl)) Hwf1)
      as [s1 [Hb Hp1]].
    simpl. unfold bind at 1. rewrite Hb.
    destruct (graft_entry (graft fuel) (snd e) (assoc (fst e) ents)) as [o r] eqn:Ee.
    simpl in *.
    destruct o as [[] | err |]; try (exists s1; split; [reflexivity | exact Hp1]).
    pose proof (walk_put_same _ _ _ _ Hp1) as Htgt1.
    destruct (IHl s1 (upd (fst e) r ents)) as [s2 [Hl Hp2]]; try assumption.
    { eapply changed_below_trans; [exact Hch |].
      eapply (body_below fuel src tgt); [exact Htgt | exact Hb]. }
    { intros e' He'. apply Hin. right. exact He'. }
    exists s2. split; [exact Hl |].
    rewrite (put_twice _ _ _ _ _ Hp1) in Hp2. exact Hp2.
Qed.

(** The first round of the loop on a target that is not a directory. *)
Lemma body_blocked s es t e :
  walk s src = Ok (Dir true es) ->
  walk s tgt = Ok t ->
  (forall r ents, t <> Dir r ents) ->
  assoc (fst e) es = Some (snd e) ->
  body (to_dirent e) s = (Throw (graft_blocked (snd e) t), s).
Proof.
  intros Hsrc Htgt Hnd Hin. destruct e as [x c]. simpl in *.
  assert (Hwe : walk s (join src x) = Ok c).
  { rewrite (walk_join _ _ x _ _ Hsrc), Hin. reflexivity. }
  assert (Hwt : walk s (join tgt x) = walk t [x])
    by (unfold join; rewrite walk_app, Htgt; reflexivity).
  unfold body, to_dirent. simpl.
  destruct t as [c1 | r1 es1 |]; [| exfalso; eapply Hnd; reflexivity |].
  - destruct c as [content | r' es' |]; simpl.
    + unfold fs_copyFile, copyFile. rewrite Hwe, Hwt. reflexivity.
    + unfold bind, ensureDirectory, try_catch, fs_access, access, fs_mkdir.
      rewrite Hwt. simpl. unfold join.
      rewrite (mkdir_p_app_eq _ _ _ [x] Htgt). reflexivity.
    + unfold fs_copyFile, copyFile. rewrite Hwe. reflexivity.
  - destruct c as [content | r' es' |]; simpl.
    + unfold fs_copyFile, copyFile. rewrite Hwe, Hwt. simpl. unfold join.
      rewrite (put_app_eq _ _ _ [x] _ Htgt). reflexivity.
    + unfold bind, ensureDirectory, try_catch, fs_access, access, fs_mkdir.
      rewrite Hwt. simpl. unfold join.
      rewrite (mkdir_p_app_eq _ _ _ [x] Htgt). reflexivity.
    + unfold fs_copyFile, copyFile. rewrite Hwe. reflexivity.
Qed.

Lemma loop_blocked s es t e l :
  walk s src = Ok (Dir true es) ->
  walk s tgt = Ok t ->
  (forall r ents, t <> Dir r ents) ->
  assoc (fst e) es = Some (snd e) ->
  for_of (map to_dirent (e :: l)) body s = (Throw (graft_blocked (snd e) t), s).
Proof.
  intros Hsrc Htgt Hnd Hin. simpl. unfold bind at 1.
  rewrite (body_blocked s es t e Hsrc Htgt Hnd Hin). reflexivity.
Qed.

End RefineLoop.

(** With the source outside the target, [copyDirectory] is [graft] run
    on the node at the source and the node at the target. *)
Lemma copyDirectory_graft :
  forall fuel src tgt s m t,
    diverges src tgt = true -> wf m = true ->
    walk s src = Ok m -> walk s tgt = Ok t ->
    exists s1,
      copyDirectory fuel src tgt s = (fst (graft fuel m t), s1) /\
      put s tgt (snd (graft fuel m t)) = Ok s1.
Proof.
  induction fuel as [| fuel IH]; intros src tgt s m t Hdiv Hwf Hsrc Htgt.
  - simpl. exists s. split; [reflexivity | apply put_walk_id; exact Htgt].
  - assert (Hsame : put s tgt t = Ok s) by (apply put_walk_id; exact Htgt).
    simpl copyDirectory. unfold bind at 1, fs_readdir, readdir. rewrite Hsrc.
    destruct m as [c0 | [|] es |]; simpl graft;
      try (exists s; split; [reflexivity | exact Hsame]).
    rewrite wf_Dir in Hwf. apply andb_true_iff in Hwf as [Hdn Hwe].
    destruct t as [c1 | rt ents |].
    + destruct es as [| e es'].
      * exists s. split; [reflexivity | exact Hsame].
      * exists s. split; [| exact Hsame].
        apply (loop_blocked fuel src tgt s (e :: es') (File c1) e es' Hsrc Htgt);
          [discriminate |].
        apply assoc_in_distinct; [exact Hdn | left; reflexivity].
    + destruct (loop_graft fuel src tgt Hdiv IH s es rt Hsrc es s ents
                  (changed_below_refl _ _ _ Htgt) Htgt
                  (fun e He => assoc_in_distinct e es Hdn He) Hwe) as [s1 [Hl Hp]].
      exists s1.
      destruct (graft_loop (graft fuel) es ents) as [o ents']. simpl in *.
      split; [exact Hl | exact Hp].
    + destruct es as [| e es'].
      * exists s. split; [reflexivity | exact Hsame].
      * exists s. split; [| exact Hsame].
        apply (loop_blocked fuel src tgt s (e :: es') Dangling e es' Hsrc Htgt);
          [discriminate |].
        apply assoc_in_distinct; [exact Hdn | left; reflexivity].
Qed.

End GraftRefine.

(** ** The graft and what a removal leaves *)

Module GraftFacts.
Import Fs Tree Manager TreeFacts PutFacts PrepareFacts FrameFacts Graft EntryFacts.
Open Scope list_scope.

Lemma removable_false n : removable n = false <-> exists n', prune n = Some n'.
Proof.
  unfold removable. destruct (prune n); split; try discriminate; eauto.
  intros [n' H]. discriminate.
Qed.

Lemma fresh_in_cons_false x e l :
  fresh_in x (e :: l) = false <-> x = fst e \/ fresh_in x l = false.
Proof.
  simpl. rewrite andb_false_iff, negb_false_iff, String.eqb_eq. tauto.
Qed.

Lemma fresh_in_cons_true x e l :
  fresh_in x (e :: l) = true <-> x <> fst e /\ fresh_in x l = true.
Proof.
  simpl. rewrite andb_true_iff, negb_true_iff, String.eqb_neq. tauto.
Qed.

Lemma assoc_upd_same x r ents :
  assoc x (upd x r ents) = match r with Some v => Some v | None => assoc x ents end.
Proof. destruct r; simpl; [apply assoc_set_child_same | reflexivity]. Qed.

Lemma assoc_upd_other x y r ents :
  y <> x -> assoc y (upd x r ents) = assoc y ents.
Proof.
  intros H. destruct r; simpl; [| reflexivity].
  apply assoc_set_child_other. apply String.eqb_neq. exact H.
Qed.

Lemma names_upd x r r' l1 l2 :
  map fst l1 = map fst l2 ->
  (r = None <-> r' = None) ->
  map fst (upd x r l1) = map fst (upd x r' l2).
Proof.
  intros Hn Hr. destruct r as [v |], r' as [v' |]; simpl.
  - apply names_set_child. exact Hn.
  - exfalso. destruct Hr as [_ Hr]. specialize (Hr eq_refl). discriminate.
  - exfalso. destruct Hr as [Hr _]. specialize (Hr eq_refl). discriminate.
  - exact Hn.
Qed.

Lemma distinct_names_upd x r l :
  distinct_names l = true -> distinct_names (upd x r l) = true.
Proof. destruct r; simpl; [apply distinct_names_set_child | tauto]. Qed.

Section GraftLoop.

Variable sub : node -> node -> outcome unit * node.

Hypothesis sub_kind :
  forall c tc o v, sub c tc = (o, v) -> same_kind tc v.

Hypothesis sub_again :
  forall c tc o v, wf c = true -> sub c tc = (o, v) -> sub c v = (o, v).

Hypothesis sub_resists :
  forall c tc o v, removable tc = false -> sub c tc = (o, v) -> removable v = false.

Hypothesis sub_listable :
  forall c tc o v, all_listable tc = true -> sub c tc = (o, v) -> all_listable v = true.

Lemma sub_not_dangling c tc o v : sub c tc = (o, v) -> tc <> Dangling -> v <> Dangling.
Proof.
  intros H Hn. apply sub_kind in H. destruct tc as [b | r es |]; simpl in H.
  - subst v. discriminate.
  - destruct H as [es' ->]. discriminate.
  - congruence.
Qed.

Lemma entry_return c oc o r :
  graft_entry sub c oc = (o, r) -> o = Return tt -> exists v, r = Some v.
Proof.
  unfold graft_entry.
  destruct c as [content | r' es' |].
  - destruct oc as [[c1 | r1 es1 |] |]; intros [= <- <-]; try discriminate; eauto.
  - destruct oc as [[c1 | r1 es1 |] |].
    + destruct (sub _ _) as [o1 v]. intros [= <- <-]. eauto.
    + destruct (sub _ _) as [o1 v]. intros [= <- <-]. eauto.
    + intros [= <- <-]. discriminate.
    + destruct (sub _ _) as [o1 v]. intros [= <- <-]. eauto.
  - intros [= <- <-]. discriminate.
Qed.

(** The round of an entry run again on the entry it made. *)
Lemma entry_again c oc o v :
  wf c = true ->
  graft_entry sub c oc = (o, Some v) -> graft_entry sub c (Some v) = (o, Some v).
Proof.
  intros Hwf. unfold graft_entry.
  destruct c as [content | r' es' |].
  - destruct oc as [[c1 | r1 es1 |] |]; intros [= <- <-]; reflexivity.
  - assert (Hgen : forall tc, tc <> Dangling ->
              (let '(o0, tc') := sub (Dir r' es') tc in (o0, Some tc')) = (o, Some v) ->
              match v with
              | Dangling => (Throw ENOENT, None)
              | _ => let '(o0, tc') := sub (Dir r' es') v in (o0, Some tc')
              end = (o, Some v)).
    { intros tc Hn. destruct (sub (Dir r' es') tc) as [o1 v1] eqn:Es.
      intros [= <- <-].
      pose proof (sub_not_dangling _ _ _ _ Es Hn) as Hv.
      rewrite (sub_again _ _ _ _ Hwf Es).
      destruct v1; [reflexivity | reflexivity | congruence]. }
    destruct oc as [[c1 | r1 es1 |] |]; try discriminate;
      apply Hgen; discriminate.
  - discriminate.
Qed.

(** The loop leaves alone the entries whose names it does not list. *)
Lemma loop_other : forall l ents o fin y,
  graft_loop sub l ents = (o, fin) -> fresh_in y l = true ->
  assoc y fin = assoc y ents.
Proof.
  induction l as [| e l IH]; intros ents o fin y; simpl.
  - intros [= _ <-] _. reflexivity.
  - intros Hrun Hy. apply andb_true_iff in Hy as [Hne Hy].
    apply negb_true_iff, String.eqb_neq in Hne.
    destruct (graft_entry sub (snd e) (assoc (fst e) ents)) as [o1 r].
    destruct o1 as [[] | err |].
    + rewrite (IH _ _ _ _ Hrun Hy). apply assoc_upd_other. exact Hne.
    + injection Hrun as _ <-. apply assoc_upd_other. exact Hne.
    + injection Hrun as _ <-. apply assoc_upd_other. exact Hne.
Qed.

Lemma loop_distinct : forall l ents o fin,
  graft_loop sub l ents = (o, fin) ->
  distinct_names ents = true -> distinct_names fin = true.
Proof.
  induction l as [| e l IH]; intros ents o fin; simpl.
  - intros [= _ <-]. tauto.
  - destruct (graft_entry sub (snd e) (assoc (fst e) ents)) as [o1 r].
    destruct o1 as [[] | err |].
    + intros Hrun Hd. eapply IH; [exact Hrun |]. apply distinct_names_upd. exact Hd.
    + intros [= _ <-]. apply distinct_names_upd.
    + intros [= _ <-]. apply distinct_names_upd.
Qed.

(** Running the loop again on what it left changes nothing. *)
Lemma loop_again : forall l ents o fin,
  distinct_names l = true -> wf_entries l = true ->
  graft_loop sub l ents = (o, fin) -> graft_loop sub l fin = (o, fin).
Proof.
  induction l as [| e l IH]; intros ents o fin Hd Hwf; simpl.
  - intros [= <- <-]. reflexivity.
  - simpl in Hd. apply andb_true_iff in Hd as [Hf Hd].
    simpl in Hwf. apply andb_true_iff in Hwf as [Hwf1 Hwf2].
    destruct (graft_entry sub (snd e) (assoc (fst e) ents)) as [o1 r] eqn:Ee.
    assert (Hx : forall o' fin',
               (o1 = Return tt -> graft_loop sub l (upd (fst e) r ents) = (o', fin')) ->
               (o1 <> Return tt -> (o', fin') = (o1, upd (fst e) r ents)) ->
               assoc (fst e) fin' = assoc (fst e) (upd (fst e) r ents) ->
               graft_entry sub (snd e) (assoc (fst e) fin') = (o1, r) /\
               upd (fst e) r fin' = fin').
    { intros o' fin' _ _ Ha. rewrite Ha, assoc_upd_same.
      destruct r as [v |].
      - split; [eapply entry_again; eassumption |].
        simpl. apply set_child_id. rewrite Ha, assoc_upd_same. reflexivity.
      - split; [exact Ee | reflexivity]. }
    destruct o1 as [[] | err |].
    + intros Hrun.
      destruct (Hx o fin (fun _ => Hrun) ltac:(congruence)) as [He Hu].
      { eapply loop_other; eassumption. }
      rewrite He, Hu. eapply IH; eassumption.
    + intros [= <- <-].
      destruct (Hx (Throw err) (upd (fst e) r ents)) as [He Hu]; try congruence.
      rewrite He, Hu. reflexivity.
    + intros [= <- <-].
      destruct (Hx Fuel (upd (fst e) r ents)) as [He Hu]; try congruence.
      rewrite He, Hu. reflexivity.
Qed.

(** An entry that [fs.rm] cannot remove entirely is one still after the loop. *)
Lemma loop_resists : forall l ents o fin y cy,
  graft_loop sub l ents = (o, fin) ->
  assoc y ents = Some cy -> removable cy = false ->
  exists fy, assoc y fin = Some fy /\ removable fy = false.
Proof.
  induction l as [| e l IH]; intros ents o fin y cy; simpl.
  - intros [= _ <-] Ha Hr. eauto.
  - intros Hrun Ha Hr.
    destruct (graft_entry sub (snd e) (assoc (fst e) ents)) as [o1 r] eqn:Ee.
    assert (Hstep : exists cy', assoc y (upd (fst e) r ents) = Some cy' /\
                                removable cy' = false).
    { destruct (String.eqb y (fst e)) eqn:Eq.
      - apply String.eqb_eq in Eq. subst y. rewrite assoc_upd_same.
        destruct r as [v |]; [| eauto].
        exists v. split; [reflexivity |].
        rewrite Ha in Ee. unfold graft_entry in Ee.
        assert (Hd : exists r' es', cy = Dir r' es').
        { apply removable_false in Hr as [n' Hp].
          destruct cy as [c1 | r1 es1 |]; try discriminate. eauto. }
        destruct Hd as [r1 [es1 ->]].
        destruct (snd e) as [content | r' es' |]; try discriminate.
        destruct (sub (Dir r' es') (Dir r1 es1)) as [o2 v2] eqn:Es.
        injection Ee as _ <-. eapply sub_resists; eassumption.
      - apply String.eqb_neq in Eq. rewrite (assoc_upd_other _ _ _ _ Eq). eauto. }
    destruct Hstep as [cy' [Ha' Hr']].
    destruct o1 as [[] | err |].
    + eapply IH; eassumption.
    + injection Hrun as _ <-. eauto.
    + injection Hrun as _ <-. eauto.
Qed.

Lemma names_prune_set_child_kept : forall l x cx v,
  assoc x l = Some cx -> removable cx = false -> removable v = false ->
  map fst (prune_entries (set_child x v l)) = map fst (prune_entries l).
Proof.
  induction l as [| [y c0] l IH]; intros x cx v; simpl; [discriminate |].
  destruct (String.eqb x y) eqn:Eq.
  - intros [= ->] Hc Hv. simpl.
    apply removable_false in Hc as [c' Hc]. apply removable_false in Hv as [v' Hv].
    rewrite Hc, Hv. reflexivity.
  - intros Ha Hc Hv. simpl.
    destruct (prune c0); simpl; [f_equal |]; eapply IH; eassumption.
Qed.

(** What an entry makes where there was none can be removed entirely. *)
Lemma entry_new_removable c o v :
  graft_entry sub c None = (o, Some v) -> removable v = true.
Proof.
  unfold graft_entry. destruct c as [content | r' es' |].
  - intros [= _ <-]. reflexivity.
  - destruct (sub _ _) as [o1 v1] eqn:Es. intros [= _ <-].
    apply all_listable_removable. eapply sub_listable; [| exact Es]. reflexivity.
  - discriminate.
Qed.

(** What an entry makes of a child that cannot be removed entirely cannot be
    either. *)
Lemma entry_kept c cx o v :
  removable cx = false ->
  graft_entry sub c (Some cx) = (o, Some v) -> removable v = false.
Proof.
  intros Hr. unfold graft_entry.
  assert (Hd : exists r' es', cx = Dir r' es').
  { apply removable_false in Hr as [n' Hp].
    destruct cx as [c1 | r1 es1 |]; try discriminate. eauto. }
  destruct Hd as [r1 [es1 ->]].
  destruct c as [content | r' es' |]; try discriminate.
  destruct (sub _ _) as [o1 v1] eqn:Es. intros [= _ <-].
  eapply sub_resists; eassumption.
Qed.

Lemma names_prune_upd x r ents :
  match assoc x ents with
  | Some cx => removable cx = false /\ (forall v, r = Some v -> removable v = false)
  | None => forall v, r = Some v -> removable v = true
  end ->
  map fst (prune_entries (upd x r ents)) = map fst (prune_entries ents).
Proof.
  destruct r as [v |]; simpl; [| reflexivity].
  destruct (assoc x ents) as [cx |] eqn:Ea.
  - intros [Hc Hv]. eapply names_prune_set_child_kept; eauto.
  - intros Hv. rewrite (set_child_fresh _ _ _ Ea), prune_entries_app. simpl.
    specialize (Hv v eq_refl). unfold removable in Hv.
    destruct (prune v); [discriminate |]. rewrite app_nil_r. reflexivity.
Qed.

(** The names that [fs.rm] leaves are the same before and after the loop,
    when it left every entry that the loop visits. *)
Lemma loop_names_pruned : forall l ents o fin,
  distinct_names l = true ->
  (forall y cy, assoc y ents = Some cy -> fresh_in y l = false -> removable cy = false) ->
  graft_loop sub l ents = (o, fin) ->
  map fst (prune_entries fin) = map fst (prune_entries ents).
Proof.
  induction l as [| e l IH]; intros ents o fin Hd Hk; simpl.
  - intros [= _ <-]. reflexivity.
  - simpl in Hd. apply andb_true_iff in Hd as [Hf Hd].
    destruct (graft_entry sub (snd e) (assoc (fst e) ents)) as [o1 r] eqn:Ee.
    assert (Hu : map fst (prune_entries (upd (fst e) r ents))
                 = map fst (prune_entries ents)).
    { apply names_prune_upd. destruct (assoc (fst e) ents) as [cx |] eqn:Ea.
      - assert (Hcx : removable cx = false).
        { apply (Hk _ _ Ea). apply fresh_in_cons_false. left. reflexivity. }
        split; [exact Hcx |]. intros v ->. eapply entry_kept; eassumption.
      - intros v ->. eapply entry_new_removable; eassumption. }
    assert (Hk' : forall y cy, assoc y (upd (fst e) r ents) = Some cy ->
                    fresh_in y l = false -> removable cy = false).
    { intros y cy Ha Hy.
      assert (Hne : y <> fst e) by (intros ->; congruence).
      rewrite (assoc_upd_other _ _ _ _ Hne) in Ha.
      apply (Hk _ _ Ha). apply fresh_in_cons_false. right. exact Hy. }
    destruct o1 as [[] | err |].
    + intros Hrun. rewrite (IH _ _ _ Hd Hk' Hrun). exact Hu.
    + intros [= _ <-]. exact Hu.
    + intros [= _ <-]. exact Hu.
Qed.

Lemma loop_listable : forall l ents o fin,
  graft_loop sub l ents = (o, fin) ->
  all_listable_entries ents = true -> all_listable_entries fin = true.
Proof.
  induction l as [| e l IH]; intros ents o fin; simpl.
  - intros [= _ <-]. tauto.
  - destruct (graft_entry sub (snd e) (assoc (fst e) ents)) as [o1 r] eqn:Ee.
    intros Hrun Hl.
    assert (Hu : all_listable_entries (upd (fst e) r ents) = true).
    { destruct r as [v |]; [| exact Hl]. simpl.
      apply all_listable_set_child; [exact Hl |].
      unfold graft_entry in Ee.
      destruct (snd e) as [content | r' es' |].
      - destruct (assoc (fst e) ents) as [[c1 | r1 es1 |] |];
          try discriminate; injection Ee as _ <-; reflexivity.
      - destruct (assoc (fst e) ents) as [tc |] eqn:Ea.
        + assert (Htc : all_listable tc = true).
          { apply assoc_some_in in Ea.
            unfold all_listable_entries in Hl. rewrite forallb_forall in Hl.
            apply (Hl _ Ea). }
          destruct tc as [c1 | r1 es1 |]; try discriminate;
            destruct (sub _ _) as [o2 v2] eqn:Es; injection Ee as _ <-;
            eapply sub_listable; eassumption.
        + destruct (sub _ _) as [o2 v2] eqn:Es. injection Ee as _ <-.
          eapply sub_listable; [| exact Es]. reflexivity.
      - discriminate. }
    destruct o1 as [[] | err |].
    + eapply IH; eassumption.
    + injection Hrun as _ <-. exact Hu.
    + injection Hrun as _ <-. exact Hu.
Qed.

Lemma prune_entries_set_child_stuck : forall l x v,
  prune_entries l <> [] ->
  (forall cx, assoc x l = Some cx -> removable cx = false -> removable v = false) ->
  prune_entries (set_child x v l) <> [].
Proof.
  induction l as [| [y c0] l IH]; intros x v Hs Hv; simpl; [contradiction |].
  simpl in Hs, Hv.
  destruct (String.eqb x y) eqn:Eq; simpl.
  - destruct (prune c0) as [c0' |] eqn:Ep.
    + assert (Hr : removable v = false).
      { apply (Hv c0 eq_refl). apply removable_false. eauto. }
      apply removable_false in Hr as [v' Hr]. rewrite Hr. discriminate.
    + destruct (prune v); [discriminate | exact Hs].
  - destruct (prune c0) as [c0' |]; [discriminate |].
    apply IH; assumption.
Qed.

Lemma set_child_nonempty x v l : set_child x v l <> [].
Proof. destruct l as [| [y c0] l]; simpl; [| destruct (String.eqb x y)]; discriminate. Qed.

(** If [fs.rm] leaves something of the entries before the loop, it leaves
    something of them after it. *)
Lemma loop_stuck : forall l ents o fin,
  graft_loop sub l ents = (o, fin) ->
  prune_entries ents <> [] -> prune_entries fin <> [].
Proof.
  induction l as [| e l IH]; intros ents o fin; simpl.
  - intros [= _ <-]. tauto.
  - destruct (graft_entry sub (snd e) (assoc (fst e) ents)) as [o1 r] eqn:Ee.
    intros Hrun Hs.
    assert (Hu : prune_entries (upd (fst e) r ents) <> []).
    { destruct r as [v |]; [| exact Hs]. simpl.
      apply prune_entries_set_child_stuck; [exact Hs |].
      intros cx Ha Hr. rewrite Ha in Ee. eapply entry_kept; eassumption. }
    destruct o1 as [[] | err |].
    + eapply IH; eassumption.
    + injection Hrun as _ <-. exact Hu.
    + injection Hrun as _ <-. exact Hu.
Qed.

Lemma loop_nonempty : forall l ents o fin,
  graft_loop sub l ents = (o, fin) -> ents <> [] -> fin <> [].
Proof.
  induction l as [| e l IH]; intros ents o fin; simpl.
  - intros [= _ <-]. tauto.
  - destruct (graft_entry sub (snd e) (assoc (fst e) ents)) as [o1 r] eqn:Ee.
    intros Hrun Hs.
    assert (Hu : upd (fst e) r ents <> []).
    { destruct r as [v |]; [apply set_child_nonempty | exact Hs]. }
    destruct o1 as [[] | err |].
    + eapply IH; eassumption.
    + injection Hrun as _ <-. exact Hu.
    + injection Hrun as _ <-. exact Hu.
Qed.

Hypothesis sub_restores :
  forall c tc o v b,
    wf c = true -> wf tc = true -> prune tc = Some tc ->
    sub c tc = (o, v) -> prune v = Some b -> sub c b = (o, v).

(** The round of an entry gives the same on what [fs.rm] leaves of its
    result, when the child it started from was left whole by [fs.rm]. *)
Lemma entry_restores c cx o r b :
  wf c = true -> wf cx = true -> prune cx = Some cx ->
  graft_entry sub c (Some cx) = (o, r) ->
  prune (match r with Some v => v | None => cx end) = Some b ->
  graft_entry sub c (Some b) = (o, r).
Proof.
  intros Hwc Hwx Hsx He Hb.
  destruct (prune_kind _ _ Hsx) as [r1 [es1 [-> _]]].
  destruct (prune_kind _ _ Hb) as [r2 [es2 [-> _]]].
  unfold graft_entry in *.
  destruct c as [content | r' es' |]; [exact He | | exact He].
  destruct (sub (Dir r' es') (Dir r1 es1)) as [o1 v1] eqn:Es.
  injection He as <- <-.
  rewrite (sub_restores _ _ _ _ _ Hwc Hwx Hsx Es Hb). reflexivity.
Qed.

(** The loop run on what [fs.rm] leaves of its result gives that result
    again, when [fs.rm] left whole every entry that the loop visits. *)
Lemma loop_restores : forall l cur curb o fin,
  distinct_names l = true -> wf_entries l = true ->
  distinct_names cur = true ->
  map fst curb = map fst cur ->
  (forall y cy, assoc y cur = Some cy -> fresh_in y l = false ->
     wf cy = true /\ prune cy = Some cy /\
     exists fy b, assoc y fin = Some fy /\ prune fy = Some b /\
                  assoc y curb = Some b) ->
  (forall y cy, assoc y cur = Some cy -> fresh_in y l = true ->
     assoc y curb = Some cy) ->
  graft_loop sub l cur = (o, fin) ->
  graft_loop sub l curb = (o, fin).
Proof.
  induction l as [| e l IH]; intros cur curb o fin Hd Hwf Hdc Hn H1 H2.
  - simpl. intros [= <- <-]. f_equal. symmetry.
    apply entries_eq; [exact Hdc | symmetry; exact Hn |].
    intros y Hy.
    destruct (assoc y cur) as [cy |] eqn:Ea.
    + symmetry. apply (H2 _ _ Ea). reflexivity.
    + apply assoc_none_iff in Ea. contradiction.
  - simpl in Hd. apply andb_true_iff in Hd as [Hf Hd].
    simpl in Hwf. apply andb_true_iff in Hwf as [Hwf1 Hwf2].
    simpl.
    destruct (graft_entry sub (snd e) (assoc (fst e) cur)) as [o1 r] eqn:Ee.
    intros Hrun.
    assert (Hfin : assoc (fst e) fin = assoc (fst e) (upd (fst e) r cur)).
    { destruct o1 as [[] | err |].
      - eapply loop_other; eassumption.
      - injection Hrun as _ <-. reflexivity.
      - injection Hrun as _ <-. reflexivity. }
    rewrite assoc_upd_same in Hfin.
    assert (Hxe : fresh_in (fst e) (e :: l) = false).
    { apply fresh_in_cons_false. left. reflexivity. }
    assert (Ee' : graft_entry sub (snd e) (assoc (fst e) curb) = (o1, r)).
    { destruct (assoc (fst e) cur) as [cx |] eqn:Ea.
      - destruct (H1 _ _ Ea Hxe) as [Hwx [Hsx [fy [b [Hfy [Hb Hcb]]]]]].
        rewrite Hcb. eapply entry_restores; try eassumption.
        destruct r as [v |]; congruence.
      - rewrite (assoc_none_names cur curb (fst e) (eq_sym Hn) Ea). exact Ee. }
    rewrite Ee'.
    assert (Hstop : fin = upd (fst e) r cur ->
                    upd (fst e) r curb = upd (fst e) r cur).
    { intros ->. symmetry.
      apply entries_eq.
      - apply distinct_names_upd. exact Hdc.
      - apply names_upd; [symmetry; exact Hn | tauto].
      - intros y Hy.
        destruct (String.eqb y (fst e)) eqn:Eq.
        + apply String.eqb_eq in Eq. subst y. rewrite !assoc_upd_same.
          destruct r as [v |]; [reflexivity |].
          destruct (assoc (fst e) cur) as [cx |] eqn:Ea.
          * destruct (H1 _ _ Ea Hxe) as [Hwx [Hsx [fy [b [Hfy [Hb Hcb]]]]]].
            simpl in Hfy. congruence.
          * symmetry. apply (assoc_none_names cur curb (fst e) (eq_sym Hn) Ea).
        + apply String.eqb_neq in Eq. rewrite !(assoc_upd_other _ _ _ _ Eq).
          destruct (assoc y cur) as [cy |] eqn:Ea.
          * symmetry. destruct (fresh_in y (e :: l)) eqn:Efr.
            -- apply (H2 _ _ Ea Efr).
            -- destruct (H1 _ _ Ea Efr) as [Hwy [Hsy [fy [b [Hfy [Hb Hcb]]]]]].
               rewrite (assoc_upd_other _ _ _ _ Eq) in Hfy. congruence.
          * exfalso. apply assoc_none_iff in Ea. apply Ea.
            destruct r as [v |]; simpl in Hy; [| exact Hy].
            destruct (assoc (fst e) cur) as [cx |] eqn:Eax.
            -- rewrite (names_set_child_in _ _ _ _ Eax) in Hy. exact Hy.
            -- rewrite (names_set_child_new _ _ _ Eax) in Hy.
               apply in_app_or in Hy as [Hy | [Hy | []]]; [exact Hy | congruence]. }
    destruct o1 as [[] | err |].
    + destruct (entry_return _ _ _ _ Ee eq_refl) as [v ->].
      apply (IH (upd (fst e) (Some v) cur)); try assumption.
      * apply distinct_names_upd. exact Hdc.
      * apply names_upd; [exact Hn | tauto].
      * intros y cy Ha Hy.
        assert (Hne : y <> fst e) by (intros ->; congruence).
        rewrite (assoc_upd_other _ _ _ _ Hne) in Ha.
        assert (Hy' : fresh_in y (e :: l) = false).
        { apply fresh_in_cons_false. right. exact Hy. }
        destruct (H1 _ _ Ha Hy') as [Hwy [Hsy [fy [b [Hfy [Hb Hcb]]]]]].
        split; [exact Hwy |]. split; [exact Hsy |].
        exists fy, b. rewrite (assoc_upd_other _ _ _ _ Hne). auto.
      * intros y cy Ha Hy.
        destruct (String.eqb y (fst e)) eqn:Eq.
        -- apply String.eqb_eq in Eq. subst y.
           rewrite assoc_upd_same in Ha. rewrite assoc_upd_same. exact Ha.
        -- apply String.eqb_neq in Eq.
           rewrite (assoc_upd_other _ _ _ _ Eq) in Ha.
           rewrite (assoc_upd_other _ _ _ _ Eq).
           apply (H2 _ _ Ha). apply fresh_in_cons_true. auto.
    + injection Hrun as <- <-. f_equal. apply Hstop. reflexivity.
    + injection Hrun as <- <-. f_equal. apply Hstop. reflexivity.
Qed.

End GraftLoop.
End GraftFacts.

Module GraftTree.
Import Fs Tree Manager TreeFacts PutFacts PrepareFacts FrameFacts Graft EntryFacts
  GraftFacts.
Open Scope list_scope.

Lemma graft_kind : forall f m t o v, graft f m t = (o, v) -> same_kind t v.
Proof.
  intros [| f] m t o v; simpl.
  - intros [= _ <-]. apply same_kind_refl.
  - destruct m as [c | [|] es |]; try (intros [= _ <-]; apply same_kind_refl).
    destruct t as [c | rt ents |].
    + destruct es; intros [= _ <-]; apply same_kind_refl.
    + destruct (graft_loop (graft f) es ents) as [o1 fin].
      intros [= _ <-]. simpl. eauto.
    + destruct es; intros [= _ <-]; apply same_kind_refl.
Qed.

(** Grafting again on the result changes nothing. *)
Lemma graft_again : forall f m t o v,
  wf m = true -> graft f m t = (o, v) -> graft f m v = (o, v).
Proof.
  induction f as [| f IH]; intros m t o v Hwf; simpl.
  - intros [= <- <-]. reflexivity.
  - destruct m as [c | [|] es |]; try (intros [= <- <-]; reflexivity).
    destruct t as [c | rt ents |].
    + destruct es; intros [= <- <-]; reflexivity.
    + destruct (graft_loop (graft f) es ents) as [o1 fin] eqn:El.
      intros [= <- <-].
      rewrite wf_Dir in Hwf. apply andb_true_iff in Hwf as [Hd Hw].
      rewrite (loop_again (graft f) (graft_kind f) IH _ _ _ _ Hd Hw El).
      reflexivity.
    + destruct es; intros [= <- <-]; reflexivity.
Qed.

(** What [fs.rm] cannot remove entirely it cannot after a graft either. *)
Lemma graft_resists : forall f m t o v,
  removable t = false -> graft f m t = (o, v) -> removable v = false.
Proof.
  induction f as [| f IH]; intros m t o v Hr; simpl.
  - intros [= _ <-]. exact Hr.
  - destruct m as [c | [|] es |]; try (intros [= _ <-]; exact Hr).
    destruct t as [c | rt ents |].
    + destruct es; intros [= _ <-]; exact Hr.
    + destruct (graft_loop (graft f) es ents) as [o1 fin] eqn:El.
      intros [= _ <-].
      apply removable_false in Hr as [t' Hp]. apply removable_false.
      destruct rt.
      * rewrite prune_Dir in *.
        pose proof (loop_stuck (graft f) IH _ _ _ _ El) as Hs.
        destruct (prune_entries ents) as [| e0 l0]; [discriminate |].
        specialize (Hs ltac:(discriminate)).
        destruct (prune_entries fin); [contradiction | eauto].
      * rewrite prune_false in *.
        pose proof (loop_nonempty (graft f) _ _ _ _ El) as Hs.
        destruct ents; [discriminate |].
        specialize (Hs ltac:(discriminate)).
        destruct fin; [contradiction | eauto].
    + destruct es; intros [= _ <-]; exact Hr.
Qed.

Lemma graft_listable : forall f m t o v,
  all_listable t = true -> graft f m t = (o, v) -> all_listable v = true.
Proof.
  induction f as [| f IH]; intros m t o v Hr; simpl.
  - intros [= _ <-]. exact Hr.
  - destruct m as [c | [|] es |]; try (intros [= _ <-]; exact Hr).
    destruct t as [c | rt ents |].
    + destruct es; intros [= _ <-]; exact Hr.
    + destruct (graft_loop (graft f) es ents) as [o1 fin] eqn:El.
      intros [= _ <-].
      rewrite all_listable_Dir in *. apply andb_true_iff in Hr as [-> Hl].
      simpl. eapply (loop_listable (graft f) IH); eassumption.
    + destruct es; intros [= _ <-]; exact Hr.
Qed.

Lemma prune_true_stuck ents :
  prune (Dir true ents) = Some (Dir true ents) -> prune_entries ents = ents.
Proof.
  rewrite prune_Dir. destruct (prune_entries ents); [discriminate |].
  intros [= ->]. reflexivity.
Qed.

(** A graft on what [fs.rm] leaves of its result gives that result again,
    when [fs.rm] left whole the tree it started from. *)
Lemma graft_restores : forall f m t o v b,
  wf m = true -> wf t = true -> prune t = Some t ->
  graft f m t = (o, v) -> prune v = Some b -> graft f m b = (o, v).
Proof.
  induction f as [| f IH]; intros m t o v b Hwm Hwt Hst.
  - simpl. intros [= <- <-] Hb. congruence.
  - assert (Hsame : (o, v) = (o, t) -> prune v = Some b ->
                    graft (S f) m t = (o, t) -> graft (S f) m b = (o, v)).
    { intros [= ->] Hb Hg. congruence. }
    simpl.
    destruct m as [c | [|] es |];
      try (intros [= <- <-] Hb; replace b with t by congruence; reflexivity).
    destruct (prune_kind _ _ Hst) as [rt [ents [-> Hne]]].
    destruct (graft_loop (graft f) es ents) as [o1 fin] eqn:El.
    intros [= <- <-] Hb.
    rewrite wf_Dir in Hwm. apply andb_true_iff in Hwm as [Hdm Hwm].
    pose proof Hwt as Hwt'.
    rewrite wf_Dir in Hwt. apply andb_true_iff in Hwt as [Hdt Hwe].
    destruct rt.
    + pose proof (prune_true_stuck _ Hst) as Hse.
      rewrite prune_Dir in Hb.
      destruct (prune_entries fin) as [| e0 l0] eqn:Ef; [discriminate |].
      injection Hb as <-. rewrite <- Ef.
      pose proof (loop_distinct (graft f) _ _ _ _ El Hdt) as Hdf.
      rewrite (loop_restores (graft f) IH es ents (prune_entries fin) o1 fin);
        try assumption; try reflexivity.
      * transitivity (map fst (prune_entries ents)); [| rewrite Hse; reflexivity].
        apply (loop_names_pruned (graft f)
                 (fun c tc o v => graft_resists f c tc o v)
                 (fun c tc o v => graft_listable f c tc o v) es ents o1 fin Hdm);
          [| exact El].
        intros y cy Ha _. apply removable_false. exists cy.
        apply (stuck_entries _ Hse y). apply assoc_some_in. exact Ha.
      * intros y cy Ha _.
        assert (Hsy : prune cy = Some cy).
        { apply (stuck_entries _ Hse y). apply assoc_some_in. exact Ha. }
        split; [eapply wf_assoc; eassumption |]. split; [exact Hsy |].
        destruct (loop_resists (graft f)
                    (fun c tc o v => graft_resists f c tc o v)
                    es ents o1 fin y cy El Ha) as [fy [Hfy Hr]].
        { apply removable_false. eauto. }
        apply removable_false in Hr as [b Hb].
        exists fy, b. split; [exact Hfy |]. split; [exact Hb |].
        rewrite (assoc_prune_entries _ _ Hdf), Hfy. exact Hb.
      * intros y cy Ha Hy.
        rewrite (assoc_prune_entries _ _ Hdf).
        rewrite (loop_other (graft f) _ _ _ _ _ El Hy), Ha.
        apply (stuck_entries _ Hse y). apply assoc_some_in. exact Ha.
    + rewrite prune_false in Hb.
      pose proof (loop_nonempty (graft f) _ _ _ _ El Hne) as Hnf.
      destruct fin as [| e0 l0]; [contradiction |].
      injection Hb as <-.
      rewrite (loop_again (graft f) (graft_kind f)
                 (fun c tc o v Hw => graft_again f c tc o v Hw) _ _ _ _ Hdm Hwm El).
      reflexivity.
Qed.

(** What [fs.rm] leaves of a tree without duplicate names has none. *)
Lemma prune_wf : forall k n n',
  (depth n <= k)%nat -> wf n = true -> prune n = Some n' -> wf n' = true.
Proof.
  induction k as [| k IH]; intros [c | [|] es |] n' Hd Hw; try discriminate.
  - rewrite depth_Dir in Hd. lia.
  - rewrite prune_false. destruct es; [discriminate |]. intros [= <-]. exact Hw.
  - rewrite depth_Dir in Hd. rewrite prune_Dir.
    rewrite wf_Dir in Hw. apply andb_true_iff in Hw as [Hdn Hwe].
    assert (Hes : distinct_names (prune_entries es) = true /\
                  wf_entries (prune_entries es) = true).
    { assert (Hk : (depth_entries es <= k)%nat) by lia. clear Hd.
      induction es as [| e es IHes]; [split; reflexivity |].
      simpl in Hk, Hdn, Hwe.
      apply andb_true_iff in Hdn as [Hf Hdn]. apply andb_true_iff in Hwe as [Hw1 Hwe].
      destruct (IHes Hdn Hwe ltac:(lia)) as [Hd' Hw'].
      simpl. destruct (prune (snd e)) as [c' |] eqn:Ep; [| split; assumption].
      simpl. split.
      - rewrite Hd', andb_true_r. apply fresh_in_iff. intros Hin.
        apply names_prune_entries_sub in Hin. apply fresh_in_iff in Hf.
        contradiction.
      - rewrite Hw', andb_true_r. apply (IH (snd e) c'); [lia | exact Hw1 | exact Ep]. }
    destruct (prune_entries es) as [| e l] eqn:E; [discriminate |].
    intros [= <-]. rewrite wf_Dir. destruct Hes as [-> ->]. reflexivity.
  - rewrite prune_false. destruct es; [discriminate |]. intros [= <-]. exact Hw.
Qed.

End GraftTree.

(** ** copyContext *)

Module ContextFacts.
Import Fs Tree Manager TreeFacts PutFacts CopyFacts PrepareFacts FrameFacts.
Import Graft EntryFacts GraftRefine GraftFacts GraftTree.
Open Scope list_scope.

Lemma clearable_not_root n p : clearable n p = true -> p <> [].
Proof. destruct n, p; simpl; congruence. Qed.

Lemma creatable_of_walk : forall p n m,
  walk n p = Ok m -> p <> [] -> creatable n p = true.
Proof.
  induction p as [| x p IH]; intros n m Hw Hne; [congruence |].
  destruct n as [c | r es |]; try discriminate.
  destruct p as [| y p']; [reflexivity |].
  rewrite creatable_deep. rewrite walk_cons in Hw.
  destruct (assoc x es) as [c |]; [| reflexivity].
  eapply IH; [exact Hw | discriminate].
Qed.

Lemma copyContext_steps fuel src tgt s nr e s0 :
  rm_rf s tgt = (Ok tt, nr) -> walk nr tgt = Err e -> mkdir_p nr tgt = Ok s0 ->
  copyContext fuel src tgt s = copyDirectory fuel src tgt s0.
Proof.
  intros Hr Hw Hm.
  cbv [copyContext bind try_catch fs_rm ensureDirectory fs_access access fs_mkdir ret].
  rewrite Hr. cbv beta iota. rewrite Hw. cbv beta iota. rewrite Hm. reflexivity.
Qed.

(** Lines 83-91 on a target that can be cleared: after [fs.rm] and
    [ensureDirectory] the target is an empty directory and the rest of the
    file system is as before; the same two steps run on any state that
    differs only in what the target holds, if that can be removed, lead to
    the same state. *)
Lemma copyContext_prepared fuel src tgt s :
  clearable s tgt = true ->
  exists s0,
    copyContext fuel src tgt s = copyDirectory fuel src tgt s0 /\
    walk s0 tgt = Ok (Dir true []) /\
    (forall q, diverges tgt q = true -> walk s0 q = walk s q) /\
    (forall v s1, put s0 tgt v = Ok s1 -> removable v = true ->
       copyContext fuel src tgt s1 = copyDirectory fuel src tgt s0).
Proof.
  intros Hc.
  destruct (prepare_node _ _ Hc)
    as [nr [s0 [Hr [Hwr [Hm [Hw0 [Hframe [nr' [Hr' [Hwr' Hm']]]]]]]]]].
  exists s0. repeat split; try assumption.
  - eapply copyContext_steps; eassumption.
  - intros v s1 Hput Hv.
    eapply copyContext_steps; [| exact Hwr' | exact Hm'].
    assert (Hc0 : clearable s0 tgt = true).
    { eapply clearable_of_walk; [exact Hw0 | reflexivity |].
      eapply clearable_not_root. exact Hc. }
    rewrite (rm_rf_put _ _ _ _ Hc0 Hv Hput). exact Hr'.
Qed.

(** Lines 83-91 in general: the two steps change nothing away from the
    target; either [ensureDirectory] throws, or the copy starts with
    something at the target. *)
Lemma copyContext_reaches fuel src tgt s :
  exists s0,
    (forall q, diverges tgt q = true -> walk s0 q = walk s q) /\
    ((exists e, copyContext fuel src tgt s = (Throw e, s0)) \/
     (copyContext fuel src tgt s = copyDirectory fuel src tgt s0 /\
      exists m, walk s0 tgt = Ok m)).
Proof.
  assert (H1 : copyContext fuel src tgt s =
               (ensureDirectory tgt ;; copyDirectory fuel src tgt) (snd (rm_rf s tgt))).
  { cbv [copyContext bind try_catch fs_rm ret].
    destruct (rm_rf s tgt) as [[[] | e] s']; reflexivity. }
  pose proof (ensureDirectory_no_fuel tgt (snd (rm_rf s tgt))) as Hnf.
  destruct (ensureDirectory tgt (snd (rm_rf s tgt))) as [o s0] eqn:Ee.
  exists s0. split.
  - intros q Hq.
    pose proof (ensureDirectory_diverges tgt q (snd (rm_rf s tgt)) Hq) as H.
    rewrite Ee in H. simpl in H. rewrite H. apply rm_rf_diverges. exact Hq.
  - destruct o as [[] | e |].
    + right. split; [rewrite H1; unfold bind; rewrite Ee; reflexivity |].
      eapply ensureDirectory_returned. exact Ee.
    + left. exists e. rewrite H1. unfold bind. rewrite Ee. reflexivity.
    + exfalso. apply Hnf. reflexivity.
Qed.

(** The main statement about a successful copy. *)
Lemma copyContext_regular fuel src tgt s es :
  clearable s tgt = true ->
  diverges src tgt = true ->
  walk s src = Ok (Dir true es) ->
  regular (Dir true es) = true ->
  (depth (Dir true es) <= fuel)%nat ->
  exists s1,
    copyContext fuel src tgt s = (Return tt, s1) /\
    walk s1 tgt = Ok (Dir true es) /\
    (forall q, diverges tgt q = true -> walk s1 q = walk s q) /\
    copyContext fuel src tgt s1 = (Return tt, s1).
Proof.
  intros Hc Hdiv Hsrc Hreg Hdep.
  destruct (copyContext_prepared fuel src tgt s Hc) as [s0 [Hcc [Hw0 [Hframe Hagain]]]].
  assert (Hdiv' : diverges tgt src = true) by (rewrite diverges_sym; exact Hdiv).
  assert (Hsrc0 : walk s0 src = Ok (Dir true es)) by (rewrite (Hframe _ Hdiv'); exact Hsrc).
  destruct (copyDirectory_regular fuel s0 src tgt es Hdiv Hsrc0 Hreg Hdep Hw0)
    as [s1 [Hcopy Hput]].
  exists s1. split; [rewrite Hcc; exact Hcopy |].
  split; [eapply walk_put_same; exact Hput |].
  split.
  - intros q Hq. rewrite (walk_put_diverges _ _ _ _ _ Hput Hq). apply Hframe. exact Hq.
  - rewrite (Hagain _ _ Hput); [exact Hcopy |].
    apply all_listable_removable. apply regular_all_listable. exact Hreg.
Qed.

Lemma not_below : forall tgt src,
  diverges tgt src = false -> is_prefix src tgt = false ->
  exists y rest, src = tgt ++ y :: rest.
Proof.
  induction tgt as [| a t IH]; intros [| b q]; simpl; try discriminate.
  - intros _ _. exists b, q. reflexivity.
  - rewrite (String.eqb_sym b a).
    destruct (String.eqb a b) eqn:E; [| discriminate].
    apply String.eqb_eq in E. subst b. simpl.
    intros Hd Hp. destruct (IH q Hd Hp) as [y [rest ->]].
    exists y, rest. reflexivity.
Qed.

(** For a regular tree the measure is the sum of all file lengths. *)
Lemma measure_regular : forall k n,
  (depth n <= k)%nat -> regular n = true ->
  measure n = match n with Dir _ _ => total_bytes n | _ => 0%Z end.
Proof.
  induction k as [| k IH]; intros [c | r es |] Hd Hreg; try reflexivity.
  - rewrite depth_Dir in Hd. lia.
  - rewrite depth_Dir in Hd. rewrite regular_Dir in Hreg.
    apply andb_true_iff in Hreg as [Hreg Hre].
    apply andb_true_iff in Hreg as [-> _].
    rewrite measure_Dir.
    assert (Hgen : forall l size,
               (depth_entries l <= k)%nat -> regular_entries l = true ->
               measure_entries l size = (size + total_bytes (Dir true l))%Z).
    { induction l as [| e l IHl]; intros size Hdl Hrl; simpl in *; [lia |].
      apply andb_true_iff in Hrl as [Hr1 Hr2].
      assert (Hl : (depth_entries l <= k)%nat) by lia.
      specialize (IHl) with (1 := Hl) (2 := Hr2).
      destruct (snd e) as [c | r' es' |] eqn:E; [| | discriminate].
      - rewrite IHl. simpl. lia.
      - rewrite IHl. rewrite (IH (Dir r' es')); [simpl; lia | lia | exact Hr1]. }
    rewrite Hgen; [lia | lia | exact Hre].
Qed.

(** When no directory can be made at the target, [fs.rm] changes nothing
    and both [fs.access] and [fs.mkdir] fail. *)
Lemma not_creatable : forall p n,
  p <> [] -> creatable n p = false ->
  (exists o, rm_rf n p = (o, n)) /\
  (exists e, walk n p = Err e) /\
  (exists e, mkdir_p n p = Err e).
Proof.
  induction p as [| x p IH]; intros n Hne Hc; [congruence |].
  destruct n as [c | r es |].
  - repeat split; simpl; eauto.
  - destruct p as [| y p']; [discriminate |].
    rewrite creatable_deep in Hc.
    rewrite rm_rf_deep, walk_cons, mkdir_p_cons.
    destruct (assoc x es) as [c |] eqn:E; [| discriminate].
    destruct (IH c ltac:(discriminate) Hc) as [[o Hr] [[e Hw] [e' Hm]]].
    rewrite Hr, Hw, Hm, (set_child_id _ _ _ E). repeat split; eauto.
  - repeat split; simpl; eauto.
Qed.

Lemma copyContext_not_creatable fuel src tgt s :
  tgt <> [] -> creatable s tgt = false ->
  exists e, copyContext fuel src tgt s = (Throw e, s).
Proof.
  intros Hne Hc.
  destruct (not_creatable _ _ Hne Hc) as [[o Hr] [[e Hw] [e' Hm]]].
  exists e'.
  cbv [copyContext bind try_catch fs_rm ensureDirectory fs_access access fs_mkdir ret].
  rewrite Hr. destruct o as [u | e0]; cbv beta iota; rewrite Hw; cbv beta iota;
    rewrite Hm; reflexivity.
Qed.

(** Running [copyContext] again on the state it left gives the same
    outcome and the same state, for all sources, when the target can be
    cleared. *)
Lemma copyContext_again fuel src tgt s :
  clearable s tgt = true ->
  copyContext fuel src tgt (snd (copyContext fuel src tgt s))
  = copyContext fuel src tgt s.
Proof.
  intros Hc.
  destruct (copyContext_prepared fuel src tgt s Hc) as [s0 [Hcc [Hw0 [_ Hagain]]]].
  rewrite Hcc.
  destruct (copyDirectory fuel src tgt s0) as [o s1] eqn:Ec.
  destruct (copyDirectory_below _ _ _ _ _ _ _ Hw0 Ec) as [n [v [Hw [Hp [_ Hl]]]]].
  rewrite Hw0 in Hw. injection Hw as <-.
  simpl. apply (Hagain _ _ Hp).
  apply all_listable_removable. apply Hl. reflexivity.
Qed.

(** A call of [copyContext] that returns, with source and target apart
    in a well-formed file system: the copy started with something at the
    target and nothing changed elsewhere, and the source was a regular tree
    within the fuel. *)
(** When the target holds something [fs.rm] cannot remove entirely, the
    rejection is swallowed, [ensureDirectory] finds the target in place,
    and [copyContext] is [copyDirectory] run on what was left. *)
Lemma copyContext_leftover fuel src tgt s c c' :
  tgt <> [] ->
  walk s tgt = Ok c ->
  prune c = Some c' ->
  exists s0,
    put s tgt c' = Ok s0 /\
    walk s0 tgt = Ok c' /\
    copyContext fuel src tgt s = copyDirectory fuel src tgt s0.
Proof.
  intros Hne Hw Hp.
  destruct (rm_rf_leaves _ _ _ _ Hne Hw Hp) as [s0 [Hr Hput]].
  pose proof (walk_put_same _ _ _ _ Hput) as Hw0.
  destruct (prune_leaves_directory _ _ Hp) as [r [es ->]].
  exists s0. split; [exact Hput |]. split; [exact Hw0 |].
  cbv [copyContext bind try_catch fs_rm ensureDirectory fs_access access fs_mkdir ret].
  rewrite Hr. cbv beta iota. rewrite Hw0. reflexivity.
Qed.

(** Where a directory can be made but [fs.rm] does not clear the path,
    something is there of which [fs.rm] leaves a part. *)
Lemma creatable_stuck : forall p n,
  creatable n p = true -> clearable n p = false ->
  exists c c', walk n p = Ok c /\ prune c = Some c'.
Proof.
  induction p as [| x p IH]; intros n Hc Hl.
  - destruct n; discriminate.
  - destruct n as [c | r es |]; try discriminate.
    rewrite walk_cons.
    destruct p as [| y p'].
    + rewrite clearable_last in Hl.
      destruct (assoc x es) as [c |]; [| discriminate].
      apply removable_false in Hl as [c' Hp]. exists c, c'. split; [reflexivity | exact Hp].
    + rewrite clearable_deep in Hl. rewrite creatable_deep in Hc.
      destruct (assoc x es) as [c |]; [| discriminate].
      apply IH; assumption.
Qed.

(** Without its source, [copyDirectory] changes nothing, and its outcome
    is the same in every state that lacks the source. *)
Lemma copyDirectory_no_source fuel src tgt s e :
  walk s src = Err e ->
  exists o, forall s', walk s' src = Err e -> copyDirectory fuel src tgt s' = (o, s').
Proof.
  intros _. destruct fuel as [| f].
  - exists Fuel. reflexivity.
  - exists (Throw e). intros s' Hw.
    simpl. unfold bind, fs_readdir, readdir. rewrite Hw. reflexivity.
Qed.

Lemma diverges_not_nil p q : diverges p q = true -> q <> [].
Proof. destruct p, q; simpl; congruence. Qed.

(** Between two places apart, a second call of [copyContext] changes
    nothing and ends as the first did, whatever the target held. *)
Lemma copyContext_again_apart fuel src tgt s :
  wf s = true -> diverges src tgt = true ->
  copyContext fuel src tgt (snd (copyContext fuel src tgt s))
  = copyContext fuel src tgt s.
Proof.
  intros Hwf Hdiv.
  pose proof (diverges_not_nil _ _ Hdiv) as Hne.
  assert (Hdiv' : diverges tgt src = true) by (rewrite diverges_sym; exact Hdiv).
  destruct (creatable s tgt) eqn:Ec.
  - destruct (clearable s tgt) eqn:El; [apply copyContext_again; exact El |].
    destruct (creatable_stuck _ _ Ec El) as [c [c' [Hw Hp]]].
    destruct (copyContext_leftover fuel src tgt s c c' Hne Hw Hp)
      as [s0 [Hput [Hw0 Hrun]]].
    rewrite Hrun.
    pose proof (walk_put_diverges _ _ _ _ _ Hput Hdiv') as Hsrc0.
    pose proof (prune_idem _ _ _ (le_n _) Hp) as Hpc.
    destruct (walk s src) as [m | e] eqn:Es.
    + assert (Hwm : wf m = true) by (eapply wf_walk; eassumption).
      assert (Hwc : wf c' = true).
      { eapply prune_wf; [apply le_n | | exact Hp]. exact (wf_walk _ _ _ Hwf Hw). }
      destruct (copyDirectory_graft fuel src tgt s0 m c' Hdiv Hwm Hsrc0 Hw0)
        as [s1 [Hcd Hput1]].
      destruct (graft fuel m c') as [o a] eqn:Eg. simpl in Hcd, Hput1.
      rewrite Hcd. simpl snd.
      pose proof (walk_put_same _ _ _ _ Hput1) as Hw1.
      assert (Hra : removable a = false).
      { eapply graft_resists; [| exact Eg]. apply removable_false. eauto. }
      apply removable_false in Hra as [b Hb].
      destruct (copyContext_leftover fuel src tgt s1 a b Hne Hw1 Hb)
        as [s0b [Hputb [Hwb Hrunb]]].
      rewrite Hrunb.
      assert (Hsrcb : walk s0b src = Ok m).
      { rewrite (walk_put_diverges _ _ _ _ _ Hputb Hdiv').
        rewrite (walk_put_diverges _ _ _ _ _ Hput1 Hdiv'). exact Hsrc0. }
      destruct (copyDirectory_graft fuel src tgt s0b m b Hdiv Hwm Hsrcb Hwb)
        as [s2 [Hcd2 Hput2]].
      rewrite (graft_restores _ _ _ _ _ _ Hwm Hwc Hpc Eg Hb) in Hcd2, Hput2.
      simpl in Hcd2, Hput2.
      rewrite (put_twice _ _ _ _ _ Hputb) in Hput2.
      rewrite (put_walk_id _ _ _ Hw1) in Hput2. injection Hput2 as <-.
      exact Hcd2.
    + destruct (copyDirectory_no_source fuel src tgt s e Es) as [o Ho].
      rewrite (Ho s0 Hsrc0). simpl snd.
      destruct (copyContext_leftover fuel src tgt s0 c' c' Hne Hw0 Hpc)
        as [s0' [Hput' [_ Hrun']]].
      rewrite (put_walk_id _ _ _ Hw0) in Hput'. injection Hput' as <-.
      rewrite Hrun'. apply Ho. exact Hsrc0.
  - destruct (copyContext_not_creatable fuel src tgt s Hne Ec) as [e He].
    rewrite He. simpl snd. exact He.
Qed.

Lemma copyContext_success_inv fuel src tgt s s1 :
  wf s = true ->
  diverges src tgt = true ->
  copyContext fuel src tgt s = (Return tt, s1) ->
  exists s0 n es,
    copyDirectory fuel src tgt s0 = (Return tt, s1) /\
    walk s0 tgt = Ok n /\
    walk s0 src = Ok (Dir true es) /\
    walk s src = Ok (Dir true es) /\
    regular (Dir true es) = true /\
    (depth (Dir true es) <= fuel)%nat.
Proof.
  intros Hwf Hdiv Hrun.
  assert (Hdiv' : diverges tgt src = true) by (rewrite diverges_sym; exact Hdiv).
  destruct (copyContext_reaches fuel src tgt s) as [s0 [Hframe [[e He] | [Hcc [n Hn]]]]].
  { rewrite He in Hrun. discriminate. }
  rewrite Hcc in Hrun.
  destruct (copyDirectory_success_listed _ _ _ _ _ Hrun) as [es Hsrc0].
  assert (Hsrc : walk s src = Ok (Dir true es)) by (rewrite <- (Hframe _ Hdiv'); exact Hsrc0).
  destruct (copyDirectory_success_inv fuel src tgt s0 s1 _ _ Hdiv Hn Hsrc0
              (wf_walk _ _ _ Hwf Hsrc) Hrun) as [Hreg Hdep].
  exists s0, n, es. repeat split; assumption.
Qed.













End ContextFacts.

(** * Further properties of the file-system methods *)

Module EnsureFacts.
Import Fs Tree Manager TreeFacts PutFacts CopyFacts PrepareFacts FrameFacts.
Open Scope list_scope.

(** X1: [ensureDirectory] can be called again at no cost: a second call on
    the state the first one left ends the same way and leaves the same
    state. When it returns, [fs.access] succeeds on the path afterwards;
    when it throws, nothing was changed; a path that already exists, be it a
    directory or a regular file, is left exactly as it is (a file is not
    turned into a directory); and nothing at a path that parts ways with the
    given one is ever touched. *)
Theorem ensureDirectory_settles (p : path) (s : fs) :
  ensureDirectory p (snd (ensureDirectory p s)) = ensureDirectory p s /\
  (fst (ensureDirectory p s) = Return tt -> access (snd (ensureDirectory p s)) p = Ok tt) /\
  (forall e, fst (ensureDirectory p s) = Throw e -> snd (ensureDirectory p s) = s) /\
  (access s p = Ok tt -> ensureDirectory p s = (Return tt, s)) /\
  (forall q, diverges p q = true -> walk (snd (ensureDirectory p s)) q = walk s q).
Proof.
  unfold ensureDirectory, try_catch, fs_access, fs_mkdir.
  destruct (access s p) as [[] | e] eqn:Ea; simpl.
  - rewrite Ea. repeat split; auto; discriminate.
  - destruct (mkdir_p s p) as [s' | e'] eqn:Em; simpl.
    + destruct (mkdir_p_walk _ _ _ Em) as [r [es Hw]].
      assert (Ha' : access s' p = Ok tt) by (unfold access; rewrite Hw; reflexivity).
      rewrite Ha'. repeat split; auto; try discriminate.
      intros q Hq. eapply mkdir_p_diverges; eassumption.
    + rewrite Ea, Em. repeat split; auto; discriminate.
Qed.

Lemma ensureDirectory_settles_witness :
  ensureDirectory ["P"; "a.txt"]%string Samples.base_and_stale
    = (Return tt, Samples.base_and_stale) /\
  walk (snd (ensureDirectory ["new"; "dir"]%string Samples.base_and_stale)) ["P"%string]
    = walk Samples.base_and_stale ["P"%string].
Proof.
  destruct (ensureDirectory_settles ["P"; "a.txt"]%string Samples.base_and_stale)
    as [_ [_ [_ [Hexist _]]]].
  destruct (ensureDirectory_settles ["new"; "dir"]%string Samples.base_and_stale)
    as [_ [_ [_ [_ Hframe]]]].
  split; [exact (Hexist eq_refl) | exact (Hframe ["P"%string] eq_refl)].
Defined.

End EnsureFacts.

Module CopyEdgeFacts.
Import Fs Tree Manager TreeFacts PutFacts CopyFacts PrepareFacts FrameFacts ContextFacts.
Open Scope list_scope.

Lemma for_of_app {A} (body : A -> M unit) : forall l1 l2 s,
  for_of (l1 ++ l2) body s =
    match for_of l1 body s with
    | (Return _, s') => for_of l2 body s'
    | r => r
    end.
Proof.
  induction l1 as [| d l1 IH]; intros l2 s; simpl.
  - reflexivity.
  - unfold bind. destruct (body d s) as [[u | e |] s']; try reflexivity.
    apply IH.
Qed.

Lemma distinct_names_app_l : forall l1 l2,
  distinct_names (l1 ++ l2) = true -> distinct_names l1 = true.
Proof.
  induction l1 as [| e l1 IH]; intros l2 H; [reflexivity |].
  simpl in *. apply andb_true_iff in H as [H1 H2].
  rewrite (IH _ H2), andb_true_r.
  clear -H1. induction l1 as [| d l1 IHl]; simpl in *; [reflexivity |].
  apply andb_true_iff in H1 as [Ha Hb]. rewrite Ha. simpl. auto.
Qed.

Lemma fresh_in_of_assoc x es : assoc x es = None -> fresh_in x es = true.
Proof.
  induction es as [| [y n] es IH]; simpl; [reflexivity |].
  destruct (String.eqb x y); [discriminate |]. exact IH.
Qed.

Lemma copyContext_outside_unchanged fuel src tgt s q :
  diverges tgt q = true ->
  walk (snd (copyContext fuel src tgt s)) q = walk s q.
Proof.
  intros Hq.
  destruct (copyContext_reaches fuel src tgt s) as [s0 [Hframe [[e He] | [Hcc [m Hm]]]]].
  - rewrite He. simpl. apply Hframe. exact Hq.
  - rewrite Hcc.
    destruct (copyDirectory fuel src tgt s0) as [o s1] eqn:Ec.
    destruct (copyDirectory_below _ _ _ _ _ _ _ Hm Ec) as [n [v [_ [Hp _]]]].
    simpl. rewrite (walk_put_diverges _ _ _ _ _ Hp Hq). apply Hframe. exact Hq.
Qed.



(** X3: [copyDirectory] by itself merges: called on a target directory
    that already has entries, it keeps them and adds the copies of the source
    entries after them (here for names the target does not have yet). That
    is why [copyContext] removes the target first. *)
Theorem copyDirectory_merges fuel s src tgt es old :
  diverges src tgt = true ->
  walk s src = Ok (Dir true es) ->
  regular (Dir true es) = true ->
  (depth (Dir true es) <= fuel)%nat ->
  walk s tgt = Ok (Dir true old) ->
  distinct_names (old ++ es) = true ->
  exists s1,
    copyDirectory fuel src tgt s = (Return tt, s1) /\
    walk s1 tgt = Ok (Dir true (old ++ es)) /\
    walk s1 src = walk s src.
Proof.
  intros Hdiv Hsrc Hreg Hdep Htgt Hdist.
  destruct fuel as [| fuel]; [rewrite depth_Dir in Hdep; lia |].
  rewrite depth_Dir in Hdep.
  rewrite regular_Dir in Hreg. apply andb_true_iff in Hreg as [Hreg Hre].
  apply andb_true_iff in Hreg as [_ Hdn].
  destruct (copy_loop fuel src tgt (copyDirectory_regular fuel) Hdiv es es old s)
    as [s1 [Hl Hput]]; try assumption.
  { intros e He. apply assoc_in_distinct; assumption. }
  { lia. }
  exists s1. split; [| split].
  - simpl. unfold bind at 1, fs_readdir. rewrite (SizeFacts.readdir_Dir _ _ _ Hsrc).
    exact Hl.
  - eapply walk_put_same. exact Hput.
  - eapply walk_put_diverges; [exact Hput |]. rewrite diverges_sym. exact Hdiv.
Qed.

Lemma copyDirectory_merges_witness :
  exists s1,
    copyDirectory 2 ["P"%string] ["Q"%string] Samples.base_and_stale = (Return tt, s1) /\
    walk s1 ["Q"; "stale"]%string = Ok (File (Samples.bytes 3)) /\
    walk s1 ["Q"; "a.txt"]%string = Ok (File (Samples.bytes 10)).
Proof.
  destruct (copyDirectory_merges 2 Samples.base_and_stale ["P"%string] ["Q"%string]
              Samples.base_entries [("stale"%string, File (Samples.bytes 3))]
              eq_refl eq_refl eq_refl (le_n 2) eq_refl eq_refl)
    as [s1 [Hrun [Htgt _]]].
  exists s1. split; [exact Hrun |].
  change ["Q"; "stale"]%string with (["Q"%string] ++ ["stale"%string]).
  change ["Q"; "a.txt"]%string with (["Q"%string] ++ ["a.txt"%string]).
  rewrite !walk_app, Htgt. split; reflexivity.
Defined.

(** The copy of a directory whose first entries [es1] are regular: they
    are copied, and the loop goes on with the rest from that state. *)
Lemma copyDirectory_good_prefix f s0 src tgt es1 rest :
  diverges src tgt = true ->
  walk s0 src = Ok (Dir true (es1 ++ rest)) ->
  distinct_names (es1 ++ rest) = true ->
  regular_entries es1 = true ->
  (depth_entries es1 <= f)%nat ->
  walk s0 tgt = Ok (Dir true []) ->
  exists sa,
    put s0 tgt (Dir true es1) = Ok sa /\
    copyDirectory (S f) src tgt s0 =
      for_of (map to_dirent rest)
        (fun entry =>
           if isDirectory entry then
             ensureDirectory (join tgt (name entry)) ;;
             copyDirectory f (join src (name entry)) (join tgt (name entry))
           else fs_copyFile (join src (name entry)) (join tgt (name entry))) sa.
Proof.
  intros Hdiv Hsrc Hdist Hreg Hdep Htgt.
  destruct (copy_loop f src tgt (copyDirectory_regular f) Hdiv (es1 ++ rest) es1 [] s0)
    as [sa [Hl Hput]]; try assumption.
  { intros e He. apply assoc_in_distinct; [exact Hdist |].
    apply in_or_app. left. exact He. }
  { simpl. eapply distinct_names_app_l. exact Hdist. }
  exists sa. split; [exact Hput |].
  simpl. unfold bind at 1, fs_readdir. rewrite (SizeFacts.readdir_Dir _ _ _ Hsrc).
  rewrite map_app, for_of_app.
  cbv zeta. rewrite Hl. reflexivity.
Qed.

(** X4: no rollback. When the source directory lists a dangling link after
    some regular entries and the target can be cleared, [copyContext] throws
    at the link, and what it leaves at the target is the copies of the
    entries before it: the target is neither complete nor removed, and the
    source is as it was. *)
Theorem copyContext_stops_at_dangling_link f src tgt s es1 x es2 :
  clearable s tgt = true ->
  diverges src tgt = true ->
  walk s src = Ok (Dir true (es1 ++ (x, Dangling) :: es2)) ->
  distinct_names (es1 ++ (x, Dangling) :: es2) = true ->
  regular_entries es1 = true ->
  (depth_entries es1 <= f)%nat ->
  exists s1,
    copyContext (S f) src tgt s = (Throw ENOENT, s1) /\
    walk s1 tgt = Ok (Dir true es1) /\
    walk s1 src = walk s src.
Proof.
  intros Hc Hdiv Hsrc Hdist Hreg Hdep.
  assert (Hdiv' : diverges tgt src = true) by (rewrite diverges_sym; exact Hdiv).
  destruct (copyContext_prepared (S f) src tgt s Hc) as [s0 [Hcc [Hw0 [Hframe _]]]].
  assert (Hsrc0 : walk s0 src = Ok (Dir true (es1 ++ (x, Dangling) :: es2)))
    by (rewrite (Hframe _ Hdiv'); exact Hsrc).
  destruct (copyDirectory_good_prefix f s0 src tgt es1 ((x, Dangling) :: es2)
              Hdiv Hsrc0 Hdist Hreg Hdep Hw0) as [sa [Hput Hrun]].
  assert (Hsrca : walk sa src = Ok (Dir true (es1 ++ (x, Dangling) :: es2)))
    by (rewrite (walk_put_diverges _ _ _ _ _ Hput Hdiv'); exact Hsrc0).
  exists sa. split; [| split].
  - rewrite Hcc, Hrun. simpl. unfold bind, fs_copyFile, copyFile.
    rewrite (walk_join _ _ x _ _ Hsrca).
    pose proof (assoc_in_distinct (x, Dangling) _ Hdist
                  ltac:(apply in_or_app; right; left; reflexivity)) as Ha.
    simpl in Ha. rewrite Ha. reflexivity.
  - eapply walk_put_same. exact Hput.
  - rewrite Hsrca, Hsrc. reflexivity.
Qed.

Lemma copyContext_stops_at_dangling_link_witness :
  exists s1,
    copyContext 1 ["src"%string] ["copy"%string]
      (Dir true [("src"%string, Samples.with_dangling_link)]) = (Throw ENOENT, s1) /\
    walk s1 ["copy"%string] = Ok (Dir true [("a.bin"%string, File (Samples.bytes 10))]).
Proof.
  destruct (copyContext_stops_at_dangling_link 0
              ["src"%string] ["copy"%string]
              (Dir true [("src"%string, Samples.with_dangling_link)])
              [("a.bin"%string, File (Samples.bytes 10))] "gone"%string
              [("b.bin"%string, File (Samples.bytes 7))]
              eq_refl eq_refl eq_refl eq_refl eq_refl (le_n 0))
    as [s1 [Hrun [Htgt _]]].
  exists s1. split; assumption.
Defined.

(** X5: when the source lists a subdirectory that cannot be read after
    some regular entries and the target can be cleared, [copyContext] throws
    [EACCES] from the nested [readdir]; by then [ensureDirectory] has
    already made the counterpart, so the target holds the copies of the
    earlier entries followed by an empty directory of that name. *)
Theorem copyContext_stops_at_unlistable_directory f src tgt s es1 x sub es2 :
  clearable s tgt = true ->
  diverges src tgt = true ->
  walk s src = Ok (Dir true (es1 ++ (x, Dir false sub) :: es2)) ->
  distinct_names (es1 ++ (x, Dir false sub) :: es2) = true ->
  regular_entries es1 = true ->
  (depth_entries es1 <= S f)%nat ->
  exists s1,
    copyContext (S (S f)) src tgt s = (Throw EACCES, s1) /\
    walk s1 tgt = Ok (Dir true (es1 ++ [(x, Dir true [])])) /\
    walk s1 src = walk s src.
Proof.
  intros Hc Hdiv Hsrc Hdist Hreg Hdep.
  assert (Hdiv' : diverges tgt src = true) by (rewrite diverges_sym; exact Hdiv).
  destruct (copyContext_prepared (S (S f)) src tgt s Hc) as [s0 [Hcc [Hw0 [Hframe _]]]].
  assert (Hsrc0 : walk s0 src = Ok (Dir true (es1 ++ (x, Dir false sub) :: es2)))
    by (rewrite (Hframe _ Hdiv'); exact Hsrc).
  destruct (copyDirectory_good_prefix (S f) s0 src tgt es1 ((x, Dir false sub) :: es2)
              Hdiv Hsrc0 Hdist Hreg Hdep Hw0) as [sa [Hput Hrun]].
  assert (Hsrca : walk sa src = Ok (Dir true (es1 ++ (x, Dir false sub) :: es2)))
    by (rewrite (walk_put_diverges _ _ _ _ _ Hput Hdiv'); exact Hsrc0).
  pose proof (walk_put_same _ _ _ _ Hput) as Htgta.
  assert (Hfresh : assoc x es1 = None).
  { apply (distinct_names_app_cons es1 (x, Dir false sub) es2). exact Hdist. }
  destruct (ensureDirectory_new _ _ _ _ x Htgta Hfresh) as [sb [He Hputb]].
  assert (Hsrcb : walk sb (join src x) = Ok (Dir false sub)).
  { assert (Hdx : diverges tgt (join src x) = true).
    { unfold join. rewrite <- (app_nil_r tgt). apply diverges_app. exact Hdiv'. }
    rewrite (walk_put_diverges _ _ _ _ _ Hputb Hdx).
    rewrite (walk_join _ _ x _ _ Hsrca).
    pose proof (assoc_in_distinct (x, Dir false sub) _ Hdist
                  ltac:(apply in_or_app; right; left; reflexivity)) as Ha.
    simpl in Ha. rewrite Ha. reflexivity. }
  exists sb. split; [| split].
  - rewrite Hcc, Hrun. simpl. unfold bind at 1. unfold bind at 1. rewrite He.
    unfold bind at 1, fs_readdir, readdir. rewrite Hsrcb. reflexivity.
  - eapply walk_put_same. exact Hputb.
  - rewrite (walk_put_diverges _ _ _ _ _ Hputb Hdiv'), Hsrca, Hsrc. reflexivity.
Qed.

Lemma copyContext_stops_at_unlistable_directory_witness :
  exists s1,
    copyContext 2 ["src"%string] ["copy"%string]
      (Dir true [("src"%string, Samples.partly_unreadable)]) = (Throw EACCES, s1) /\
    walk s1 ["copy"%string]
      = Ok (Dir true [("a.bin"%string, File (Samples.bytes 10));
                      ("locked"%string, Dir true [])]).
Proof.
  destruct (copyContext_stops_at_unlistable_directory 0
              ["src"%string] ["copy"%string]
              (Dir true [("src"%string, Samples.partly_unreadable)])
              [("a.bin"%string, File (Samples.bytes 10))] "locked"%string
              [("x.bin"%string, File (Samples.bytes 5))]
              [("b.bin"%string, File (Samples.bytes 7))]
              eq_refl eq_refl eq_refl eq_refl eq_refl (le_S _ _ (le_n 0)))
    as [s1 [Hrun [Htgt _]]].
  exists s1. split; assumption.
Defined.

(** X6: copying a directory that [fs.rm] can remove onto itself empties
    it. The target is removed before the source is read, so whatever the
    path held is lost and the call returns normally on the empty directory
    it made. *)
Theorem copyContext_onto_itself_empties fuel p s :
  clearable s p = true ->
  exists s1,
    copyContext (S fuel) p p s = (Return tt, s1) /\
    walk s1 p = Ok (Dir true []) /\
    (forall q, diverges p q = true -> walk s1 q = walk s q).
Proof.
  intros Hc.
  destruct (copyContext_prepared (S fuel) p p s Hc) as [s0 [Hcc [Hw0 [Hframe _]]]].
  exists s0. split; [| split; assumption].
  rewrite Hcc. simpl. unfold bind, fs_readdir, readdir. rewrite Hw0. reflexivity.
Qed.

Lemma copyContext_onto_itself_empties_witness :
  exists s1,
    copyContext 1 ["P"%string] ["P"%string] Samples.base_and_stale = (Return tt, s1) /\
    walk s1 ["P"%string] = Ok (Dir true []).
Proof.
  destruct (copyContext_onto_itself_empties 0 ["P"%string] Samples.base_and_stale eq_refl)
    as [s1 [Hrun [Hp _]]].
  exists s1. split; assumption.
Defined.

(** X7: a source that lies inside a target that can be cleared is
    destroyed: removing the target removes it, so [copyContext] throws
    [ENOENT], and what is left is an empty target directory. *)
Theorem copyContext_source_inside_target_is_lost fuel tgt y rest s :
  clearable s tgt = true ->
  exists s1,
    copyContext (S fuel) (tgt ++ y :: rest) tgt s = (Throw ENOENT, s1) /\
    walk s1 tgt = Ok (Dir true []) /\
    walk s1 (tgt ++ y :: rest) = Err ENOENT.
Proof.
  intros Hc.
  destruct (copyContext_prepared (S fuel) (tgt ++ y :: rest) tgt s Hc)
    as [s0 [Hcc [Hw0 _]]].
  assert (Hgone : walk s0 (tgt ++ y :: rest) = Err ENOENT)
    by (rewrite walk_app, Hw0; reflexivity).
  exists s0. split; [| split; assumption].
  rewrite Hcc. simpl. unfold bind, fs_readdir, readdir. rewrite Hgone. reflexivity.
Qed.

Lemma copyContext_source_inside_target_is_lost_witness :
  walk Samples.base_and_stale ["P"; "sub"]%string
    = Ok (Dir true [("b.txt"%string, File (Samples.bytes 20))]) /\
  exists s1,
    copyContext 1 ["P"; "sub"]%string ["P"%string] Samples.base_and_stale
      = (Throw ENOENT, s1) /\
    walk s1 ["P"; "sub"]%string = Err ENOENT.
Proof.
  split; [reflexivity |].
  destruct (copyContext_source_inside_target_is_lost 0 ["P"%string] "sub"%string []
              Samples.base_and_stale eq_refl) as [s1 [Hrun [_ Hgone]]].
  exists s1. split; assumption.
Defined.

Lemma through_file : forall anc s c x rest,
  walk s anc = Ok (File c) ->
  rm_rf s (anc ++ x :: rest) = (Err ENOTDIR, s) /\
  walk s (anc ++ x :: rest) = Err ENOTDIR /\
  mkdir_p s (anc ++ x :: rest) = Err ENOTDIR.
Proof.
  induction anc as [| a anc IH]; intros s c x rest Hw.
  - simpl in Hw. injection Hw as ->. repeat split; reflexivity.
  - destruct s as [c0 | r es |]; try discriminate.
    rewrite walk_cons in Hw.
    destruct (assoc a es) as [n |] eqn:E; [| discriminate].
    destruct (IH n c x rest Hw) as [Hr [Hwk Hm]].
    simpl app. rewrite walk_cons, mkdir_p_cons, E, Hwk, Hm.
    repeat split.
    destruct (anc ++ x :: rest) as [| z zs] eqn:Ez.
    + destruct anc; discriminate.
    + rewrite rm_rf_deep, E, Hr, (set_child_id _ _ _ E). reflexivity.
Qed.

(** X8: when an ancestor of the target path is a regular file,
    [copyContext] throws [ENOTDIR] from [ensureDirectory] (the failure of
    [fs.rm] itself is swallowed at line 86) and leaves the file system
    exactly as it was, whatever the source. *)
Theorem copyContext_under_a_file_changes_nothing fuel src anc c x rest s :
  walk s anc = Ok (File c) ->
  copyContext fuel src (anc ++ x :: rest) s = (Throw ENOTDIR, s).
Proof.
  intros Hw. destruct (through_file anc s c x rest Hw) as [Hr [Hwk Hm]].
  cbv [copyContext bind try_catch fs_rm ensureDirectory fs_access access fs_mkdir ret].
  rewrite Hr. cbv beta iota. rewrite Hwk. cbv beta iota. rewrite Hm. reflexivity.
Qed.

Lemma copyContext_under_a_file_changes_nothing_witness :
  copyContext 3 ["P"%string] ["P"; "a.txt"; "session"]%string Samples.base_and_stale
  = (Throw ENOTDIR, Samples.base_and_stale).
Proof.
  exact (copyContext_under_a_file_changes_nothing 3 ["P"%string] ["P"; "a.txt"]%string
           (Samples.bytes 10) "session"%string [] Samples.base_and_stale eq_refl).
Defined.

(** X21: the [catch] of lines 84-88 at work. When the target holds
    something [fs.rm] cannot remove entirely (a non-empty directory that
    cannot be listed, somewhere inside), the rejection is swallowed,
    [ensureDirectory] finds the target in place, and [copyContext] is
    [copyDirectory] run on what was left: the copy is merged into it. *)
Theorem copyContext_merges_into_what_rm_leaves fuel src tgt s c c' :
  tgt <> [] ->
  walk s tgt = Ok c ->
  prune c = Some c' ->
  exists s0,
    put s tgt c' = Ok s0 /\
    walk s0 tgt = Ok c' /\
    copyContext fuel src tgt s = copyDirectory fuel src tgt s0.
Proof.
  intros Hne Hw Hp.
  destruct (rm_rf_leaves _ _ _ _ Hne Hw Hp) as [s0 [Hr Hput]].
  pose proof (walk_put_same _ _ _ _ Hput) as Hw0.
  destruct (prune_leaves_directory _ _ Hp) as [r [es ->]].
  exists s0. split; [exact Hput |]. split; [exact Hw0 |].
  cbv [copyContext bind try_catch fs_rm ensureDirectory fs_access access fs_mkdir ret].
  rewrite Hr. cbv beta iota. rewrite Hw0. reflexivity.
Qed.

Lemma copyContext_merges_into_what_rm_leaves_witness :
  exists s0,
    copyContext 2 ["P"%string] ["Q"%string] Samples.base_and_locked_stale
      = copyDirectory 2 ["P"%string] ["Q"%string] s0 /\
    walk s0 ["Q"; "cache"; "stale"]%string = Ok (File (Samples.bytes 3)).
Proof.
  destruct (copyContext_merges_into_what_rm_leaves 2 ["P"%string] ["Q"%string]
              Samples.base_and_locked_stale
              (Dir true [("cache"%string, Dir false [("stale"%string, File (Samples.bytes 3))])])
              (Dir true [("cache"%string, Dir false [("stale"%string, File (Samples.bytes 3))])])
              ltac:(discriminate) eq_refl eq_refl)
    as [s0 [Hput [_ Hrun]]].
  exists s0. split; [exact Hrun |].
  injection Hput as <-. reflexivity.
Defined.



End CopyEdgeFacts.

Module SizeEdgeFacts.
Import Fs Tree Manager TreeFacts SizeFacts.
Open Scope list_scope.
Open Scope Z_scope.

Lemma depth_entries_app a b :
  depth_entries (a ++ b) = Nat.max (depth_entries a) (depth_entries b).
Proof.
  induction a as [| e a IH]; simpl; [reflexivity |]. rewrite IH. lia.
Qed.

Lemma depth_entries_cons e l :
  depth_entries (e :: l) = Nat.max (depth (snd e)) (depth_entries l).
Proof. reflexivity. Qed.

Lemma fresh_in_app x a b : fresh_in x (a ++ b) = fresh_in x a && fresh_in x b.
Proof.
  induction a as [| e a IH]; simpl; [reflexivity |].
  rewrite IH. rewrite andb_assoc. reflexivity.
Qed.

Lemma distinct_names_drop a e b :
  distinct_names (a ++ e :: b) = true -> distinct_names (a ++ b) = true.
Proof.
  induction a as [| d a IH]; simpl.
  - intros H. apply andb_true_iff in H as [_ H]. exact H.
  - intros H. apply andb_true_iff in H as [H1 H2].
    rewrite (IH H2), andb_true_r.
    rewrite fresh_in_app in *. simpl in H1.
    apply andb_true_iff in H1 as [Ha Hb]. apply andb_true_iff in Hb as [_ Hb].
    rewrite Ha, Hb. reflexivity.
Qed.

Lemma wf_drop a e b :
  wf (Dir true (a ++ e :: b)) = true ->
  wf (Dir true (a ++ b)) = true /\ wf (Dir true a) = true.
Proof.
  rewrite !wf_Dir. unfold wf_entries. rewrite !forallb_app. simpl.
  intros H. apply andb_true_iff in H as [Hd Hw].
  apply andb_true_iff in Hw as [Hwa Hwb]. apply andb_true_iff in Hwb as [_ Hwb].
  rewrite (distinct_names_drop _ _ _ Hd), Hwa, Hwb.
  rewrite (CopyEdgeFacts.distinct_names_app_l _ _ Hd). split; reflexivity.
Qed.

Lemma measure_entries_skips_unlistable a x sub b : forall size,
  measure_entries (a ++ (x, Dir false sub) :: b) size = measure_entries (a ++ b) size.
Proof.
  induction a as [| e a IH]; intros size; simpl.
  - f_equal. lia.
  - destruct (snd e); try apply IH. reflexivity.
Qed.

Lemma measure_entries_stops_at_dangling a x b : forall size,
  measure_entries (a ++ (x, Dangling) :: b) size = measure_entries a size.
Proof.
  induction a as [| e a IH]; intros size; simpl.
  - reflexivity.
  - destruct (snd e); try apply IH. reflexivity.
Qed.

(** X9: for a tree of regular files and listable directories,
    [getContextSize] returns exactly the sum of the lengths of all files in
    it, at every depth; directories themselves add nothing. *)
Theorem getContextSize_sums_file_lengths fuel s p es :
  walk s p = Ok (Dir true es) ->
  regular (Dir true es) = true ->
  (depth (Dir true es) < fuel)%nat ->
  getContextSize fuel s p = Return (total_bytes (Dir true es)).
Proof.
  intros Hw Hreg Hd.
  pose proof (ContextFacts.measure_regular _ _ (le_n _) Hreg) as Hm.
  change (measure (Dir true es) = total_bytes (Dir true es)) in Hm.
  rewrite getContextSize_eq, <- Hm.
  apply getDirectorySize_measure; [exact Hw | apply regular_wf; exact Hreg | exact Hd].
Qed.

Lemma getContextSize_sums_file_lengths_witness :
  getContextSize 3 Samples.base_and_stale ["P"%string] = Return 30.
Proof.
  exact (getContextSize_sums_file_lengths 3 Samples.base_and_stale ["P"%string]
           Samples.base_entries eq_refl eq_refl (le_n 3)).
Defined.

(** X10: a subdirectory that cannot be listed counts as nothing and does
    not stop the measurement: the result is what the directory would give
    without that entry, the entries listed after it included. *)
Theorem getContextSize_skips_unlistable_directory fuel es1 x sub es2 :
  wf (Dir true (es1 ++ (x, Dir false sub) :: es2)) = true ->
  (depth (Dir true (es1 ++ (x, Dir false sub) :: es2)) < fuel)%nat ->
  getContextSize fuel (Dir true (es1 ++ (x, Dir false sub) :: es2)) []
  = getContextSize fuel (Dir true (es1 ++ es2)) [].
Proof.
  intros Hwf Hd. destruct (wf_drop _ _ _ Hwf) as [Hwf' _].
  rewrite !getContextSize_eq.
  rewrite (getDirectorySize_measure fuel _ [] _ eq_refl Hwf Hd).
  rewrite depth_Dir, depth_entries_app, depth_entries_cons in Hd.
  rewrite (getDirectorySize_measure fuel _ [] _ eq_refl Hwf').
  2:{ rewrite depth_Dir, depth_entries_app. lia. }
  rewrite !measure_Dir, measure_entries_skips_unlistable. reflexivity.
Qed.

Lemma getContextSize_skips_unlistable_directory_witness :
  getContextSize 3 Samples.partly_unreadable []
  = getContextSize 3
      (Dir true [("a.bin"%string, File (Samples.bytes 10));
                 ("b.bin"%string, File (Samples.bytes 7))]) [].
Proof.
  exact (getContextSize_skips_unlistable_directory 3
           [("a.bin"%string, File (Samples.bytes 10))] "locked"%string
           [("x.bin"%string, File (Samples.bytes 5))]
           [("b.bin"%string, File (Samples.bytes 7))] eq_refl (le_n 3)).
Defined.

(** X11: an entry whose [stat] fails (a dangling link) ends the
    measurement of its directory: the result is what the entries listed
    before it give, and nothing listed after it is counted. *)
Theorem getContextSize_stops_at_dangling_link fuel es1 x es2 :
  wf (Dir true (es1 ++ (x, Dangling) :: es2)) = true ->
  (depth (Dir true (es1 ++ (x, Dangling) :: es2)) < fuel)%nat ->
  getContextSize fuel (Dir true (es1 ++ (x, Dangling) :: es2)) []
  = getContextSize fuel (Dir true es1) [].
Proof.
  intros Hwf Hd. destruct (wf_drop _ _ _ Hwf) as [_ Hwf'].
  rewrite !getContextSize_eq.
  rewrite (getDirectorySize_measure fuel _ [] _ eq_refl Hwf Hd).
  rewrite depth_Dir, depth_entries_app, depth_entries_cons in Hd.
  rewrite (getDirectorySize_measure fuel _ [] _ eq_refl Hwf').
  2:{ rewrite depth_Dir. lia. }
  rewrite !measure_Dir, measure_entries_stops_at_dangling. reflexivity.
Qed.

Lemma getContextSize_stops_at_dangling_link_witness :
  getContextSize 2 Samples.with_dangling_link []
  = getContextSize 2 (Dir true [("a.bin"%string, File (Samples.bytes 10))]) [].
Proof.
  exact (getContextSize_stops_at_dangling_link 2
           [("a.bin"%string, File (Samples.bytes 10))] "gone"%string
           [("b.bin"%string, File (Samples.bytes 7))] eq_refl (le_n 2)).
Defined.

End SizeEdgeFacts.

(** * Further properties of the browser side and of the scripts *)

Module LifecycleEdgeFacts.
Import Fs Manager Lifecycle Scripts LifecycleFacts.
Open Scope list_scope.
Open Scope nat_scope.

Lemma remove_handle_fresh c cs :
  Forall (fun h => h < c) cs -> remove_handle c cs = cs.
Proof.
  induction 1 as [| h cs Hh _ IH]; [reflexivity |].
  unfold remove_handle in *. simpl.
  destruct (Nat.eqb h c) eqn:E; [apply Nat.eqb_eq in E; lia |].
  simpl. rewrite IH. reflexivity.
Qed.

Lemma Forall_lt_weaken (n m : nat) cs :
  n <= m -> Forall (fun h => h < n) cs -> Forall (fun h => h < m) cs.
Proof.
  intros Hnm H. eapply Forall_impl; [| exact H]. simpl. intros; lia.
Qed.

Lemma open_browsers_after_close w :
  open_browsers (drv w) = owned w ->
  open_browsers (match browser (this w) with
                 | Some b => browser_close b (drv w)
                 | None => drv w
                 end) = [].
Proof.
  unfold owned. destruct (browser (this w)) as [b |]; simpl; intros ->; [| reflexivity].
  unfold remove_handle. simpl. rewrite Nat.eqb_refl. reflexivity.
Qed.

(** X12: [cleanup] is safe to call any number of times: a second call
    changes nothing; after it the manager refers to no browser, the browser
    it referred to is closed, and on a manager without a browser no driver
    call is made at all. *)
Theorem cleanup_idempotent (w : world) :
  cleanup (cleanup w) = cleanup w /\
  browser (this (cleanup w)) = None /\
  (forall b, browser (this w) = Some b ->
     ~ In b (open_browsers (drv (cleanup w))) /\
     trace (drv (cleanup w)) = trace (drv w) ++ [CloseBrowser b]) /\
  (browser (this w) = None -> cleanup w = w).
Proof.
  unfold cleanup.
  destruct (browser (this w)) as [b |] eqn:E; simpl.
  - split; [reflexivity |]. split; [reflexivity |]. split; [| discriminate].
    intros b' [= <-]. split; [apply not_in_remove_handle | reflexivity].
  - rewrite E. split; [reflexivity |]. split; [reflexivity |]. split; [discriminate |].
    reflexivity.
Qed.

Lemma cleanup_idempotent_witness :
  ~ In 0 (open_browsers (drv (cleanup (initialize (start (Dir true [])))))).
Proof.
  destruct (cleanup_idempotent (initialize (start (Dir true [])))) as [_ [_ [H _]]].
  exact (proj1 (H 0 eq_refl)).
Defined.

Lemma createBaseContext_tidy_inv run contextPath url w :
  tidy w ->
  tidy (snd (createBaseContext run contextPath url w)) /\
  open_contexts (drv (snd (createBaseContext run contextPath url w)))
    = open_contexts (drv w).
Proof.
  intros [Hb [Hbf Hc]]. unfold createBaseContext.
  destruct (ensureDirectory contextPath (disk w)) as [o s] eqn:E.
  assert (Hgo :
    forall d0, d0 = match browser (this w) with
                    | Some b => browser_close b (drv w) | None => drv w end ->
    let '(context, d) := chromium_launchPersistentContext contextPath d0 in
    let '(result, d1) := warm_cache run context url d in
    let d2 := context_close context d1 in
    let '(b, d3) := chromium_launch d2 in
    tidy {| this := {| browser := Some b |}; drv := d3; disk := s |} /\
    open_contexts d3 = open_contexts (drv w)).
  { intros d0 Hd0.
    assert (Hob : open_browsers d0 = []) by (subst d0; apply open_browsers_after_close; exact Hb).
    assert (Hoc : open_contexts d0 = open_contexts (drv w))
      by (subst d0; destruct (browser (this w)); reflexivity).
    assert (Hnx : next d0 = next (drv w))
      by (subst d0; destruct (browser (this w)); reflexivity).
    unfold chromium_launchPersistentContext.
    set (d1 := {| open_browsers := open_browsers d0;
                  open_contexts := next d0 :: open_contexts d0;
                  next := S (next d0);
                  trace := trace d0 ++ [LaunchPersistent (next d0) contextPath] |}).
    pose proof (warm_cache_trace run (next d0) url d1) as [mid [_ [Hwb [Hwc Hwn]]]].
    destruct (warm_cache run (next d0) url d1) as [res d2]. simpl in *.
    assert (Hrem : remove_handle (next d0) (open_contexts d2) = open_contexts (drv w)).
    { rewrite Hwc. unfold remove_handle. simpl. rewrite Nat.eqb_refl. simpl.
      rewrite Hoc. apply remove_handle_fresh. rewrite Hnx. exact Hc. }
    split; [| exact Hrem].
    unfold tidy, owned. simpl. split; [| split].
    - rewrite Hwb, Hob. reflexivity.
    - rewrite Hwb, Hob. constructor; [lia | constructor].
    - rewrite Hrem, Hwn. eapply Forall_lt_weaken; [| exact Hc]. lia. }
  destruct o as [u | e |].
  - specialize (Hgo _ eq_refl).
    destruct (chromium_launchPersistentContext contextPath _) as [context d].
    destruct (warm_cache run context url d) as [result d1].
    simpl in Hgo |- *. exact Hgo.
  - simpl. split; [split; [| split]; assumption | reflexivity].
  - specialize (Hgo _ eq_refl).
    destruct (chromium_launchPersistentContext contextPath _) as [context d].
    destruct (warm_cache run context url d) as [result d1].
    simpl in Hgo |- *. exact Hgo.
Qed.

(** X13: [createBaseContext] leaks nothing. Started on a manager whose only
    running browser is the one it refers to, it ends, whether it returns or
    throws, with exactly one running browser, the one now in [this.browser],
    and with the same persistent contexts open as before: the one it opened
    is closed again. *)
Theorem createBaseContext_keeps_tidy run contextPath url w :
  tidy w ->
  tidy (snd (createBaseContext run contextPath url w)) /\
  open_contexts (drv (snd (createBaseContext run contextPath url w)))
    = open_contexts (drv w).
Proof. apply createBaseContext_tidy_inv. Qed.

Lemma tidy_after_initialize s : tidy (initialize (start s)).
Proof.
  split; [reflexivity |]. split; [| constructor].
  constructor; [simpl; lia | constructor].
Qed.

Lemma createBaseContext_keeps_tidy_witness :
  let run := {| newPage_ok := true; goto_ok := false;
                waitForTimeout_ok := true; waitForResponse_ok := true |} in
  let w := initialize (start (Dir true [])) in
  open_browsers (drv (snd (createBaseContext run ["base"%string] "u"%string w)))
    = owned (snd (createBaseContext run ["base"%string] "u"%string w)) /\
  open_contexts (drv (snd (createBaseContext run ["base"%string] "u"%string w))) = [].
Proof.
  intros run w.
  assert (Ht : tidy w).
  { split; [reflexivity |]. split; [| constructor].
    constructor; [simpl; lia | constructor]. }
  destruct (createBaseContext_keeps_tidy run ["base"%string] "u"%string w Ht)
    as [[Hb _] Hc].
  split; [exact Hb | exact Hc].
Defined.

Lemma useExistingContext_returns run contextPath url w :
  (match url with
   | Some u => String.eqb u "" || (newPage_ok run && goto_ok run)
   | None => true
   end) = true ->
  let d0 := match browser (this w) with
            | Some b => browser_close b (drv w) | None => drv w end in
  exists mid,
    useExistingContext run contextPath url w =
      ((Returned, Some (next d0)),
       {| this := {| browser := Some (S (next d0)) |};
          drv := {| open_browsers := S (next d0) :: open_browsers d0;
                    open_contexts := next d0 :: open_contexts d0;
                    next := S (S (next d0));
                    trace := trace d0 ++ [LaunchPersistent (next d0) contextPath]
                               ++ mid ++ [Launch (S (next d0))] |};
          disk := disk w |}).
Proof.
  intros Hnav d0. unfold useExistingContext. fold d0.
  unfold chromium_launchPersistentContext, chromium_launch, log.
  destruct url as [u |].
  - destruct (String.eqb u "") eqn:Eu.
    + simpl. exists []. repeat rewrite <- app_assoc. reflexivity.
    + simpl in Hnav. apply andb_true_iff in Hnav as [-> ->]. simpl.
      exists [NewPage (next d0); Goto (next d0) u].
      repeat rewrite <- app_assoc. reflexivity.
  - simpl. exists []. repeat rewrite <- app_assoc. reflexivity.
Qed.

(** X14: when the navigation succeeds (or no URL is given, or an empty
    one, for which no page is opened), [useExistingContext] hands the caller a persistent context that is still
    open, and it is the only new thing left open: the browser the manager
    held is closed and replaced by a new one in [this.browser]. Closing the
    returned context is left to the caller. *)
Theorem useExistingContext_hands_over_open_context run contextPath url w :
  tidy w ->
  (match url with
   | Some u => String.eqb u "" || (newPage_ok run && goto_ok run)
   | None => true
   end) = true ->
  exists c w',
    useExistingContext run contextPath url w = ((Returned, Some c), w') /\
    open_contexts (drv w') = c :: open_contexts (drv w) /\
    ~ In c (open_contexts (drv w)) /\
    tidy w' /\
    (forall b0, browser (this w) = Some b0 -> ~ In b0 (open_browsers (drv w'))).
Proof.
  intros [Hb [Hbf Hc]] Hnav.
  pose proof (useExistingContext_returns run contextPath url w Hnav) as Hrun.
  cbv zeta in Hrun.
  pose proof (open_browsers_after_close w Hb) as Hob.
  remember (match browser (this w) with
            | Some b => browser_close b (drv w) | None => drv w end) as d0 eqn:Ed0.
  assert (Hoc : open_contexts d0 = open_contexts (drv w))
    by (subst d0; destruct (browser (this w)); reflexivity).
  assert (Hnx : next d0 = next (drv w))
    by (subst d0; destruct (browser (this w)); reflexivity).
  clear Ed0. destruct Hrun as [mid Hrun].
  eexists _, _. split; [exact Hrun |]. simpl. rewrite ?Hoc, ?Hob, ?Hnx.
  split; [reflexivity |]. split; [| split].
  - intros Hin. rewrite Forall_forall in Hc. specialize (Hc _ Hin). lia.
  - unfold tidy, owned. simpl. rewrite ?Hoc, ?Hob, ?Hnx.
    split; [reflexivity |]. split.
    + constructor; [lia | constructor].
    + constructor; [lia |]. eapply Forall_lt_weaken; [| exact Hc]. lia.
  - intros b0 Hb0 [Heq | []].
    unfold owned in Hb. rewrite Hb0 in Hb. rewrite Hb in Hbf.
    inversion Hbf; subst. lia.
Qed.

Lemma useExistingContext_hands_over_open_context_witness :
  exists c w',
    useExistingContext
      {| newPage_ok := true; goto_ok := true;
         waitForTimeout_ok := true; waitForResponse_ok := true |}
      ["session"%string] (Some "u"%string) (initialize (start (Dir true [])))
      = ((Returned, Some c), w') /\
    In c (open_contexts (drv w')).
Proof.
  destruct (useExistingContext_hands_over_open_context
              {| newPage_ok := true; goto_ok := true;
                 waitForTimeout_ok := true; waitForResponse_ok := true |}
              ["session"%string] (Some "u"%string) (initialize (start (Dir true [])))
              (conj eq_refl (conj (Forall_cons 0 (le_n 1) (Forall_nil _)) (Forall_nil _)))
              eq_refl)
    as [c [w' [Hrun [Hopen _]]]].
  exists c, w'. split; [exact Hrun |]. rewrite Hopen. left. reflexivity.
Defined.

(** X15: when a non-empty URL is given and [newPage] or [goto] rejects,
    [useExistingContext] throws with the persistent context it launched still open and returned to
    nobody, and with [this.browser] still naming the browser it closed at
    the start: no browser is running any more and the re-launch at line 126
    is never reached. *)
Theorem useExistingContext_failure_leaves_context_open run contextPath u w b0 :
  tidy w ->
  browser (this w) = Some b0 ->
  String.eqb u "" = false ->
  newPage_ok run && goto_ok run = false ->
  exists w',
    useExistingContext run contextPath (Some u) w = ((Threw PageError, None), w') /\
    open_contexts (drv w') = next (drv w) :: open_contexts (drv w) /\
    browser (this w') = Some b0 /\
    open_browsers (drv w') = [].
Proof.
  intros [Hb _] Hb0 Hu Hnav. unfold useExistingContext.
  rewrite Hb0, Hu. unfold owned in Hb. rewrite Hb0 in Hb.
  unfold chromium_launchPersistentContext, browser_close, log. simpl.
  destruct (newPage_ok run); simpl in *.
  - rewrite Hnav. simpl. eexists. split; [reflexivity |]. simpl.
    rewrite Hb, Hb0. unfold remove_handle. simpl. rewrite Nat.eqb_refl.
    repeat split.
  - eexists. split; [reflexivity |]. simpl.
    rewrite Hb, Hb0. unfold remove_handle. simpl. rewrite Nat.eqb_refl.
    repeat split.
Qed.

Lemma useExistingContext_failure_leaves_context_open_witness :
  exists w',
    useExistingContext
      {| newPage_ok := true; goto_ok := false;
         waitForTimeout_ok := true; waitForResponse_ok := true |}
      ["session"%string] (Some "u"%string) (initialize (start (Dir true [])))
      = ((Threw PageError, None), w') /\
    open_contexts (drv w') = [1] /\
    open_browsers (drv w') = [].
Proof.
  destruct (useExistingContext_failure_leaves_context_open
              {| newPage_ok := true; goto_ok := false;
                 waitForTimeout_ok := true; waitForResponse_ok := true |}
              ["session"%string] "u"%string (initialize (start (Dir true []))) 0
              (conj eq_refl (conj (Forall_cons 0 (le_n 1) (Forall_nil _)) (Forall_nil _)))
              eq_refl eq_refl eq_refl)
    as [w' [Hrun [Hc [_ Hb]]]].
  exists w'. repeat split; assumption.
Defined.

End LifecycleEdgeFacts.

Module ScriptFacts.
Import Fs Tree Manager Lifecycle Scripts TreeFacts PutFacts PrepareFacts
  LifecycleFacts LifecycleEdgeFacts.
Open Scope list_scope.

Lemma session_apart cwd SESSION_ID :
  diverges (TARGET_CONTEXT_PATH cwd SESSION_ID) (BASE_CONTEXT_PATH cwd) = true.
Proof.
  unfold TARGET_CONTEXT_PATH, BASE_CONTEXT_PATH.
  induction cwd as [| a cwd IH]; simpl.
  - reflexivity.
  - rewrite String.eqb_refl. exact IH.
Qed.

Lemma useExistingContext_disk run p url w :
  disk (snd (useExistingContext run p url w)) = disk w.
Proof.
  unfold useExistingContext.
  destruct (chromium_launchPersistentContext p _) as [c d].
  destruct url as [u |]; simpl; [| reflexivity].
  destruct (String.eqb u ""); [reflexivity |].
  destruct (newPage_ok run); simpl; [destruct (goto_ok run) |]; reflexivity.
Qed.

Lemma cleanup_disk w : disk (cleanup w) = disk w.
Proof. unfold cleanup. destruct (browser (this w)); reflexivity. Qed.

(** The disk a run of [copy-and-run] exits with is the initial one or the
    one its single [copyContext] left. *)
Lemma copy_and_run_disk run srun fuel cwd SESSION_ID s code w :
  copy_and_run_main run srun fuel cwd SESSION_ID s = Exited code w ->
  disk w = s \/
  disk w = snd (copyContext fuel (BASE_CONTEXT_PATH cwd)
                  (TARGET_CONTEXT_PATH cwd SESSION_ID) s).
Proof.
  unfold copy_and_run_main. simpl disk.
  destruct (getContextSize fuel s (BASE_CONTEXT_PATH cwd)) as [size | e |];
    [| intros [= _ <-]; left; reflexivity | discriminate].
  destruct (Z.eqb size 0); [intros [= _ <-]; left; reflexivity |].
  destruct (copyContext fuel _ _ s) as [[[] | e |] s'] eqn:Ec;
    [| intros [= _ <-]; right; reflexivity | discriminate].
  simpl.
  destruct (getContextSize fuel s' _) as [size' | e |];
    [| intros [= _ <-]; right; reflexivity | discriminate].
  match goal with
  | |- context [useExistingContext ?r ?p ?u ?w0] =>
      pose proof (useExistingContext_disk r p u w0) as Hd;
      destruct (useExistingContext r p u w0) as [[res oc] w1]
  end.
  simpl in Hd.
  destruct res as [| f]; [| intros [= _ <-]; right; exact Hd].
  destruct oc as [context |]; [| intros [= _ <-]; right; exact Hd].
  destruct (first_wait_ok srun); simpl; [| intros [= _ <-]; right; exact Hd].
  destruct (second_wait_ok srun); simpl; intros [= _ <-]; right.
  - rewrite cleanup_disk. exact Hd.
  - exact Hd.
Qed.







Lemma ensureDirectory_outcome p s :
  fst (ensureDirectory p s) = Return tt \/ exists e, fst (ensureDirectory p s) = Throw e.
Proof.
  unfold ensureDirectory, try_catch, fs_access, fs_mkdir.
  destruct (access s p) as [[] | e]; simpl; [left; reflexivity |].
  destruct (mkdir_p s p); simpl; eauto.
Qed.

Lemma mkdir_p_makes_empty : forall p s s' e,
  access s p = Err e -> mkdir_p s p = Ok s' -> walk s' p = Ok (Dir true []).
Proof.
  induction p as [| x p IH]; intros s s' e Ha Hm.
  - destruct s; simpl in *; discriminate.
  - destruct s as [c | r es |]; try discriminate.
    rewrite mkdir_p_cons in Hm. unfold access in Ha. rewrite walk_cons in Ha.
    destruct (assoc x es) as [c |] eqn:E.
    + destruct (mkdir_p c p) as [c' | e'] eqn:Ec; [| discriminate].
      injection Hm as <-. rewrite walk_cons, assoc_set_child_same.
      eapply IH; [| exact Ec]. unfold access. exact Ha.
    + injection Hm as <-. rewrite walk_cons, assoc_set_child_same.
      apply walk_fresh_dirs.
Qed.

Lemma ensureDirectory_depth p s n :
  walk (snd (ensureDirectory p s)) p = Ok n -> (depth n <= S (depth s))%nat.
Proof.
  unfold ensureDirectory, try_catch, fs_access, fs_mkdir.
  destruct (access s p) as [[] | e] eqn:Ea; simpl.
  - intros Hw. pose proof (depth_walk _ _ _ Hw). lia.
  - destruct (mkdir_p s p) as [s' | e'] eqn:Em; simpl.
    + rewrite (mkdir_p_makes_empty _ _ _ _ Ea Em). intros [= <-]. simpl. lia.
    + intros Hw. pose proof (depth_walk _ _ _ Hw). lia.
Qed.

Lemma createBaseContext_shape run p url w s' :
  ensureDirectory p (disk w) = (Return tt, s') ->
  fst (createBaseContext run p url w) =
    (if newPage_ok run && goto_ok run && waitForTimeout_ok run
     then Returned else Threw PageError) /\
  disk (snd (createBaseContext run p url w)) = s' /\
  exists b, browser (this (snd (createBaseContext run p url w))) = Some b.
Proof.
  intros He. unfold createBaseContext. rewrite He.
  destruct (chromium_launchPersistentContext p _) as [c d].
  pose proof (warm_cache_result run c url d) as Hr.
  destruct (warm_cache run c url d) as [res d1]. simpl in *.
  repeat split; eauto.
Qed.

Lemma cleanup_tidy w :
  tidy w ->
  open_browsers (drv (cleanup w)) = [] /\
  open_contexts (drv (cleanup w)) = open_contexts (drv w) /\
  browser (this (cleanup w)) = None.
Proof.
  intros [Hb _]. unfold cleanup, owned in *.
  destruct (browser (this w)) as [b |] eqn:E; simpl.
  - rewrite Hb. unfold remove_handle. simpl. rewrite Nat.eqb_refl. repeat split.
  - rewrite E. repeat split; assumption.
Qed.





End ScriptFacts.

(** * Further properties of formatBytes *)

Module RenderingFacts.
Import Format Rendering FormatFacts.
Open Scope string_scope.
Open Scope Z_scope.

Lemma read_digits_digit c s acc cnt :
  is_digit c = true ->
  read_digits (String c s) acc cnt = read_digits s (10 * acc + digit_val c) (S cnt).
Proof. intros H. simpl. rewrite H. reflexivity. Qed.

Lemma read_digits_stop s acc cnt :
  no_digit_ahead s -> read_digits s acc cnt = (acc, cnt, s).
Proof.
  destruct s as [| c s]; simpl; [reflexivity |]. intros ->. reflexivity.
Qed.

Ltac read_one k :=
  cbn [NilEmpty.string_of_uint String.append Pos.of_uint_acc Pos.of_uint
       Decimal.nb_digits];
  rewrite read_digits_digit by reflexivity;
  match goal with
  | |- context [digit_val ?c] => change (digit_val c) with k
  end.

(** Reading back the digits of a numeral, after a positive accumulator. *)
Lemma read_digits_uint_pos : forall d rest p cnt,
  no_digit_ahead rest ->
  read_digits (NilEmpty.string_of_uint d ++ rest) (Z.pos p) cnt
  = (Z.pos (Pos.of_uint_acc d p), (cnt + Decimal.nb_digits d)%nat, rest).
Proof.
  induction d as [| d IH | d IH | d IH | d IH | d IH | d IH | d IH | d IH | d IH | d IH];
    intros rest p cnt Hrest.
  - simpl. rewrite read_digits_stop by assumption. f_equal. f_equal. lia.
  - read_one 0. replace (10 * Z.pos p + 0) with (Z.pos (10 * p)) by lia.
    rewrite IH by assumption. f_equal. f_equal. lia.
  - read_one 1. replace (10 * Z.pos p + 1) with (Z.pos (1 + 10 * p)) by lia.
    rewrite IH by assumption. f_equal. f_equal. lia.
  - read_one 2. replace (10 * Z.pos p + 2) with (Z.pos (2 + 10 * p)) by lia.
    rewrite IH by assumption. f_equal. f_equal. lia.
  - read_one 3. replace (10 * Z.pos p + 3) with (Z.pos (3 + 10 * p)) by lia.
    rewrite IH by assumption. f_equal. f_equal. lia.
  - read_one 4. replace (10 * Z.pos p + 4) with (Z.pos (4 + 10 * p)) by lia.
    rewrite IH by assumption. f_equal. f_equal. lia.
  - read_one 5. replace (10 * Z.pos p + 5) with (Z.pos (5 + 10 * p)) by lia.
    rewrite IH by assumption. f_equal. f_equal. lia.
  - read_one 6. replace (10 * Z.pos p + 6) with (Z.pos (6 + 10 * p)) by lia.
    rewrite IH by assumption. f_equal. f_equal. lia.
  - read_one 7. replace (10 * Z.pos p + 7) with (Z.pos (7 + 10 * p)) by lia.
    rewrite IH by assumption. f_equal. f_equal. lia.
  - read_one 8. replace (10 * Z.pos p + 8) with (Z.pos (8 + 10 * p)) by lia.
    rewrite IH by assumption. f_equal. f_equal. lia.
  - read_one 9. replace (10 * Z.pos p + 9) with (Z.pos (9 + 10 * p)) by lia.
    rewrite IH by assumption. f_equal. f_equal. lia.
Qed.

(** The same from zero: leading zeros do not count. *)
Lemma read_digits_uint : forall d rest cnt,
  no_digit_ahead rest ->
  read_digits (NilEmpty.string_of_uint d ++ rest) 0 cnt
  = (Z.of_N (N.of_uint d), (cnt + Decimal.nb_digits d)%nat, rest).
Proof.
  unfold N.of_uint.
  induction d as [| d IH | d IH | d IH | d IH | d IH | d IH | d IH | d IH | d IH | d IH];
    intros rest cnt Hrest.
  - simpl. rewrite read_digits_stop by assumption. f_equal. f_equal. lia.
  - read_one 0. change (10 * 0 + 0) with 0.
    rewrite IH by assumption. f_equal. f_equal. lia.
  - read_one 1. change (10 * 0 + 1) with (Z.pos 1).
    rewrite read_digits_uint_pos by assumption. f_equal. f_equal. lia.
  - read_one 2. change (10 * 0 + 2) with (Z.pos 2).
    rewrite read_digits_uint_pos by assumption. f_equal. f_equal. lia.
  - read_one 3. change (10 * 0 + 3) with (Z.pos 3).
    rewrite read_digits_uint_pos by assumption. f_equal. f_equal. lia.
  - read_one 4. change (10 * 0 + 4) with (Z.pos 4).
    rewrite read_digits_uint_pos by assumption. f_equal. f_equal. lia.
  - read_one 5. change (10 * 0 + 5) with (Z.pos 5).
    rewrite read_digits_uint_pos by assumption. f_equal. f_equal. lia.
  - read_one 6. change (10 * 0 + 6) with (Z.pos 6).
    rewrite read_digits_uint_pos by assumption. f_equal. f_equal. lia.
  - read_one 7. change (10 * 0 + 7) with (Z.pos 7).
    rewrite read_digits_uint_pos by assumption. f_equal. f_equal. lia.
  - read_one 8. change (10 * 0 + 8) with (Z.pos 8).
    rewrite read_digits_uint_pos by assumption. f_equal. f_equal. lia.
  - read_one 9. change (10 * 0 + 9) with (Z.pos 9).
    rewrite read_digits_uint_pos by assumption. f_equal. f_equal. lia.
Qed.

(** Printing a non-negative integer and reading it back. *)
Lemma read_digits_of_digits a rest :
  0 <= a -> no_digit_ahead rest ->
  exists c, read_digits (digits a ++ rest) 0 0 = (a, S c, rest).
Proof.
  intros Ha Hrest. unfold digits.
  assert (Hnn : N.to_uint (Z.to_N a) <> Decimal.Nil).
  { destruct (Z.to_N a); simpl; [discriminate | apply Unsigned.to_uint_nonnil]. }
  assert (Hs : NilZero.string_of_uint (N.to_uint (Z.to_N a))
               = NilEmpty.string_of_uint (N.to_uint (Z.to_N a))).
  { destruct (N.to_uint (Z.to_N a)); try reflexivity. congruence. }
  rewrite Hs, read_digits_uint by assumption.
  rewrite DecimalN.Unsigned.of_to, Z2N.id by assumption.
  destruct (N.to_uint (Z.to_N a)) eqn:E; try congruence; simpl; eauto.
Qed.

(** Facts about the numerals below 100, checked by running the code on
    each of them. *)
Lemma below_100 (P : Z -> bool) :
  forallb (fun m => P (Z.of_nat m)) (seq 0 100) = true ->
  forall f, 0 <= f < 100 -> P f = true.
Proof.
  intros H f Hf. rewrite forallb_forall in H.
  rewrite <- (Z2Nat.id f) by lia. apply H. apply in_seq. lia.
Qed.

Lemma two_digits_shape f :
  0 <= f < 100 ->
  exists c1 c2,
    two_digits f = String c1 (String c2 "") /\
    is_digit c1 = true /\ is_digit c2 = true /\
    10 * digit_val c1 + digit_val c2 = f.
Proof.
  intros Hf.
  pose proof (below_100
    (fun f => match two_digits f with
              | String c1 (String c2 EmptyString) =>
                  is_digit c1 && is_digit c2 && (10 * digit_val c1 + digit_val c2 =? f)
              | _ => false
              end) ltac:(vm_compute; reflexivity) f Hf) as H.
  cbv beta in H.
  destruct (two_digits f) as [| c1 [| c2 [| c3 s]]]; try discriminate.
  apply andb_true_iff in H as [H H3]. apply andb_true_iff in H as [H1 H2].
  apply Z.eqb_eq in H3. eauto 10.
Qed.

Lemma two_digits_read f a :
  0 <= f < 100 -> read_digits (two_digits f) a 0 = (100 * a + f, 2%nat, "").
Proof.
  intros Hf. destruct (two_digits_shape f Hf) as [c1 [c2 [-> [H1 [H2 Hv]]]]].
  rewrite (read_digits_digit _ _ _ _ H1), (read_digits_digit _ _ _ _ H2).
  cbn [read_digits]. f_equal. f_equal. lia.
Qed.

Lemma pad_two_digits f : 0 <= f < 100 -> pad_left 2 (digits f) = two_digits f.
Proof.
  intros Hf.
  pose proof (below_100 (fun f => String.eqb (pad_left 2 (digits f)) (two_digits f))
                ltac:(vm_compute; reflexivity) f Hf) as H.
  apply String.eqb_eq in H. exact H.
Qed.

Lemma pad_one_digit d : 0 <= d < 10 -> pad_left 1 (digits d) = digits d.
Proof.
  intros Hd.
  pose proof (below_100 (fun d => (10 <=? d) || String.eqb (pad_left 1 (digits d)) (digits d))
                ltac:(vm_compute; reflexivity) d ltac:(lia)) as H.
  cbv beta in H. apply orb_true_iff in H as [H | H].
  - apply Z.leb_le in H. lia.
  - apply String.eqb_eq in H. exact H.
Qed.

Lemma append_empty_r (s : string) : s ++ "" = s.
Proof. induction s as [| c s IH]; simpl; [reflexivity | rewrite IH; reflexivity]. Qed.

Lemma rounded_hundredths_nonneg num den :
  0 <= num -> 0 < den -> 0 <= rounded_hundredths num den.
Proof.
  intros Hn Hd. unfold rounded_hundredths. apply Z.div_pos; lia.
Qed.

(** [parseFloat] reads back what [toFixed(2)] printed: the number in
    hundredths. *)
Lemma parseFloat_toFixed2 num den :
  0 <= num -> 0 < den ->
  parseFloat (toFixed2 (Frac num den)) = Frac (rounded_hundredths num den) 100.
Proof.
  intros Hn Hd. pose proof (rounded_hundredths_nonneg num den Hn Hd) as Hr.
  unfold toFixed2. fold (rounded_hundredths num den).
  set (n := rounded_hundredths num den) in *.
  assert (Hq : 0 <= n / 100) by (apply Z.div_pos; lia).
  assert (Hf : 0 <= n mod 100 < 100) by (apply Z.mod_pos_bound; lia).
  unfold parseFloat.
  destruct (read_digits_of_digits (n / 100) ("." ++ two_digits (n mod 100)) Hq)
    as [c Hc]; [reflexivity |].
  rewrite Hc. cbn [String.append].
  rewrite (two_digits_read _ _ Hf). f_equal.
  pose proof (Z.div_mod n 100). lia.
Qed.

(** Printing a number of hundredths gives its shortest numeral. *)
Lemma number_to_string_hundredths n :
  0 <= n -> number_to_string (Frac n 100) = shortest_hundredths n.
Proof.
  intros Hn. unfold number_to_string, shortest_hundredths, fraction_text.
  change (log10_nat 64 100) with 2%nat. cbn [strip_zeros].
  assert (Hf : 0 <= n mod 100 < 100) by (apply Z.mod_pos_bound; lia).
  assert (H1 : n mod 10 = (n mod 100) mod 10)
    by (Z.to_euclidean_division_equations; lia).
  assert (H2 : (n / 10) mod 10 = (n mod 100) / 10)
    by (Z.to_euclidean_division_equations; lia).
  assert (H3 : n / 10 / 10 = n / 100)
    by (Z.to_euclidean_division_equations; lia).
  rewrite <- H1.
  destruct (n mod 10 =? 0) eqn:E10.
  - apply Z.eqb_eq in E10.
    destruct ((n / 10) mod 10 =? 0) eqn:E100.
    + apply Z.eqb_eq in E100.
      assert (Hz : n mod 100 = 0) by (Z.to_euclidean_division_equations; lia). rewrite Hz. simpl.
      rewrite H3, append_empty_r. reflexivity.
    + apply Z.eqb_neq in E100.
      assert (Hz : n mod 100 <> 0) by (Z.to_euclidean_division_equations; lia).
      apply Z.eqb_neq in Hz. rewrite Hz.
      change (10 ^ Z.of_nat 1) with 10. rewrite H3, H2.
      rewrite pad_one_digit by (Z.to_euclidean_division_equations; lia). reflexivity.
  - apply Z.eqb_neq in E10.
    assert (Hz : n mod 100 <> 0) by (Z.to_euclidean_division_equations; lia).
    apply Z.eqb_neq in Hz. rewrite Hz.
    change (10 ^ Z.of_nat 2) with 100.
    rewrite pad_two_digits by lia. reflexivity.
Qed.

Lemma k_pow_pos i : 0 <= i -> 0 < k ^ i.
Proof. intros Hi. unfold k. apply Z.pow_pos_nonneg; lia. Qed.

Lemma floor_log_k_unique bytes i :
  0 <= i -> k ^ i <= bytes < k ^ (i + 1) -> floor_log_k bytes = i.
Proof.
  intros Hi [Hlo Hhi].
  pose proof (k_pow_pos i Hi) as Hp.
  assert (Hb : 0 < bytes) by lia.
  pose proof (floor_log_k_nonneg bytes) as Hj.
  destruct (floor_log_k_spec bytes Hb) as [Hjlo Hjhi].
  set (j := floor_log_k bytes) in *.
  destruct (Z.lt_trichotomy j i) as [Hlt | [Heq | Hgt]]; [| exact Heq |].
  - assert (k ^ (j + 1) <= k ^ i) by (apply Z.pow_le_mono_r; unfold k; lia). lia.
  - assert (k ^ (i + 1) <= k ^ j) by (apply Z.pow_le_mono_r; unfold k; lia). lia.
Qed.

Lemma formatBytes_rendered bytes :
  0 < bytes ->
  formatBytes bytes =
    shortest_hundredths (rounded_hundredths bytes (k ^ floor_log_k bytes))
      ++ " " ++ sizes_at (floor_log_k bytes).
Proof.
  intros Hb. rewrite formatBytes_pos by assumption.
  pose proof (k_pow_pos _ (floor_log_k_nonneg bytes)) as Hk.
  rewrite parseFloat_toFixed2 by lia.
  rewrite number_to_string_hundredths by (apply rounded_hundredths_nonneg; lia).
  reflexivity.
Qed.

(** X22: what [formatBytes] prints for a positive count below [1024^4],
    without reference to the text round trip of line 195: the count divided
    by the largest power of 1024 not above it, rounded to the nearest
    hundredth (halves upwards), written as the shortest decimal numeral (no
    trailing zeros, no decimal point for a whole number), then a space and
    the unit. *)
Theorem formatBytes_prints_rounded_value (bytes : Z) :
  0 < bytes < k ^ 4 ->
  exists i u,
    k ^ i <= bytes < k ^ (i + 1) /\
    nth_error sizes (Z.to_nat i) = Some u /\
    formatBytes bytes = shortest_hundredths (rounded_hundredths bytes (k ^ i)) ++ " " ++ u.
Proof.
  intros [Hb Hlt].
  pose proof (floor_log_k_nonneg bytes) as Hnn.
  assert (Hi : floor_log_k bytes < 4) by (apply floor_log_k_lt_4; assumption).
  destruct (sizes_at_in_range (floor_log_k bytes) ltac:(lia)) as [u [Hu Hs]].
  exists (floor_log_k bytes), u.
  split; [apply floor_log_k_spec; exact Hb |]. split; [exact Hu |].
  rewrite formatBytes_rendered, Hs by assumption. reflexivity.
Qed.

Lemma formatBytes_prints_rounded_value_witness :
  exists i u,
    k ^ i <= 123456789 < k ^ (i + 1) /\
    nth_error sizes (Z.to_nat i) = Some u /\
    formatBytes 123456789
      = shortest_hundredths (rounded_hundredths 123456789 (k ^ i)) ++ " " ++ u.
Proof.
  apply (formatBytes_prints_rounded_value 123456789). split; reflexivity.
Defined.

(** X23: a count below 1024 is printed as it is, followed by " Bytes":
    no rounding and no decimals. *)
Theorem formatBytes_below_1024 (bytes : Z) :
  0 < bytes < 1024 ->
  formatBytes bytes = digits bytes ++ " Bytes".
Proof.
  intros [Hlo Hhi].
  assert (Hi : floor_log_k bytes = 0).
  { apply floor_log_k_unique; [lia |]. unfold k. simpl. lia. }
  rewrite formatBytes_rendered, Hi by assumption.
  unfold shortest_hundredths, rounded_hundredths. change (k ^ 0) with 1.
  assert (Hn : (200 * bytes + 1) / (2 * 1) = 100 * bytes)
    by (Z.to_euclidean_division_equations; lia).
  rewrite Hn.
  assert (Hq : 100 * bytes / 100 = bytes) by (Z.to_euclidean_division_equations; lia).
  assert (Hr : (100 * bytes) mod 100 = 0) by (Z.to_euclidean_division_equations; lia).
  rewrite Hq, Hr. simpl. rewrite append_empty_r. reflexivity.
Qed.

Lemma formatBytes_below_1024_witness :
  formatBytes 1023 = digits 1023 ++ " Bytes" /\ digits 1023 ++ " Bytes" = "1023 Bytes".
Proof.
  split; [| reflexivity].
  apply (formatBytes_below_1024 1023). split; reflexivity.
Defined.

(** X24: a whole multiple [m * 1024^i] with [1 <= m < 1024] and a unit
    in range is printed as the integer [m] and the unit of index [i],
    without decimals: 1024 is "1 KB", 5 * 1024^2 is "5 MB". *)
Theorem formatBytes_whole_multiple (m i : Z) :
  1 <= m < 1024 -> 0 <= i < 4 ->
  formatBytes (m * k ^ i) = digits m ++ " " ++ sizes_at i.
Proof.
  intros [Hlo Hhi] [Hi _]. pose proof (k_pow_pos i Hi) as Hp.
  assert (Hfl : floor_log_k (m * k ^ i) = i).
  { apply floor_log_k_unique; [exact Hi |].
    rewrite Z.pow_add_r by lia. change (k ^ 1) with 1024. nia. }
  rewrite formatBytes_rendered, Hfl by nia.
  unfold shortest_hundredths, rounded_hundredths.
  assert (Hn : (200 * (m * k ^ i) + k ^ i) / (2 * k ^ i) = 100 * m).
  { symmetry. apply (Z.div_unique _ _ _ (k ^ i)); [left; lia | ring]. }
  rewrite Hn.
  assert (Hq : 100 * m / 100 = m) by (Z.to_euclidean_division_equations; lia).
  assert (Hr : (100 * m) mod 100 = 0) by (Z.to_euclidean_division_equations; lia).
  rewrite Hq, Hr. simpl. rewrite append_empty_r. reflexivity.
Qed.

Lemma formatBytes_whole_multiple_witness :
  formatBytes (5 * k ^ 2) = digits 5 ++ " " ++ sizes_at 2 /\
  digits 5 ++ " " ++ sizes_at 2 = "5 MB".
Proof.
  split; [| reflexivity].
  apply (formatBytes_whole_multiple 5 2); split; try reflexivity; discriminate.
Defined.

(** X25: below [1024^4], [formatBytes] never moves on to the next unit
    because of rounding. A count so close below the next power of 1024 that
    its scaled value rounds to 1024.00 is printed as "1024" with the unit of
    the power below: 1048575 gives "1024 KB", not "1 MB". *)
Theorem formatBytes_rounds_up_to_1024 (bytes : Z) :
  0 < bytes < k ^ 4 ->
  204800 * k ^ floor_log_k bytes <= 200 * bytes + k ^ floor_log_k bytes ->
  formatBytes bytes = "1024 " ++ sizes_at (floor_log_k bytes).
Proof.
  intros [Hb _] Hclose.
  pose proof (floor_log_k_nonneg bytes) as Hi.
  pose proof (k_pow_pos _ Hi) as Hp.
  destruct (floor_log_k_spec bytes Hb) as [_ Hhi].
  rewrite Z.pow_add_r in Hhi by lia. change (k ^ 1) with 1024 in Hhi.
  rewrite formatBytes_rendered by assumption.
  assert (Hn : rounded_hundredths bytes (k ^ floor_log_k bytes) = 102400).
  { unfold rounded_hundredths. symmetry.
    apply (Z.div_unique _ _ _ (200 * bytes + k ^ floor_log_k bytes
                                 - 204800 * k ^ floor_log_k bytes));
      [left; lia | ring]. }
  rewrite Hn. reflexivity.
Qed.

Lemma formatBytes_rounds_up_to_1024_witness :
  formatBytes 1048575 = "1024 " ++ sizes_at (floor_log_k 1048575) /\
  "1024 " ++ sizes_at (floor_log_k 1048575) = "1024 KB" /\
  formatBytes 1048576 = "1 MB".
Proof.
  split; [| split; reflexivity].
  apply (formatBytes_rounds_up_to_1024 1048575); [split; reflexivity |].
  vm_compute. discriminate.
Defined.

End RenderingFacts.
